(** * Rline: the LINE embedding trainer of [src/line_vector.cpp]

    A shallow embedding of the training engine (vertex index, graph loader,
    alias table, negative table, sigmoid table, SGD worker loop and the
    set-up sequence of [TrainLINEMain]) together with the properties the
    specification states about it.

    The C++ source computes with [double] and with [real] (a typedef of
    [float]).  The embedding is written once, over an abstract arithmetic
    ([Arith]), and is instantiated three times:
    - [Q]: exact rational arithmetic (no rounding);
    - [float]: IEEE 754 binary64, the [double] of the source;
    - [binary32]: IEEE 754 binary32, the [real] of the source.
    Structural properties are proved for every arithmetic; properties that
    speak about exact values are proved for the exact instance and evaluated
    on the IEEE instances. *)

From Stdlib Require Import ZArith QArith Qround Qminmax Lia Lqa Floats String Ascii.
From stdpp Require Import gmap strings list fin_maps.
Import ListNotations.

Open Scope Z_scope.

(** ** Arithmetic of the source *)

(** The operations the source performs on floating-point numbers.  [of_int]
    is the implicit conversion of an integer operand, [to_int] the conversion
    back to an integer type (truncation toward zero), [exact] the rational a
    finite value denotes. *)
Class Arith (R : Type) := {
  of_int : Z -> R;
  to_int : R -> Z;
  add : R -> R -> R;
  sub : R -> R -> R;
  mul : R -> R -> R;
  div : R -> R -> R;
  neg : R -> R;
  ltb : R -> R -> bool;
  exact : R -> Q
}.

Declare Scope arith_scope.
Delimit Scope arith_scope with A.
Infix "+" := add : arith_scope.
Infix "-" := sub : arith_scope.
Infix "*" := mul : arith_scope.
Infix "/" := div : arith_scope.
Infix "<?" := ltb : arith_scope.

(** *** Exact rationals *)

Definition Q_to_int (q : Q) : Z := Z.quot (Qnum q) (Zpos (Qden q)).

Definition Q_ltb (x y : Q) : bool :=
  match Qcompare x y with Lt => true | _ => false end.

#[export] Instance Q_arith : Arith Q := {|
  of_int := inject_Z;
  to_int := Q_to_int;
  add := Qplus;
  sub := Qminus;
  mul := Qmult;
  div := Qdiv;
  neg := Qopp;
  ltb := Q_ltb;
  exact := fun q => q
|}.

(** *** IEEE 754 formats *)

(** The rational denoted by a finite value of any binary format (zero for
    infinities and NaN, which denote no number). *)
Definition SF_exact (x : spec_float) : Q :=
  match x with
  | S754_finite s m e =>
      let v := if (0 <=? e)%Z then inject_Z (Zpos m * 2 ^ e)
               else (Zpos m # (2 ^ Z.to_pos (- e)))%Q in
      if s then Qopp v else v
  | _ => 0%Q
  end.

(** Conversion to an integer type: the fractional part is discarded.  The
    conversion of an infinity or a NaN is undefined in C; it is 0 here. *)
Definition SF_to_int (x : spec_float) : Z :=
  match x with
  | S754_finite s m e =>
      let v := if (0 <=? e)%Z then Zpos m * 2 ^ e else Zpos m / 2 ^ (- e) in
      if s then - v else v
  | _ => 0
  end.

(** Rounding of a value of one format into the format [(prec, emax)]. *)
Definition SF_round (prec emax : Z) (x : spec_float) : spec_float :=
  match x with
  | S754_finite s m e => binary_normalize prec emax (cond_Zopp s (Zpos m)) e s
  | y => y
  end.

Definition prec64 : Z := 53.
Definition emax64 : Z := 1024.
Definition prec32 : Z := 24.
Definition emax32 : Z := 128.

(** [double]: the kernel's binary64 numbers. *)
#[export] Instance double_arith : Arith float := {|
  of_int := fun z => SF2Prim (binary_normalize prec64 emax64 z 0 false);
  to_int := fun x => SF_to_int (Prim2SF x);
  add := PrimFloat.add;
  sub := PrimFloat.sub;
  mul := PrimFloat.mul;
  div := PrimFloat.div;
  neg := PrimFloat.opp;
  ltb := PrimFloat.ltb;
  exact := fun x => SF_exact (Prim2SF x)
|}.

(** [real]: binary32, computed with the format-generic operations of the
    Standard Library's [SpecFloat]. *)
Record binary32 : Type := B32 { b32 : spec_float }.

Definition b32_lift2 (f : Z -> Z -> spec_float -> spec_float -> spec_float)
    (x y : binary32) : binary32 :=
  B32 (f prec32 emax32 (b32 x) (b32 y)).

#[export] Instance real_arith : Arith binary32 := {|
  of_int := fun z => B32 (binary_normalize prec32 emax32 z 0 false);
  to_int := fun x => SF_to_int (b32 x);
  add := b32_lift2 SFadd;
  sub := b32_lift2 SFsub;
  mul := b32_lift2 SFmul;
  div := b32_lift2 SFdiv;
  neg := fun x => B32 (SFopp (b32 x));
  ltb := fun x y => SFltb (b32 x) (b32 y);
  exact := fun x => SF_exact (b32 x)
|}.

(** The two floating-point types of the source and the conversions between
    them: [widen] is the promotion of a [real] operand to [double] (exact),
    [narrow] the rounding of a [double] stored into a [real]. *)
Class Platform (real double : Type) := {
  real_ops :: Arith real;
  double_ops :: Arith double;
  widen : real -> double;
  narrow : double -> real
}.

#[export] Instance exact_platform : Platform Q Q := {|
  widen := fun x => x;
  narrow := fun x => x
|}.

#[export] Instance ieee_platform : Platform binary32 float := {|
  widen := fun x => SF2Prim (SF_round prec64 emax64 (b32 x));
  narrow := fun x => B32 (SF_round prec32 emax32 (Prim2SF x))
|}.

(** ** C arrays *)

(** An array is the list of its cells; indices are C integers.  A read or a
    write outside the array is undefined in C: here the read yields the
    default and the write leaves the array as it is. *)
Definition aget {A} (d : A) (a : list A) (i : Z) : A :=
  if decide (0 <= i) then default d (a !! Z.to_nat i) else d.

Definition aset {A} (a : list A) (i : Z) (x : A) : list A :=
  if decide (0 <= i) then <[Z.to_nat i := x]> a else a.

Definition zlen {A} (a : list A) : Z := Z.of_nat (length a).

(** ** VertexIndex: the vertex table and its hash index *)

Definition MAX_STRING : Z := 100.
Definition hash_table_size : Z := 30000000.

(** The characters of [s.c_str()] as the C string functions see them: up to
    the first NUL. *)
Fixpoint c_str (s : string) : string :=
  match s with
  | EmptyString => EmptyString
  | String c s' => if Ascii.eqb c Ascii.zero then EmptyString else String c (c_str s')
  end.

Definition strlen (s : string) : Z := Z.of_nat (String.length s).

(** The value of a [char] operand ([char] is signed on the platforms the
    package is built for). *)
Definition char_value (c : ascii) : Z :=
  let n := Z.of_N (N_of_ascii c) in if n <? 128 then n else n - 256.

(** [Hash]: [hash = hash * seed + *key++] in [unsigned int]. *)
Fixpoint Hash_loop (key : string) (hash : Z) : Z :=
  match key with
  | EmptyString => hash
  | String c key' => Hash_loop key' ((hash * 131 + char_value c) mod 2 ^ 32)
  end.

Definition Hash (key : string) : Z := Hash_loop key 0 mod hash_table_size.

Record ClassVertex (D : Type) : Type := MkVertex { degree : D; name : string }.
Arguments MkVertex {D} _ _.
Arguments degree {D} _.
Arguments name {D} _.

(** The globals of the vertex table.  [vertex] lists the entries written so
    far ([vertex[0 .. num_vertices)]); [vertex_hash_table] holds the cells of
    the hash array that differ from the -1 written by [InitHashTable]. *)
Record VertexIndex (D : Type) : Type := MkIndex {
  vertex : list (ClassVertex D);
  num_vertices : Z;
  max_num_vertices : Z;
  vertex_hash_table : gmap Z Z
}.
Arguments MkIndex {D} _ _ _ _.
Arguments vertex {D} _.
Arguments num_vertices {D} _.
Arguments max_num_vertices {D} _.
Arguments vertex_hash_table {D} _.

Definition table_at (t : gmap Z Z) (addr : Z) : Z := default (-1) (t !! addr).

(** [InitHashTable], and the fresh vertex array of [TrainLINEMain]. *)
Definition InitHashTable {D} (max : Z) : VertexIndex D := MkIndex [] 0 max ∅.

(** The probing loops have no bound in the source; [fuel] bounds the number
    of probes and [None] is a run that is still probing when it runs out. *)
Fixpoint InsertHashTable_from (fuel : nat) (t : gmap Z Z) (addr value : Z)
    : option (gmap Z Z) :=
  match fuel with
  | O => None
  | S fuel' =>
      if table_at t addr =? -1 then Some (<[addr := value]> t)
      else InsertHashTable_from fuel' t ((addr + 1) mod hash_table_size) value
  end.

Definition InsertHashTable (fuel : nat) (t : gmap Z Z) (key : string) (value : Z)
    : option (gmap Z Z) :=
  InsertHashTable_from fuel t (Hash key) value.

Definition vertex_name {D} (vs : list (ClassVertex D)) (id : Z) : string :=
  aget EmptyString (name <$> vs) id.

Fixpoint SearchHashTable_from {D} (fuel : nat) (ix : VertexIndex D) (key : string)
    (addr : Z) : option Z :=
  match fuel with
  | O => None
  | S fuel' =>
      let v := table_at (vertex_hash_table ix) addr in
      if v =? -1 then Some (-1)
      else if String.eqb key (vertex_name (vertex ix) v) then Some v
      else SearchHashTable_from fuel' ix key ((addr + 1) mod hash_table_size)
  end.

Definition SearchHashTable {D} (fuel : nat) (ix : VertexIndex D) (key : string)
    : option Z :=
  SearchHashTable_from fuel ix key (Hash key).

Section Loader.
Context {D : Type} `{Arith D}.

(** [AddVertex]: the stored name is cut to [MAX_STRING - 1] characters, the
    hash entry is filed under the name as given. *)
Definition AddVertex (fuel : nat) (ix : VertexIndex D) (nm : string)
    : option (Z * VertexIndex D) :=
  let length := strlen nm + 1 in
  let length := if length >? MAX_STRING then MAX_STRING else length in
  let v := MkVertex (of_int 0) (substring 0 (Z.to_nat (length - 1)) nm) in
  let vertex' := vertex ix ++ [v] in
  let num_vertices' := num_vertices ix + 1 in
  let max' := if num_vertices' + 2 >=? max_num_vertices ix
              then max_num_vertices ix + 1000 else max_num_vertices ix in
  t ← InsertHashTable fuel (vertex_hash_table ix) nm (num_vertices' - 1);
  Some (num_vertices' - 1, MkIndex vertex' num_vertices' max' t).

Definition add_degree (ix : VertexIndex D) (vid : Z) (weight : D) : VertexIndex D :=
  let v := aget (MkVertex (of_int 0) EmptyString) (vertex ix) vid in
  MkIndex (aset (vertex ix) vid (MkVertex (degree v + weight)%A (name v)))
          (num_vertices ix) (max_num_vertices ix) (vertex_hash_table ix).

(** One endpoint of an input row: look the name up, add the vertex when it
    is new, add the weight to its degree. *)
Definition visit (fuel : nat) (ix : VertexIndex D) (nm : string) (weight : D)
    : option (Z * VertexIndex D) :=
  vid ← SearchHashTable fuel ix nm;
  '(vid, ix) ← (if vid =? -1 then AddVertex fuel ix nm else Some (vid, ix));
  Some (vid, add_degree ix vid weight).

(** The edge arrays; each lists the cells written so far
    ([edge_source_id[0 .. k)] after [k] rows). *)
Record Graph : Type := MkGraph {
  vindex : VertexIndex D;
  edge_source_id : list Z;
  edge_target_id : list Z;
  edge_weight : list D
}.

(** [strcpy] into a buffer of [MAX_STRING] characters: defined only for a
    name of fewer than [MAX_STRING] characters. *)
Definition strcpy_name (s : string) : option string :=
  let n := c_str s in if strlen n <? MAX_STRING then Some n else None.

(** The loop of [VectorReadData] over the rows [k = 0 .. num_edges - 1];
    [num_edges] is [input_u.size()], and a shorter [input_v] or [input_w]
    is read out of bounds ([None]).  [VectorReadData] starts it with
    [num_vertices = 0], that is with no entry of [vertex] in use. *)
Fixpoint read_rows (fuel : nat) (input_u input_v : list string) (input_w : list D)
    (g : Graph) : option Graph :=
  match input_u, input_v, input_w with
  | [], _, _ => Some g
  | u :: us, v :: vs, weight :: ws =>
      name_v1 ← strcpy_name u;
      name_v2 ← strcpy_name v;
      '(vid1, ix) ← visit fuel (vindex g) name_v1 weight;
      '(vid2, ix) ← visit fuel ix name_v2 weight;
      read_rows fuel us vs ws
        (MkGraph ix (edge_source_id g ++ [vid1]) (edge_target_id g ++ [vid2])
                 (edge_weight g ++ [weight]))
  | _, _, _ => None
  end.

Definition VectorReadData (fuel : nat) (ix : VertexIndex D)
    (input_u input_v : list string) (input_w : list D) : option Graph :=
  read_rows fuel input_u input_v input_w
    (MkGraph (MkIndex [] 0 (max_num_vertices ix) (vertex_hash_table ix)) [] [] []).

Definition num_edges (g : Graph) : Z := zlen (edge_weight g).
End Loader.
Arguments Graph D : clear implicits.

(** The numbering the specification describes: ids are handed out
    sequentially in first-occurrence order of the names. *)
Fixpoint index_of (nm : string) (seen : list string) : option nat :=
  match seen with
  | [] => None
  | x :: seen' => if String.eqb nm x then Some O else S <$> index_of nm seen'
  end.

Definition spec_insert (seen : list string) (nm : string) : Z * list string :=
  match index_of nm seen with
  | Some i => (Z.of_nat i, seen)
  | None => (zlen seen, seen ++ [nm])
  end.

Fixpoint spec_rows (seen : list string) (input_u input_v : list string)
    : list Z * list Z * list string :=
  match input_u, input_v with
  | u :: us, v :: vs =>
      let '(i1, seen1) := spec_insert seen (c_str u) in
      let '(i2, seen2) := spec_insert seen1 (c_str v) in
      let '(src, tgt, seen') := spec_rows seen2 us vs in
      (i1 :: src, i2 :: tgt, seen')
  | _, _ => ([], [], seen)
  end.

Definition short_name (s : string) : Prop := strlen (c_str s) < MAX_STRING.

(** The [d]-th cell the probing loops visit from the home cell [h]. *)
Definition probe (h : Z) (d : nat) : Z := (h + Z.of_nat d) mod hash_table_size.

(** The invariant of the vertex table under linear probing: the entries in
    use carry distinct names, the hash array holds one cell per vertex, and
    the cell of every vertex is reached from the home cell of its name
    without crossing an empty cell. *)
Record ix_inv {D} (ix : VertexIndex D) : Prop := MkInv {
  inv_num : num_vertices ix = zlen (vertex ix);
  inv_nodup : NoDup (name <$> vertex ix);
  inv_size : size (vertex_hash_table ix) = length (vertex ix);
  inv_cells : forall a v, vertex_hash_table ix !! a = Some v ->
      0 <= a < hash_table_size /\ 0 <= v < zlen (vertex ix);
  inv_probe : forall (i : nat) nm, (name <$> vertex ix) !! i = Some nm ->
      exists d : nat, (d < length (vertex ix))%nat /\
        vertex_hash_table ix !! probe (Hash nm) d = Some (Z.of_nat i) /\
        forall d' : nat, (d' < d)%nat ->
          is_Some (vertex_hash_table ix !! probe (Hash nm) d')
}.

(** ** AliasSampler *)

(** The indices [0 .. n - 1] of an array of [n] cells. *)
Definition zseq (n : nat) : list Z := Z.of_nat <$> seq 0 n.

(** The arrays of [InitAliasTable].  A cell of [prob] or [alias] is [None]
    until it is written ([malloc] leaves it indeterminate).  [small_block]
    and [large_block] are the two stacks, the top first: the cells
    [small_block[0 .. num_small_block)] of the source, last written first. *)
Record AliasState (D : Type) : Type := MkAlias {
  norm_prob : list D;
  prob : list (option D);
  alias : list (option Z);
  small_block : list Z;
  large_block : list Z
}.
Arguments MkAlias {D} _ _ _ _ _.
Arguments norm_prob {D} _.
Arguments prob {D} _.
Arguments alias {D} _.
Arguments small_block {D} _.
Arguments large_block {D} _.

Section AliasSampler.
Context {D : Type} `{Arith D}.

(** [sum = 0; for k: sum += edge_weight[k]]. *)
Definition weight_sum (edge_weight : list D) : D :=
  fold_left add edge_weight (of_int 0).

(** [norm_prob[k] = edge_weight[k] * num_edges / sum]. *)
Definition normalize (edge_weight : list D) : list D :=
  let sum := weight_sum edge_weight in
  (fun w => (w * of_int (zlen edge_weight) / sum)%A) <$> edge_weight.

(** The loop [for (k = num_edges - 1; k >= 0; k--)] that files every index
    under the small or the large block. *)
Definition classify_step (norm : list D) (blocks : list Z * list Z) (k : Z)
    : list Z * list Z :=
  if (aget (of_int 0) norm k <? of_int 1)%A
  then (k :: blocks.1, blocks.2) else (blocks.1, k :: blocks.2).

Definition classify (norm : list D) : list Z * list Z :=
  fold_left (classify_step norm) (rev (zseq (length norm))) ([], []).

(** One round of the pairing loop, for the popped [cur_small], [cur_large]. *)
Definition pair_step (st : AliasState D) (cur_small cur_large : Z)
    (small large : list Z) : AliasState D :=
  let ps := aget (of_int 0) (norm_prob st) cur_small in
  let pl := aget (of_int 0) (norm_prob st) cur_large in
  let prob' := aset (prob st) cur_small (Some ps) in
  let alias' := aset (alias st) cur_small (Some cur_large) in
  let v := (pl + ps - of_int 1)%A in
  let norm' := aset (norm_prob st) cur_large v in
  if (v <? of_int 1)%A
  then MkAlias norm' prob' alias' (cur_large :: small) large
  else MkAlias norm' prob' alias' small (cur_large :: large).

(** [while (num_small_block && num_large_block)]; [None] when the fuel runs
    out with both blocks still holding an index. *)
Fixpoint pair_blocks (fuel : nat) (st : AliasState D) {struct fuel}
    : option (AliasState D) :=
  match small_block st, large_block st with
  | cur_small :: small, cur_large :: large =>
      match fuel with
      | O => None
      | S fuel' => pair_blocks fuel' (pair_step st cur_small cur_large small large)
      end
  | _, _ => Some st
  end.

(** [while (num_block) prob[block[--num_block]] = 1]. *)
Definition finalize (block : list Z) (prob : list (option D)) : list (option D) :=
  fold_left (fun p k => aset p k (Some (of_int 1))) block prob.

(** [InitAliasTable] after its allocations: the tables [(prob, alias)]. *)
Definition InitAliasTable (fuel : nat) (edge_weight : list D)
    : option (list (option D) * list (option Z)) :=
  let n := length edge_weight in
  let norm := normalize edge_weight in
  let blocks := classify norm in
  st ← pair_blocks fuel (MkAlias norm (replicate n None) (replicate n None) blocks.1 blocks.2);
  Some (finalize (small_block st) (finalize (large_block st) (prob st)), alias st).

(** [SampleAnEdge]; [None] when it reads a cell that was never written or
    that lies outside the tables. *)
Definition SampleAnEdge (num_edges : Z) (prob : list (option D))
    (alias : list (option Z)) (rand_value1 rand_value2 : D) : option Z :=
  let k := to_int (of_int num_edges * rand_value1)%A in
  p ← aget None prob k;
  if (rand_value2 <? p)%A then Some k else aget None alias k.

End AliasSampler.

(** [k] indexes an array of [n] cells. *)
Definition in_table (n : nat) (k : Z) : Prop := 0 <= k < Z.of_nat n.

(** Cell [k] has left the pairing loop as the small item of a round: its
    [prob] is written and its [alias] names a cell of the table. *)
Definition settled {D} (n : nat) (prob : list (option D)) (alias : list (option Z))
    (k : Z) : Prop :=
  exists p l, aget None prob k = Some p /\ aget None alias k = Some l /\ in_table n l.

(** The structural invariant of the pairing loop: the blocks hold distinct
    indices of the table, and every index is in a block or settled. *)
Record pairing_inv {D} (n : nat) (st : AliasState D) : Prop := MkPairing {
  pi_norm : length (norm_prob st) = n;
  pi_prob : length (prob st) = n;
  pi_alias : length (alias st) = n;
  pi_range : Forall (in_table n) (small_block st ++ large_block st);
  pi_nodup : NoDup (small_block st ++ large_block st);
  pi_slots : forall k, in_table n k ->
      k ∈ small_block st ++ large_block st \/ settled n (prob st) (alias st) k;
  pi_written : forall k l, aget None (alias st) k = Some l -> in_table n l
}.

(** *** The distribution of [SampleAnEdge] *)

(** A half-open rectangle [[x0, x1) x [y0, y1)] of the plane of the two
    draws [(r1, r2)]. *)
Record rect : Type := MkRect { x0 : Q; x1 : Q; y0 : Q; y1 : Q }.

Definition in_rect (r : rect) (x y : Q) : Prop :=
  (x0 r <= x /\ x < x1 r /\ y0 r <= y /\ y < y1 r)%Q.

Definition area (r : rect) : Q := ((x1 r - x0 r) * (y1 r - y0 r))%Q.

(** A rectangle of the unit square, with its corners in order. *)
Definition unit_rect (r : rect) : Prop :=
  (0 <= x0 r /\ x0 r <= x1 r /\ x1 r <= 1 /\ 0 <= y0 r /\ y0 r <= y1 r /\ y1 r <= 1)%Q.

Definition disjoint (r r' : rect) : Prop :=
  forall x y, in_rect r x y -> in_rect r' x y -> False.

Inductive pairwise_disjoint : list rect -> Prop :=
  | pairwise_nil : pairwise_disjoint []
  | pairwise_cons r rs :
      Forall (disjoint r) rs -> pairwise_disjoint rs -> pairwise_disjoint (r :: rs).

(** The measure of a finite union of pairwise disjoint rectangles. *)
Fixpoint measure (region : list rect) : Q :=
  match region with
  | [] => 0%Q
  | r :: region' => (area r + measure region')%Q
  end.

Section Distribution.
Context {D : Type} `{Arith D}.

(** The number stored in [prob[k]]. *)
Definition prob_at (prob : list (option D)) (k : Z) : Q :=
  from_option exact 0%Q (aget None prob k).

(** The part of slot [k] (the strip [k/n <= r1 < (k+1)/n]) on which
    [SampleAnEdge] answers [j]: below [prob[k]] when [k] is [j] itself,
    from [prob[k]] up when [alias[k]] is [j]. *)
Definition slot_rects (n : Z) (prob : list (option D)) (alias : list (option Z))
    (j k : Z) : list rect :=
  (if decide (k = j)
   then [MkRect (inject_Z k / inject_Z n) (inject_Z (k + 1) / inject_Z n)
                0 (prob_at prob k)] else []) ++
  (if decide (aget None alias k = Some j)
   then [MkRect (inject_Z k / inject_Z n) (inject_Z (k + 1) / inject_Z n)
                (prob_at prob k) 1] else []).

(** The set of draws [(r1, r2)] on which [SampleAnEdge] answers [j]. *)
Definition outcome_region (n : nat) (prob : list (option D)) (alias : list (option Z))
    (j : Z) : list rect :=
  flat_map (slot_rects (Z.of_nat n) prob alias j) (zseq n).

End Distribution.

(** *** The exact build *)

Fixpoint qsum (f : Z -> Q) (ks : list Z) : Q :=
  match ks with
  | [] => 0%Q
  | k :: ks' => (f k + qsum f ks')%Q
  end.

(** The indicator of a decidable proposition. *)
Definition ind (P : Prop) `{Decision P} : Q := if decide P then 1%Q else 0%Q.

(** [n] times the measure of the part of slot [k] on which the finished
    table answers [j]. *)
Definition share (prob : list (option Q)) (alias : list (option Z)) (j k : Z) : Q :=
  (ind (k = j) * prob_at prob k
   + ind (aget None alias k = Some j) * (1 - prob_at prob k))%Q.

Definition norm_at (st : AliasState Q) (k : Z) : Q := aget 0%Q (norm_prob st) k.

(** The same while the loop runs: an index still in a block keeps its whole
    remaining weight for itself. *)
Definition pending_share (st : AliasState Q) (j k : Z) : Q :=
  if decide (k ∈ small_block st ++ large_block st)
  then (ind (k = j) * norm_at st k)%Q
  else share (prob st) (alias st) j k.

(** The numeric invariant of the pairing loop in exact arithmetic, for the
    normalized weights [p0]: indices are filed under the right block, the
    weight not yet handed out is the number of indices in the blocks, and
    the weight handed out to [j] so far plus what [j] still holds is
    [p0[j]]. *)
Record exact_inv (p0 : list Q) (st : AliasState Q) : Prop := MkExact {
  ei_small : forall k, k ∈ small_block st -> (norm_at st k < 1)%Q;
  ei_large : forall k, k ∈ large_block st -> (1 <= norm_at st k)%Q;
  ei_nonneg : forall k, k ∈ small_block st ++ large_block st -> (0 <= norm_at st k)%Q;
  ei_settled : forall k, in_table (length p0) k -> k ∉ small_block st ++ large_block st ->
      (0 <= prob_at (prob st) k /\ prob_at (prob st) k <= 1)%Q;
  ei_total : (qsum (norm_at st) (small_block st ++ large_block st)
              == inject_Z (zlen (small_block st ++ large_block st)))%Q;
  ei_mass : forall j, in_table (length p0) j ->
      (qsum (pending_share st j) (zseq (length p0)) == aget 0%Q p0 j)%Q
}.

Fixpoint Qsum_list (l : list Q) : Q :=
  match l with
  | [] => 0%Q
  | x :: l' => (x + Qsum_list l')%Q
  end.

(** The tables [(prob, alias)] reproduce the categorical distribution of the
    weights [w]: for every edge [j], the draws [(r1, r2)] of the unit square
    on which [SampleAnEdge] answers [j] form a finite union of pairwise
    disjoint rectangles of the unit square, of total measure
    [w[j] / sum(w)]. *)
Definition alias_distribution (w : list Q) (prob : list (option Q))
    (alias : list (option Z)) : Prop :=
  forall j, in_table (length w) j ->
    (forall r1 r2 : Q, (0 <= r1)%Q -> (r1 < 1)%Q -> (0 <= r2)%Q -> (r2 < 1)%Q ->
       SampleAnEdge (zlen w) prob alias r1 r2 = Some j <->
       exists r, r ∈ outcome_region (length w) prob alias j /\ in_rect r r1 r2) /\
    pairwise_disjoint (outcome_region (length w) prob alias j) /\
    Forall unit_rect (outcome_region (length w) prob alias j) /\
    (measure (outcome_region (length w) prob alias j)
     == aget 0%Q w j / Qsum_list w)%Q.

(** ** NegativeSampler *)

Definition neg_table_size : Z := 100000000.

(** The state of the table walk of [InitNegTable]. *)
Record NegState (D : Type) : Type := MkNeg { cur_sum : D; por : D; vid : Z }.
Arguments MkNeg {D} _ _ _.
Arguments cur_sum {D} _.
Arguments por {D} _.
Arguments vid {D} _.

Section NegativeSampler.
Context {D : Type} `{Arith D}.
(** [pow] of the C library. *)
Variable pow : D -> D -> D.

(** [NEG_SAMPLING_POWER], 0.75. *)
Definition NEG_SAMPLING_POWER : D := (of_int 3 / of_int 4)%A.

(** [sum += pow(vertex[k].degree, NEG_SAMPLING_POWER)] over the first [m]
    vertices. *)
Definition weight_prefix (degrees : list D) (m : nat) : D :=
  fold_left (fun s d => (s + pow d NEG_SAMPLING_POWER)%A) (take m degrees) (of_int 0).

Definition neg_sum (degrees : list D) : D := weight_prefix degrees (length degrees).

(** The body of the loop for slot [k], up to the store into [neg_table[k]]. *)
Definition neg_step (degrees : list D) (sum : D) (st : NegState D) (k : Z) : NegState D :=
  if (por st <? of_int (k + 1) / of_int neg_table_size)%A
  then
    let cur := (cur_sum st + pow (aget (of_int 0) degrees (vid st)) NEG_SAMPLING_POWER)%A in
    MkNeg cur (cur / sum)%A (vid st + 1)
  else st.

(** The slots [k, k + 1, ...] of the table, [count] of them. *)
Fixpoint neg_fill (degrees : list D) (sum : D) (count : nat) (k : Z) (st : NegState D)
    : list Z :=
  match count with
  | O => []
  | S count' =>
      let st' := neg_step degrees sum st k in
      (vid st' - 1) :: neg_fill degrees sum count' (k + 1) st'
  end.

(** [InitNegTable]: the table [neg_table[0 .. neg_table_size)] for the
    degrees of the vertices. *)
Definition InitNegTable (degrees : list D) : list Z :=
  neg_fill degrees (neg_sum degrees) (Z.to_nat neg_table_size) 0
    (MkNeg (of_int 0) (of_int 0) 0).

(** The state of the walk when it reaches slot [k]. *)
Fixpoint neg_state (degrees : list D) (sum : D) (k : nat) : NegState D :=
  match k with
  | O => MkNeg (of_int 0) (of_int 0) 0
  | S k' => neg_step degrees sum (neg_state degrees sum k') (Z.of_nat k')
  end.

End NegativeSampler.

(** The cumulative normalized share of the vertices [0 .. v]:
    [sum_{u <= v} degree[u]^0.75 / sum]. *)
Definition cum_share (pow : Q -> Q -> Q) (degrees : list Q) (v : Z) : Q :=
  (weight_prefix pow degrees (Z.to_nat (v + 1)) / neg_sum pow degrees)%Q.

(** The normalized share of vertex [v]. *)
Definition vertex_share (pow : Q -> Q -> Q) (degrees : list Q) (v : Z) : Q :=
  (pow (aget 0%Q degrees v) (NEG_SAMPLING_POWER (D := Q)) / neg_sum pow degrees)%Q.

(** The upper end of slot [k], [(k + 1) / neg_table_size]. *)
Definition slot_end (k : Z) : Q := (inject_Z (k + 1) / inject_Z neg_table_size)%Q.

(** The specification's rule: [v] is the vertex whose cumulative share first
    exceeds the end of slot [k]. *)
Definition first_exceeds (pow : Q -> Q -> Q) (degrees : list Q) (k v : Z) : Prop :=
  (slot_end k < cum_share pow degrees v)%Q /\
  forall u, 0 <= u < v -> (cum_share pow degrees u <= slot_end k)%Q.

(** The rule of the walk: [v] is the vertex whose cumulative share first
    reaches the end of slot [k]. *)
Definition first_reaches (pow : Q -> Q -> Q) (degrees : list Q) (k v : Z) : Prop :=
  (slot_end k <= cum_share pow degrees v)%Q /\
  forall u, 0 <= u < v -> (cum_share pow degrees u < slot_end k)%Q.

(** The number of slots of a table that hold [v]. *)
Definition slot_count (table : list Z) (v : Z) : Z :=
  zlen (filter (fun x => x = v) table).

(** A rational stand-in for [pow(x, 0.75)], to run the walk on concrete
    degrees: the exact power when [x] is the fourth power of an integer
    (1, 16, 81, ..., 10^12). *)
Definition pow_three_quarters (x y : Q) : Q :=
  inject_Z (Z.sqrt (Z.sqrt (Qfloor x)) ^ 3).

(** The same power in [double], exact on the fourth powers used below:
    the cube of the square root of the square root. *)
Definition pow_three_quarters_double (x y : float) : float :=
  (sqrt (sqrt x) * sqrt (sqrt x) * sqrt (sqrt x))%float.

(** Sixteen degrees, the fourth powers of [883 * k], each a [double]; their
    weights are the cubes of [883 * k], which add up to [5 * 10^7 * 883^3],
    so the share of vertex 0 is [2 / 10^8], the end of slot 1.  The
    [double] additions of [InitNegTable], in this order, give 8 more. *)
Definition boundary_degrees : list float :=
  (fun k => of_int ((883 * k) ^ 4))
    <$> [1; 1; 352; 96; 1; 3; 1; 36; 176; 5; 1; 12; 2; 9; 1; 1].

(** What [InitNegTable] guarantees in exact arithmetic: every slot holds a
    vertex id; and when no vertex has a share below one slot, slot [k] holds
    the first vertex whose cumulative share reaches [(k + 1) / tableSize],
    and the fraction of slots holding a vertex is within one slot of its
    share. *)
Definition neg_table_spec (pow : Q -> Q -> Q) (degrees : list Q) : Prop :=
  let table := InitNegTable pow degrees in
  zlen table = neg_table_size /\
  (forall k, 0 <= k < neg_table_size -> 0 <= aget (-1) table k < zlen degrees) /\
  ((forall v, 0 <= v < zlen degrees ->
      (1 / inject_Z neg_table_size <= vertex_share pow degrees v)%Q) ->
   (forall k, 0 <= k < neg_table_size -> first_reaches pow degrees k (aget (-1) table k)) /\
   (forall v, 0 <= v < zlen degrees ->
      (vertex_share pow degrees v - 1 / inject_Z neg_table_size
         < inject_Z (slot_count table v) / inject_Z neg_table_size /\
       inject_Z (slot_count table v) / inject_Z neg_table_size
         < vertex_share pow degrees v + 1 / inject_Z neg_table_size)%Q)).

(** ** SigmoidLookup *)

Definition SIGMOID_BOUND : Z := 6.
Definition sigmoid_table_size : Z := 1000.

Section SigmoidLookup.
Context {real double : Type} `{Platform real double}.
(** [exp] of the C library. *)
Variable exp : double -> double.

(** The value [InitSigmoidTable] stores in cell [k].  The abscissa
    [2 * SIGMOID_BOUND * k / sigmoid_table_size - SIGMOID_BOUND] has integer
    operands only, so it is computed in [int] (the division truncates) and
    then converted to [real]; [1 / (1 + exp(-x))] is computed in [double]
    and stored as [real]. *)
Definition sigmoid_entry (k : Z) : real :=
  let x : real := of_int (Z.quot (2 * SIGMOID_BOUND * k) sigmoid_table_size - SIGMOID_BOUND) in
  narrow (of_int 1 / (of_int 1 + exp (widen (neg x))))%A.

(** [InitSigmoidTable]: [sigmoid_table_size + 1] cells are allocated and the
    cells [0 .. sigmoid_table_size - 1] are written; the last one is not. *)
Definition InitSigmoidTable : list (option real) :=
  ((fun k => Some (sigmoid_entry k)) <$> zseq (Z.to_nat sigmoid_table_size)) ++ [None].

(** The index [FastSigmoid] computes for [x], in [real] arithmetic. *)
Definition sigmoid_index (x : real) : Z :=
  to_int ((x + of_int SIGMOID_BOUND) * of_int sigmoid_table_size
          / of_int SIGMOID_BOUND / of_int 2)%A.

(** [FastSigmoid]; [None] when it reads a cell that was never written or
    that lies outside the table. *)
Definition FastSigmoid (sigmoid_table : list (option real)) (x : real) : option real :=
  if (of_int SIGMOID_BOUND <? x)%A then Some (of_int 1)
  else if (x <? of_int (- SIGMOID_BOUND))%A then Some (of_int 0)
  else aget None sigmoid_table (sigmoid_index x).

End SigmoidLookup.

(** ** EmbeddingStore and the update of one pair *)

(** The two flat matrices; row [i] occupies the cells
    [i * dim .. i * dim + dim - 1]. *)
Record Embeddings (real : Type) : Type := MkEmb {
  emb_vertex : list real;
  emb_context : list real
}.
Arguments MkEmb {real} _ _.
Arguments emb_vertex {real} _.
Arguments emb_context {real} _.

(** A pointer into one of the matrices: the matrix and the index of the
    cell it points to ([&emb_vertex[lu]], [&emb_context[lv]]). *)
Inductive matrix : Type := InVertex | InContext.

#[export] Instance matrix_eq_dec : EqDecision matrix.
Proof. solve_decision. Defined.

Definition pointer : Type := matrix * Z.

Section Trainer.
Context {real double : Type} `{Platform real double}.

Definition cells (m : Embeddings real) (a : matrix) : list real :=
  match a with InVertex => emb_vertex m | InContext => emb_context m end.

(** [p[c]] for a pointer [p]. *)
Definition load (m : Embeddings real) (p : pointer) (c : Z) : real :=
  aget (of_int 0) (cells m p.1) (p.2 + c).

Definition store (m : Embeddings real) (p : pointer) (c : Z) (x : real) : Embeddings real :=
  match p.1 with
  | InVertex => MkEmb (aset (emb_vertex m) (p.2 + c) x) (emb_context m)
  | InContext => MkEmb (emb_vertex m) (aset (emb_context m) (p.2 + c) x)
  end.

(** [for (int c = 0; c != dim; c++)]: the indices the loop visits. *)
Definition columns (dim : Z) : list Z := zseq (Z.to_nat dim).

(** [Update(vec_u, vec_v, vec_error, label)]: the three loops over the
    columns, each reading the memory as the previous writes left it.  The
    result is [None] when [FastSigmoid] reads a cell that was never
    written. *)
Definition Update (dim : Z) (sigmoid_table : list (option real)) (rho : real)
    (m : Embeddings real) (vec_u vec_v : pointer) (vec_error : list real) (label : Z)
    : option (Embeddings real * list real) :=
  let x := fold_left (fun x c => (x + load m vec_u c * load m vec_v c)%A)
                     (columns dim) (of_int 0) in
  s ← FastSigmoid sigmoid_table x;
  let g := ((of_int label - s) * rho)%A in
  let vec_error' :=
    fold_left (fun e c => aset e c (aget (of_int 0) e c + g * load m vec_v c)%A)
              (columns dim) vec_error in
  let m' :=
    fold_left (fun m c => store m vec_v c (load m vec_v c + g * load m vec_u c)%A)
              (columns dim) m in
  Some (m', vec_error').

(** [Rand]: the new seed (in [unsigned long long]) and the table index. *)
Definition Rand (seed : Z) : Z * Z :=
  let seed' := (seed * 25214903917 + 11) mod 2 ^ 64 in
  (seed', Z.shiftr seed' 16 mod neg_table_size).

(** What a worker reads and never writes. *)
Record Model : Type := MkModel {
  dim : Z;
  order : Z;
  num_negative : Z;
  num_threads : Z;
  total_samples : Z;
  init_rho : real;
  neg_table : list Z;
  sigmoid_table : list (option real);
  source_id : list Z;
  target_id : list Z;
  edge_prob : list (option double);
  edge_alias : list (option Z)
}.

(** The state of the negative-sampling loop of one sampled edge. *)
Record PairState : Type := MkPair {
  ps_emb : Embeddings real;
  ps_error : list real;
  ps_seed : Z
}.

(** The body of [for (int d = 0; d != num_negative + 1; d++)] for the source
    row [lu] and the positive target [v]. *)
Definition pair_round (md : Model) (rho : real) (lu v : Z) (st : PairState) (d : Z)
    : option PairState :=
  let '(seed, target, label) :=
    if d =? 0 then (ps_seed st, v, 1)
    else let '(seed', r) := Rand (ps_seed st) in (seed', aget 0 (neg_table md) r, 0) in
  let lv := target * dim md in
  '(m1, e1) ← (if order md =? 1
               then Update (dim md) (sigmoid_table md) rho (ps_emb st)
                           (InVertex, lu) (InVertex, lv) (ps_error st) label
               else Some (ps_emb st, ps_error st));
  '(m2, e2) ← (if order md =? 2
               then Update (dim md) (sigmoid_table md) rho m1
                           (InVertex, lu) (InContext, lv) e1 label
               else Some (m1, e1));
  Some (MkPair m2 e2 seed).

(** The rounds [d = 0 .. num_negative]. *)
Definition pair_rounds (md : Model) (rho : real) (lu v : Z) (st : PairState)
    : option PairState :=
  fold_left (fun acc d => st' ← acc; pair_round md rho lu v st' d)
            (zseq (Z.to_nat (num_negative md + 1))) (Some st).

(** One sampled edge [(u, v)]: clear the error buffer, run the rounds, then
    add the error buffer to the source row. *)
Definition train_edge (md : Model) (rho : real) (u v : Z) (st : PairState)
    : option PairState :=
  let lu := u * dim md in
  let vec_error := fold_left (fun e c => aset e c (of_int 0)) (columns (dim md)) (ps_error st) in
  st' ← pair_rounds md rho lu v (MkPair (ps_emb st) vec_error (ps_seed st));
  let m' := fold_left (fun m c => store m (InVertex, lu) c
                                    (load m (InVertex, lu) c + aget (of_int 0) (ps_error st') c)%A)
                      (columns (dim md)) (ps_emb st') in
  Some (MkPair m' (ps_error st') (ps_seed st')).

(** *** The worker loop *)

(** The globals a worker writes: the progress counter, the learning rate and
    the matrices. *)
Record Shared : Type := MkShared {
  sh_count : Z;
  sh_rho : real;
  sh_emb : Embeddings real
}.

(** The locals of [TrainLINEThread]. *)
Record Worker : Type := MkWorker {
  w_count : Z;
  w_last_count : Z;
  w_seed : Z;
  w_error : list real
}.

(** [init_rho * (1 - current_sample_count / (real)(total_samples + 1))]: the
    operands are converted to [real], the expression is computed in [real]. *)
Definition rho_decay (md : Model) (current_sample_count : Z) : real :=
  (init_rho md * (of_int 1 - of_int current_sample_count / of_int (total_samples md + 1)))%A.

(** [init_rho * 0.0001]: the literal is a [double] (the [double] nearest to
    1/10000, which is what the correctly rounded quotient is), so [init_rho]
    is promoted and the product is a [double]. *)
Definition rho_floor (md : Model) : double :=
  (widen (init_rho md) * (of_int 1 / of_int 10000))%A.

(** [if (rho < init_rho * 0.0001) rho = init_rho * 0.0001;] *)
Definition rho_clamp (md : Model) (r : real) : real :=
  if (widen r <? rho_floor md)%A then narrow (rho_floor md) else r.

(** The first stores of the block [if (count - last_count > 10000) { ... }]:
    [current_sample_count += count - last_count; last_count = count;
    rho = init_rho * (1 - current_sample_count / (real)(total_samples + 1))].
    The decayed rate is stored in the shared [rho] as it is. *)
Definition report_decay (md : Model) (sh : Shared) (w : Worker) : Shared * Worker :=
  let current_sample_count := sh_count sh + (w_count w - w_last_count w) in
  (MkShared current_sample_count (rho_decay md current_sample_count) (sh_emb sh),
   MkWorker (w_count w) (w_count w) (w_seed w) (w_error w)).

(** The last statement of the block, a second store into the shared [rho]:
    [if (rho < init_rho * 0.0001) rho = init_rho * 0.0001]. *)
Definition report_clamp (md : Model) (sh : Shared) : Shared :=
  MkShared (sh_count sh) (rho_clamp md (sh_rho sh)) (sh_emb sh).

(** The block [if (count - last_count > 10000) { ... }]. *)
Definition report (md : Model) (sh : Shared) (w : Worker) : Shared * Worker :=
  if 10000 <? w_count w - w_last_count w then
    (report_clamp md (report_decay md sh w).1, (report_decay md sh w).2)
  else (sh, w).

(** One full iteration of [while (1)], after the exit test: the report block,
    the draw of an edge from two uniform numbers, the step on that edge and
    [count++].  [None] when a read is undefined. *)
Definition iteration (md : Model) (draw : double * double) (sh : Shared) (w : Worker)
    : option (Shared * Worker) :=
  let '(sh1, w1) := report md sh w in
  curedge ← SampleAnEdge (zlen (source_id md)) (edge_prob md) (edge_alias md) draw.1 draw.2;
  u ← aget None (Some <$> source_id md) curedge;
  v ← aget None (Some <$> target_id md) curedge;
  st ← train_edge md (sh_rho sh1) u v (MkPair (sh_emb sh1) (w_error w1) (w_seed w1));
  Some (MkShared (sh_count sh1) (sh_rho sh1) (ps_emb st),
        MkWorker (w_count w1 + 1) (w_last_count w1) (ps_seed st) (ps_error st)).

(** How a run of the loop on a bounded number of rounds ends. *)
Inductive Outcome : Type :=
| Exited (sh : Shared) (w : Worker)
| Running (sh : Shared) (w : Worker)
| Undefined.

(** [while (1) { if (count > total_samples / num_threads + 2) break; ... }];
    [draws] gives the two uniform numbers of the iteration that starts with
    a given [count].  A round of fuel is one evaluation of the exit test. *)
Fixpoint TrainLINEThread_loop (fuel : nat) (md : Model) (draws : Z -> double * double)
    (sh : Shared) (w : Worker) : Outcome :=
  match fuel with
  | O => Running sh w
  | S fuel' =>
      if Z.quot (total_samples md) (num_threads md) + 2 <? w_count w then Exited sh w
      else match iteration md (draws (w_count w)) sh w with
           | Some (sh', w') => TrainLINEThread_loop fuel' md draws sh' w'
           | None => Undefined
           end
  end.

(** [TrainLINEThread(id)]: both counters at 0, the seed is the thread
    number, the error buffer comes from [calloc]. *)
Definition TrainLINEThread (fuel : nat) (md : Model) (draws : Z -> double * double)
    (id : Z) (sh : Shared) : Outcome :=
  TrainLINEThread_loop fuel md draws sh
    (MkWorker 0 0 (id mod 2 ^ 64) (replicate (Z.to_nat (dim md)) (of_int 0))).

End Trainer.
Arguments Model real double : clear implicits.
Arguments PairState real : clear implicits.
Arguments Shared real : clear implicits.
Arguments Worker real : clear implicits.
Arguments Outcome real : clear implicits.

(** *** The training step as the specification words it *)

Section TrainingStep.
Context {real double : Type} `{Platform real double}.

(** Row [i] of a matrix, as a vector of [dim] components. *)
Definition row (dim : Z) (m : Embeddings real) (a : matrix) (i : Z) : list real :=
  (fun c => load m (a, i * dim) c) <$> columns dim.

Definition replace_cells (arr : list real) (base : Z) (vec : list real) : list real :=
  take (Z.to_nat base) arr ++ vec ++ drop (Z.to_nat base + length vec) arr.

(** The matrix with row [i] replaced by [vec]. *)
Definition set_row (dim : Z) (m : Embeddings real) (a : matrix) (i : Z) (vec : list real)
    : Embeddings real :=
  match a with
  | InVertex => MkEmb (replace_cells (emb_vertex m) (i * dim) vec) (emb_context m)
  | InContext => MkEmb (emb_vertex m) (replace_cells (emb_context m) (i * dim) vec)
  end.

(** [x . y]. *)
Definition dot (x y : list real) : real :=
  fold_left (fun acc p => (acc + p.1 * p.2)%A) (zip x y) (of_int 0).

(** [y + g * x], componentwise. *)
Definition axpy (g : real) (x y : list real) : list real :=
  zip_with (fun yc xc => (yc + g * xc)%A) y x.

(** The targets of the negative pairs, drawn with [Rand] from the worker's
    seed, and the seed they leave. *)
Fixpoint negative_targets (neg_table : list Z) (seed : Z) (count : nat) : list Z * Z :=
  match count with
  | O => ([], seed)
  | S count' =>
      let '(seed', r) := Rand seed in
      let '(targets, seed'') := negative_targets neg_table seed' count' in
      (aget 0 neg_table r :: targets, seed'')
  end.

(** The [(target, label)] pairs of one step: the positive pair first. *)
Definition step_pairs (md : Model real double) (seed v : Z) : list (Z * Z) :=
  (v, 1) :: ((fun t => (t, 0)) <$> (negative_targets (neg_table md) seed
                                     (Z.to_nat (num_negative md))).1).

(** The matrix the target rows live in. *)
Definition target_matrix (md : Model real double) : matrix :=
  if order md =? 1 then InVertex else InContext.

(** One pair: [x] and [g] from the current rows, the error buffer gets
    [g * targetVec] (the row before its write), the target row gets
    [g * sourceVec] at once. *)
Definition spec_pair (md : Model real double) (rho : real) (u : Z)
    (st : Embeddings real * list real) (pair : Z * Z)
    : option (Embeddings real * list real) :=
  let sourceVec := row (dim md) st.1 InVertex u in
  let targetVec := row (dim md) st.1 (target_matrix md) pair.1 in
  let x := dot sourceVec targetVec in
  s ← FastSigmoid (sigmoid_table md) x;
  let g := ((of_int pair.2 - s) * rho)%A in
  Some (set_row (dim md) st.1 (target_matrix md) pair.1 (axpy g sourceVec targetVec),
        axpy g targetVec st.2).

Definition spec_pairs (md : Model real double) (rho : real) (u : Z)
    (st : Embeddings real * list real) (pairs : list (Z * Z))
    : option (Embeddings real * list real) :=
  fold_left (fun acc pair => st' ← acc; spec_pair md rho u st' pair) pairs (Some st).

(** The whole step: all pairs against a zeroed error buffer, then one
    batched update of the source row. *)
Definition spec_train_edge (md : Model real double) (rho : real) (u v : Z)
    (st : PairState real) : option (PairState real) :=
  let zero := replicate (Z.to_nat (dim md)) (of_int 0) in
  '(m, error) ← spec_pairs md rho u (ps_emb st, zero) (step_pairs md (ps_seed st) v);
  Some (MkPair (set_row (dim md) m InVertex u
                  (zip_with add (row (dim md) m InVertex u) error))
               error
               (negative_targets (neg_table md) (ps_seed st)
                  (Z.to_nat (num_negative md))).2).

(** The shapes the step relies on: both matrices have [num_vertices] rows of
    [dim] cells, the error buffer has [dim] cells, every table entry is a
    vertex. *)
Record step_ready (md : Model real double) (num_vertices : Z) (st : PairState real)
    : Prop := MkReady {
  sr_dim : 0 < dim md;
  sr_order : order md = 1 \/ order md = 2;
  sr_negative : 0 <= num_negative md;
  sr_vertices : 0 < num_vertices;
  sr_vertex : zlen (emb_vertex (ps_emb st)) = num_vertices * dim md;
  sr_context : zlen (emb_context (ps_emb st)) = num_vertices * dim md;
  sr_error : zlen (ps_error st) = dim md;
  sr_table : Forall (fun t => 0 <= t < num_vertices) (neg_table md)
}.

End TrainingStep.

(** The matrices with the cells of matrix [a] replaced by [l]. *)
Definition with_cells {real} (m : Embeddings real) (a : matrix) (l : list real)
    : Embeddings real :=
  match a with
  | InVertex => MkEmb l (emb_context m)
  | InContext => MkEmb (emb_vertex m) l
  end.

(** The shape of the memory of a step: [nv] rows of [dim] cells in both
    matrices and [dim] cells in the error buffer. *)
Definition shaped {real} (dim nv : Z) (m : Embeddings real) (e : list real) : Prop :=
  zlen (emb_vertex m) = nv * dim /\ zlen (emb_context m) = nv * dim /\ zlen e = dim.

(** A small instance in exact arithmetic, for evaluating the step: two
    vertices, one edge, two components, order 2, one negative sample, with a
    rational stand-in for [exp]. *)
Definition example_exp (x : Q) : Q := Qpower 2 (Qfloor x).

Definition example_model : Model Q Q :=
  MkModel 2 2 1 1 1000000 (1 # 40) [0; 1; 1] (InitSigmoidTable example_exp)
          [0] [1] [Some 1%Q] [None].

Definition example_state : PairState Q :=
  MkPair (MkEmb [1 # 4; -1 # 4; 1 # 8; 1 # 8] [0; 0; 0; 0]%Q) [5; 7]%Q
         8495505175632423593.

(** An instance for evaluating the worker loop: the same graph, no negative
    sample, a million samples shared by 250000 workers, so that a worker
    makes 7 iterations. *)
Definition example_worker_model : Model Q Q :=
  MkModel 2 2 0 250000 1000000 (1 # 40) [] (InitSigmoidTable example_exp)
          [0] [1] [Some 1%Q] [None].

(** The globals as [TrainLINEMain] leaves them for the workers. *)
Definition example_shared : Shared Q :=
  MkShared 0 (init_rho example_worker_model) (ps_emb example_state).

(** Every draw of the generator is 1/2. *)
Definition example_draws (count : Z) : Q * Q := (1 # 2, 1 # 2)%Q.

(** The parameters of the source's defaults ([dim = 100], [order = 2],
    [num_negative = 5], [init_rho = 0.025]) in the arithmetic of the source,
    for a run of a thousand million samples by two workers; the tables play
    no part in the learning rate. *)
Definition default_model : Model binary32 float :=
  MkModel 100 2 5 2 1000000000 (narrow (25 / 1000)%float) [] [] [] [] [] [].

(** The last report of such a run: the other worker has made its 49995
    reports ([49995 * 10001] samples), this one 49994 and is 10001 samples
    past the last. *)
Definition late_shared : Shared binary32 :=
  MkShared 999989989 (init_rho default_model) (MkEmb [] []).

Definition late_worker : Worker binary32 :=
  MkWorker 499999995 499989994 0 [].

(** The same run and the same report in exact arithmetic, with
    [init_rho = 1/40]. *)
Definition default_model_exact : Model Q Q :=
  MkModel 100 2 5 2 1000000000 (1 # 40) [] [] [] [] [] [].

Definition late_shared_exact : Shared Q :=
  MkShared 999989989 (init_rho default_model_exact) (MkEmb [] []).

Definition late_worker_exact : Worker Q :=
  MkWorker 499999995 499989994 0 [].

(** ** The set-up sequence of [TrainLINEMain] *)

(** The arrays the set-up allocates, in the order of the source. *)
Inductive site : Type :=
| at_vertex | at_pt | at_vertex_hash_table
| at_edge_source_id | at_edge_target_id | at_edge_weight
| at_alias | at_prob | at_norm_prob | at_large_block | at_small_block
| at_emb_vertex | at_emb_context
| at_neg_table | at_sigmoid_table.

#[export] Instance site_eq_dec : EqDecision site.
Proof. solve_decision. Defined.

(** What an initialisation function leaves: the flag [malloc_exit], or an
    access through the null pointer that an allocation returned. *)
Inductive Step : Type :=
| Continue (malloc_exit : bool)
| NullAccess (s : site).

(** How the set-up ends: [TrainLINEMain] returns before [pthread_create] and
    [VectorOutput] (nothing is appended to the output vectors), or an access
    through a null pointer, or the workers are created. *)
Inductive Setup : Type :=
| Returned
| Crashed (s : site)
| Spawned.

Section SetUp.
(** [ok s] tells whether the allocation of [s] succeeds. *)
Variable ok : site -> bool.

(** [InitHashTable]: the result of [malloc] is written at once. *)
Definition InitHashTable_alloc (malloc_exit : bool) : Step :=
  if ok at_vertex_hash_table then Continue malloc_exit
  else NullAccess at_vertex_hash_table.

(** [VectorReadData]: the three edge arrays are tested; the loop stores into
    [vertex] for the first name it meets. *)
Definition VectorReadData_alloc (num_edges : Z) (malloc_exit : bool) : Step :=
  if negb (ok at_edge_source_id) || negb (ok at_edge_target_id) || negb (ok at_edge_weight)
  then Continue true
  else if (0 <? num_edges) && negb (ok at_vertex) then NullAccess at_vertex
  else Continue malloc_exit.

(** [InitAliasTable]: the two tables are tested, then the three work
    buffers. *)
Definition InitAliasTable_alloc (malloc_exit : bool) : Step :=
  if negb (ok at_alias) || negb (ok at_prob) then Continue true
  else if negb (ok at_norm_prob) || negb (ok at_large_block) || negb (ok at_small_block)
  then Continue true
  else Continue malloc_exit.

(** [InitVector]: each matrix is tested before it is filled. *)
Definition InitVector_alloc (malloc_exit : bool) : Step :=
  if negb (ok at_emb_vertex) then Continue true
  else if negb (ok at_emb_context) then Continue true
  else Continue malloc_exit.

(** [InitNegTable]: the result of [malloc] is not tested.  The first round
    of the walk reads [vertex[0].degree] and stores into [neg_table[0]]. *)
Definition InitNegTable_alloc (malloc_exit : bool) : Step :=
  if negb (ok at_vertex) then NullAccess at_vertex
  else if negb (ok at_neg_table) then NullAccess at_neg_table
  else Continue malloc_exit.

(** [InitSigmoidTable]: the result of [malloc] is not tested; the loop
    stores into [sigmoid_table[0]]. *)
Definition InitSigmoidTable_alloc (malloc_exit : bool) : Step :=
  if negb (ok at_sigmoid_table) then NullAccess at_sigmoid_table
  else Continue malloc_exit.

(** [f(); if (malloc_exit != 0) { return; }] followed by the rest. *)
Definition checked (s : Step) (rest : bool -> Setup) : Setup :=
  match s with
  | Continue malloc_exit => if malloc_exit then Returned else rest malloc_exit
  | NullAccess a => Crashed a
  end.

(** [f();] followed by the rest: the flag is not looked at. *)
Definition unchecked (s : Step) (rest : bool -> Setup) : Setup :=
  match s with
  | Continue malloc_exit => rest malloc_exit
  | NullAccess a => Crashed a
  end.

(** [TrainLINEMain] up to the creation of the workers.  [malloc_exit] is a
    static variable that the function does not reset: it comes in with the
    value the previous call left. *)
Definition TrainLINEMain_setup (malloc_exit : bool) (order num_edges : Z) : Setup :=
  if negb (order =? 1) && negb (order =? 2) then Returned
  else
    unchecked (InitHashTable_alloc malloc_exit) (fun malloc_exit =>
    checked (VectorReadData_alloc num_edges malloc_exit) (fun malloc_exit =>
    checked (InitAliasTable_alloc malloc_exit) (fun malloc_exit =>
    checked (InitVector_alloc malloc_exit) (fun malloc_exit =>
    unchecked (InitNegTable_alloc malloc_exit) (fun malloc_exit =>
    unchecked (InitSigmoidTable_alloc malloc_exit) (fun _ => Spawned)))))).

End SetUp.

(** The allocator that fails at [s] only. *)
Definition fails_at (s : site) : site -> bool := fun a => negb (bool_decide (a = s)).

(** The allocations whose result the source tests. *)
Definition tested (s : site) : bool :=
  match s with
  | at_edge_source_id | at_edge_target_id | at_edge_weight
  | at_alias | at_prob | at_norm_prob | at_large_block | at_small_block
  | at_emb_vertex | at_emb_context => true
  | _ => false
  end.

(** ** Further definitions *)

(** The room [AddVertex] keeps in the vertex array: the capacity is more
    than two entries ahead of the entries in use. *)
Definition has_room {D} (ix : VertexIndex D) : Prop :=
  num_vertices ix + 2 < max_num_vertices ix.

(** ** The initial matrices and the output *)

(** The range of [int]. *)
Definition INT_MAX : Z := 2 ^ 31 - 1.
Definition INT_MIN : Z := - 2 ^ 31.

Section InitialMatrices.
Context {real double : Type} `{Platform real double}.
(** [unif_rand n] is the [n]-th number the generator of the host returns. *)
Variable unif_rand : Z -> double.

(** [(unif_rand() - 0.5) / dim]: the draw is a [double], 0.5 is a [double]
    literal and [dim] is converted, so the value is computed in [double];
    it is rounded when it is stored in the cell. *)
Definition init_cell (dim : Z) (u : double) : real :=
  narrow ((u - of_int 1 / of_int 2) / of_int dim)%A.

(** [emb_vertex[a * dim + b] = (unif_rand() - 0.5) / dim]; the state is the
    array and the number of draws made so far. *)
Definition InitVector_vertex_cell (dim b : Z) (st : list real * Z) (a : Z)
    : list real * Z :=
  (aset st.1 (a * dim + b) (init_cell dim (unif_rand st.2)), st.2 + 1).

(** [for (b = 0; b < dim; b++) for (a = 0; a < num_vertices; a++)]. *)
Definition InitVector_vertex (num_vertices dim : Z) (st : list real * Z) : list real * Z :=
  fold_left (fun st b =>
               fold_left (InitVector_vertex_cell dim b) (zseq (Z.to_nat num_vertices)) st)
            (zseq (Z.to_nat dim)) st.

(** The same loops with [emb_context[a * dim + b] = 0]. *)
Definition InitVector_context (num_vertices dim : Z) (emb_context : list real) : list real :=
  fold_left (fun emb b =>
               fold_left (fun emb a => aset emb (a * dim + b) (of_int 0))
                         (zseq (Z.to_nat num_vertices)) emb)
            (zseq (Z.to_nat dim)) emb_context.

(** [InitVector] after its two allocations: [memory] is what the allocated
    blocks hold, [drawn] the number of draws made before the call. *)
Definition InitVector (num_vertices dim : Z) (memory : Embeddings real) (drawn : Z)
    : Embeddings real * Z :=
  let '(vertex_cells, drawn') :=
    InitVector_vertex num_vertices dim (emb_vertex memory, drawn) in
  (MkEmb vertex_cells (InitVector_context num_vertices dim (emb_context memory)), drawn').

(** [a * dim + b] as [VectorOutput] computes it, with [int a], [int b] and
    [int dim]: the product and the sum are [int] operations, and an [int]
    overflow is undefined ([None]). *)
Definition int_cell (a dim b : Z) : option Z :=
  if (INT_MIN <=? a * dim) && (a * dim <=? INT_MAX)
     && (INT_MIN <=? a * dim + b) && (a * dim + b <=? INT_MAX)
  then Some (a * dim + b) else None.

(** The inner loop of [VectorOutput]: [vec.push_back(emb_vertex[a * dim + b])]
    for the columns [bs], the cell converted to [double]. *)
Fixpoint output_cells (emb_vertex : list real) (a dim : Z) (bs : list Z)
    : option (list double) :=
  match bs with
  | [] => Some []
  | b :: bs' =>
      i ← int_cell a dim b;
      vec ← output_cells emb_vertex a dim bs';
      Some (widen (aget (of_int 0) emb_vertex i) :: vec)
  end.

(** [VectorOutput]: for every vertex, its name is pushed on
    [output_vertices] and the [dim] cells of its row, converted to [double],
    on [output_vectors]; [None] when an index overflows. *)
Definition VectorOutput (vertex : list (ClassVertex double)) (num_vertices dim : Z)
    (emb_vertex : list real) (output : list string * list (list double))
    : option (list string * list (list double)) :=
  fold_left (fun acc a =>
               out ← acc;
               vec ← output_cells emb_vertex a dim (zseq (Z.to_nat dim));
               Some (out.1 ++ [vertex_name vertex a], out.2 ++ [vec]))
            (zseq (Z.to_nat num_vertices)) (Some output).

End InitialMatrices.

(** A generator for evaluating [InitVector]: the [n]-th draw is
    [(n + 1) / 8]. *)
Definition example_draws_one (n : Z) : Q := (inject_Z (n + 1) / 8)%Q.

(** ** Degrees *)

Section Degrees.
Context {D : Type} `{Arith D}.

(** [vertex[i].degree]; the entries not in use hold 0. *)
Definition vertex_degree (vs : list (ClassVertex D)) (i : Z) : D :=
  degree (aget (MkVertex (of_int 0) EmptyString) vs i).

(** What one row [(s, t, w)] adds to the degree of vertex [i]: the weight
    for the source, then the weight for the target. *)
Definition degree_step (i : Z) (d : D) (row : Z * Z * D) : D :=
  let d1 := if row.1.1 =? i then (d + row.2)%A else d in
  if row.1.2 =? i then (d1 + row.2)%A else d1.

(** The weighted degree of vertex [i] in the rows [(src, tgt, w)], summed in
    the order of the rows. *)
Definition weighted_degree (src tgt : list Z) (ws : list D) (i : Z) : D :=
  fold_left (degree_step i) (zip (zip src tgt) ws) (of_int 0).

End Degrees.

(** A name of 100 characters. *)
Definition long_name : string :=
  Eval cbv in fold_right String EmptyString (repeat "x"%char 100).

(** The rate is at least what the decay gives for any later progress. *)
Definition above_decay (md : Model Q Q) (sh : Shared Q) : Prop :=
  forall c, sh_count sh <= c -> (rho_clamp md (rho_decay md c) <= sh_rho sh)%Q.

(** A worker that runs alone on the graph of the examples, a million
    samples and no negative sample, at the start of the round of its first
    report: 10001 samples made, none reported. *)
Definition example_lone_model : Model Q Q :=
  MkModel 2 2 0 1 1000000 (1 # 40) [] (InitSigmoidTable example_exp)
          [0] [1] [Some 1%Q] [None].

Definition example_lone_shared : Shared Q :=
  MkShared 0 (init_rho example_lone_model) (ps_emb example_state).

Definition example_lone_worker : Worker Q := MkWorker 10001 0 0 [0; 0]%Q.

(** * Properties *)

(** ** Arrays *)

Lemma aget_lookup {A} (d : A) (a : list A) (i : nat) (x : A) :
  a !! i = Some x -> aget d a (Z.of_nat i) = x.
Proof.
  intros Hx. unfold aget. rewrite decide_True by lia.
  now rewrite Nat2Z.id, Hx.
Qed.

Lemma aget_aset_eq {A} (d : A) (a : list A) (i : Z) (x : A) :
  0 <= i < zlen a -> aget d (aset a i x) i = x.
Proof.
  unfold aget, aset, zlen. intros Hi. rewrite !decide_True by lia.
  rewrite list_lookup_insert_eq by lia. reflexivity.
Qed.

Lemma aget_aset_ne {A} (d : A) (a : list A) (i j : Z) (x : A) :
  i <> j -> aget d (aset a i x) j = aget d a j.
Proof.
  unfold aget, aset. intros Hij.
  destruct (decide (0 <= j)); [|reflexivity].
  destruct (decide (0 <= i)); [|reflexivity].
  rewrite list_lookup_insert_ne by lia. reflexivity.
Qed.

Lemma aget_replicate {A} (n : nat) (k : Z) :
  aget (A := option A) None (replicate n None) k = None.
Proof.
  unfold aget. destruct (decide (0 <= k)); [|reflexivity].
  destruct (replicate n None !! Z.to_nat k) as [x|] eqn:Hx; [|reflexivity].
  apply lookup_replicate in Hx as [-> _]. reflexivity.
Qed.

Lemma length_aset {A} (a : list A) (i : Z) (x : A) : length (aset a i x) = length a.
Proof. unfold aset. destruct (decide (0 <= i)); [apply length_insert|reflexivity]. Qed.

Lemma zlen_aset {A} (a : list A) (i : Z) (x : A) : zlen (aset a i x) = zlen a.
Proof. unfold zlen. now rewrite length_aset. Qed.

(** ** VertexIndex *)

Lemma Hash_range (key : string) : 0 <= Hash key < hash_table_size.
Proof. unfold Hash. apply Z.mod_pos_bound. reflexivity. Qed.

Lemma probe_range (h : Z) (d : nat) : 0 <= probe h d < hash_table_size.
Proof. unfold probe. apply Z.mod_pos_bound. reflexivity. Qed.

Lemma probe_0 (h : Z) : 0 <= h < hash_table_size -> probe h 0 = h.
Proof. intros Hh. unfold probe. rewrite Z.add_0_r. now apply Z.mod_small. Qed.

Lemma probe_S (h : Z) (d : nat) : (probe h d + 1) mod hash_table_size = probe h (S d).
Proof.
  unfold probe. rewrite Zplus_mod_idemp_l. f_equal. lia.
Qed.

Lemma probe_inj (h : Z) (d1 d2 : nat) :
  Z.of_nat d1 < hash_table_size -> Z.of_nat d2 < hash_table_size ->
  probe h d1 = probe h d2 -> d1 = d2.
Proof.
  unfold probe. intros H1 H2 Heq.
  assert (HM : 0 < hash_table_size) by reflexivity.
  pose proof (Z.div_mod (h + Z.of_nat d1) hash_table_size ltac:(lia)) as E1.
  pose proof (Z.div_mod (h + Z.of_nat d2) hash_table_size ltac:(lia)) as E2.
  rewrite Heq in E1.
  assert ((h + Z.of_nat d1) / hash_table_size = (h + Z.of_nat d2) / hash_table_size) by nia.
  lia.
Qed.

(** Below the number of stored cells plus one, some probe finds an empty
    cell: the probes visit pairwise distinct cells. *)
Lemma first_empty_cell (t : gmap Z Z) (h : Z) :
  Z.of_nat (size t) < hash_table_size ->
  exists e : nat, (e <= size t)%nat /\ t !! probe h e = None /\
    forall d : nat, (d < e)%nat -> is_Some (t !! probe h d).
Proof.
  intros Hcap.
  assert (Hsearch : forall b : nat,
    (exists e : nat, (e < b)%nat /\ t !! probe h e = None /\
        forall d : nat, (d < e)%nat -> is_Some (t !! probe h d)) \/
    (forall d : nat, (d < b)%nat -> is_Some (t !! probe h d))).
  { induction b as [|b IH].
    - right. intros d Hd. lia.
    - destruct IH as [(e & He & Hn & Hb)|Hall].
      + left. exists e. split; [lia|]. split; assumption.
      + destruct (t !! probe h b) eqn:Hb.
        * right. intros d Hd. destruct (decide (d = b)) as [->|Hne].
          -- rewrite Hb. eauto.
          -- apply Hall. lia.
        * left. exists b. split; [lia|]. split; assumption. }
  destruct (Hsearch (S (size t))) as [(e & He & Hn & Hb)|Hall].
  { exists e. split; [lia|]. split; assumption. }
  exfalso.
  set (cells := probe h <$> seq 0 (S (size t))).
  assert (Hnd : NoDup cells).
  { unfold cells. apply NoDup_fmap_2_strong; [|apply NoDup_seq].
    intros d1 d2 Hd1 Hd2 Heq.
    apply elem_of_seq in Hd1, Hd2. apply (probe_inj h); [lia|lia|exact Heq]. }
  assert (Hsub : (list_to_set cells : gset Z) ⊆ dom t).
  { intros a Ha. apply elem_of_list_to_set in Ha. unfold cells in Ha.
    apply list_elem_of_fmap in Ha as (d & -> & Hd). apply elem_of_seq in Hd.
    apply elem_of_dom. apply Hall. lia. }
  apply subseteq_size in Hsub.
  rewrite size_list_to_set in Hsub by exact Hnd.
  rewrite size_dom in Hsub. unfold cells in Hsub.
  rewrite length_fmap, length_seq in Hsub. lia.
Qed.

Lemma InsertHashTable_from_spec (t : gmap Z Z) (h value : Z) (e : nat) :
  (forall a v, t !! a = Some v -> 0 <= v) ->
  t !! probe h e = None ->
  forall (fuel j : nat),
    (j <= e)%nat -> (e - j < fuel)%nat ->
    (forall d : nat, (j <= d < e)%nat -> is_Some (t !! probe h d)) ->
    InsertHashTable_from fuel t (probe h j) value = Some (<[probe h e := value]> t).
Proof.
  intros Hval He. induction fuel as [|fuel IH]; intros j Hj Hfuel Hocc; [lia|].
  simpl. unfold table_at.
  destruct (decide (j = e)) as [->|Hne].
  - rewrite He. reflexivity.
  - destruct (Hocc j ltac:(lia)) as [v Hv]. rewrite Hv. simpl.
    pose proof (Hval _ _ Hv).
    destruct (Z.eqb_spec v (-1)) as [E|_]; [lia|].
    rewrite probe_S. apply IH; [lia|lia|].
    intros d Hd. apply Hocc. lia.
Qed.

Section VertexIndexFacts.
Context {D : Type} `{Arith D}.

Lemma vertex_name_lookup (vs : list (ClassVertex D)) (i : nat) (nm : string) :
  (name <$> vs) !! i = Some nm -> vertex_name vs (Z.of_nat i) = nm.
Proof. intros Hi. unfold vertex_name. now apply aget_lookup. Qed.

(** A cell in use holds the id of a vertex in use. *)
Lemma cell_vertex (ix : VertexIndex D) (a v : Z) :
  ix_inv ix -> vertex_hash_table ix !! a = Some v ->
  exists (i : nat) nm, v = Z.of_nat i /\ (name <$> vertex ix) !! i = Some nm.
Proof.
  intros Hinv Hv. destruct (inv_cells ix Hinv a v Hv) as [_ Hrange].
  unfold zlen in Hrange. exists (Z.to_nat v).
  destruct (lookup_lt_is_Some_2 (name <$> vertex ix) (Z.to_nat v)) as [nm Hnm].
  { rewrite length_fmap. lia. }
  exists nm. split; [lia|exact Hnm].
Qed.

(** Looking up the name of a vertex in use finds its id. *)
Lemma SearchHashTable_present (ix : VertexIndex D) (i : nat) (nm : string) (fuel : nat) :
  ix_inv ix -> (name <$> vertex ix) !! i = Some nm ->
  (length (vertex ix) <= fuel)%nat ->
  SearchHashTable fuel ix nm = Some (Z.of_nat i).
Proof.
  intros Hinv Hi Hfuel.
  destruct (inv_probe ix Hinv i nm Hi) as (e & He & Hcell & Hocc).
  unfold SearchHashTable. rewrite <- (probe_0 (Hash nm)) by apply Hash_range.
  assert (Hgen : forall (f j : nat), (j <= e)%nat -> (e - j < f)%nat ->
    SearchHashTable_from f ix nm (probe (Hash nm) j) = Some (Z.of_nat i)).
  { induction f as [|f IH]; intros j Hj Hf; [lia|].
    simpl. unfold table_at.
    destruct (decide (j = e)) as [->|Hne].
    - rewrite Hcell. simpl.
      destruct (Z.eqb_spec (Z.of_nat i) (-1)) as [E|_]; [lia|].
      rewrite (vertex_name_lookup _ _ _ Hi), String.eqb_refl. reflexivity.
    - destruct (Hocc j ltac:(lia)) as [v Hv]. rewrite Hv. simpl.
      destruct (cell_vertex ix _ _ Hinv Hv) as (i' & nm' & -> & Hi').
      destruct (Z.eqb_spec (Z.of_nat i') (-1)) as [E|_]; [lia|].
      rewrite (vertex_name_lookup _ _ _ Hi').
      destruct (String.eqb nm nm') eqn:Enm.
      + apply String.eqb_eq in Enm. subst nm'.
        pose proof (NoDup_lookup _ _ _ _ (inv_nodup ix Hinv) Hi Hi'). congruence.
      + rewrite probe_S. apply IH; lia. }
  apply Hgen; lia.
Qed.

(** Looking up a name that no vertex carries answers -1. *)
Lemma SearchHashTable_absent (ix : VertexIndex D) (nm : string) (fuel : nat) :
  ix_inv ix -> nm ∉ (name <$> vertex ix) ->
  Z.of_nat (length (vertex ix)) < hash_table_size ->
  (length (vertex ix) < fuel)%nat ->
  SearchHashTable fuel ix nm = Some (-1).
Proof.
  intros Hinv Hnot Hcap Hfuel.
  destruct (first_empty_cell (vertex_hash_table ix) (Hash nm)) as (e & He & Hnone & Hocc).
  { rewrite (inv_size ix Hinv). exact Hcap. }
  rewrite (inv_size ix Hinv) in He.
  unfold SearchHashTable. rewrite <- (probe_0 (Hash nm)) by apply Hash_range.
  assert (Hgen : forall (f j : nat), (j <= e)%nat -> (e - j < f)%nat ->
    SearchHashTable_from f ix nm (probe (Hash nm) j) = Some (-1)).
  { induction f as [|f IH]; intros j Hj Hf; [lia|].
    simpl. unfold table_at.
    destruct (decide (j = e)) as [->|Hne].
    - rewrite Hnone. reflexivity.
    - destruct (Hocc j ltac:(lia)) as [v Hv]. rewrite Hv. simpl.
      destruct (cell_vertex ix _ _ Hinv Hv) as (i' & nm' & -> & Hi').
      destruct (Z.eqb_spec (Z.of_nat i') (-1)) as [E|_]; [lia|].
      rewrite (vertex_name_lookup _ _ _ Hi').
      destruct (String.eqb nm nm') eqn:Enm.
      + apply String.eqb_eq in Enm. subst nm'.
        exfalso. apply Hnot. eapply list_elem_of_lookup_2. exact Hi'.
      + rewrite probe_S. apply IH; lia. }
  apply Hgen; lia.
Qed.

End VertexIndexFacts.

Lemma substring_full (s : string) : substring 0 (String.length s) s = s.
Proof. induction s as [|c s IH]; simpl; [reflexivity|now rewrite IH]. Qed.

Lemma index_of_Some (nm : string) (seen : list string) (i : nat) :
  index_of nm seen = Some i -> seen !! i = Some nm.
Proof.
  revert i. induction seen as [|x seen IH]; intros i; simpl; [discriminate|].
  destruct (String.eqb_spec nm x) as [->|Hne].
  - intros [= <-]. reflexivity.
  - destruct (index_of nm seen) as [j|]; simpl; [|discriminate].
    intros [= <-]. simpl. now apply IH.
Qed.

Lemma index_of_None (nm : string) (seen : list string) :
  index_of nm seen = None -> nm ∉ seen.
Proof.
  induction seen as [|x seen IH]; simpl; intros Hnone.
  - apply not_elem_of_nil.
  - destruct (String.eqb_spec nm x) as [->|Hne]; [discriminate|].
    destruct (index_of nm seen); [discriminate|].
    apply not_elem_of_cons. split; [exact Hne|now apply IH].
Qed.

Section LoaderFacts.
Context {D : Type} `{Arith D}.

Lemma add_degree_names (ix : VertexIndex D) (vid : Z) (w : D) :
  name <$> vertex (add_degree ix vid w) = name <$> vertex ix.
Proof.
  unfold add_degree, aset, aget. simpl.
  destruct (decide (0 <= vid)); [|reflexivity].
  rewrite list_fmap_insert. simpl.
  destruct (vertex ix !! Z.to_nat vid) as [v|] eqn:Hv; simpl.
  - apply list_insert_id. now rewrite list_lookup_fmap, Hv.
  - apply list_insert_ge. rewrite length_fmap. now apply lookup_ge_None.
Qed.

Lemma add_degree_inv (ix : VertexIndex D) (vid : Z) (w : D) :
  ix_inv ix -> ix_inv (add_degree ix vid w).
Proof.
  intros Hinv.
  assert (Hlen : length (vertex (add_degree ix vid w)) = length (vertex ix)).
  { unfold add_degree. simpl. apply length_aset. }
  constructor.
  - unfold zlen. rewrite Hlen. apply (inv_num ix Hinv).
  - rewrite add_degree_names. apply (inv_nodup ix Hinv).
  - rewrite Hlen. apply (inv_size ix Hinv).
  - unfold zlen. rewrite Hlen. apply (inv_cells ix Hinv).
  - rewrite add_degree_names, Hlen. apply (inv_probe ix Hinv).
Qed.

(** A fresh name gets the current vertex count as its id, and the table
    keeps its invariant. *)
Lemma AddVertex_fresh (fuel : nat) (ix : VertexIndex D) (nm : string) :
  ix_inv ix -> nm ∉ (name <$> vertex ix) -> strlen nm < MAX_STRING ->
  Z.of_nat (length (vertex ix)) < hash_table_size ->
  (length (vertex ix) < fuel)%nat ->
  exists ix', AddVertex fuel ix nm = Some (zlen (vertex ix), ix') /\
    ix_inv ix' /\ name <$> vertex ix' = (name <$> vertex ix) ++ [nm].
Proof.
  intros Hinv Hnot Hshort Hcap Hfuel.
  pose proof (inv_num ix Hinv) as Hnum.
  pose proof (inv_size ix Hinv) as Hsize.
  destruct (first_empty_cell (vertex_hash_table ix) (Hash nm)) as (e & He & Hnone & Hocc).
  { now rewrite Hsize. }
  rewrite Hsize in He.
  unfold AddVertex, InsertHashTable.
  assert (Hins : InsertHashTable_from fuel (vertex_hash_table ix) (probe (Hash nm) 0)
      (num_vertices ix + 1 - 1)
    = Some (<[probe (Hash nm) e := num_vertices ix + 1 - 1]> (vertex_hash_table ix))).
  { apply InsertHashTable_from_spec; [| exact Hnone | lia | lia |].
    - intros a v Hv. apply (inv_cells ix Hinv a v Hv).
    - intros d Hd. apply Hocc. lia. }
  rewrite (probe_0 (Hash nm)) in Hins by apply Hash_range.
  rewrite Hins. clear Hins.
  assert (Hkeep : substring 0 (Z.to_nat
      ((if strlen nm + 1 >? MAX_STRING then MAX_STRING else strlen nm + 1) - 1)) nm = nm).
  { destruct (Z.gtb_spec (strlen nm + 1) MAX_STRING) as [Hgt|_]; [lia|].
    unfold strlen. replace (Z.of_nat (String.length nm) + 1 - 1) with
      (Z.of_nat (String.length nm)) by lia.
    rewrite Nat2Z.id. apply substring_full. }
  simpl. rewrite Hkeep. rewrite Hnum.
  replace (zlen (vertex ix) + 1 - 1) with (zlen (vertex ix)) by lia.
  eexists. split; [reflexivity|].
  assert (Hnames : name <$> vertex ix ++ [MkVertex (of_int 0) nm] = (name <$> vertex ix) ++ [nm]).
  { now rewrite fmap_app. }
  split; [|exact Hnames].
  constructor; simpl.
  - unfold zlen. rewrite length_app. simpl. lia.
  - rewrite Hnames. apply NoDup_app. split; [apply (inv_nodup ix Hinv)|].
    split; [|apply NoDup_singleton].
    intros x Hx Hx'. apply list_elem_of_singleton in Hx'. now subst x.
  - rewrite map_size_insert_None by exact Hnone. rewrite length_app. simpl. lia.
  - intros a v Hv. unfold zlen. rewrite length_app. simpl.
    destruct (decide (a = probe (Hash nm) e)) as [->|Hne].
    + rewrite lookup_insert_eq in Hv. injection Hv as <-.
      split; [apply probe_range|unfold zlen; lia].
    + rewrite lookup_insert_ne in Hv by congruence.
      destruct (inv_cells ix Hinv a v Hv) as [Ha Hvr]. unfold zlen in Hvr. lia.
  - intros i nm' Hi. rewrite Hnames in Hi. rewrite length_app. simpl.
    destruct (decide (i < length (name <$> vertex ix))%nat) as [Hlt|Hge].
    + rewrite lookup_app_l in Hi by exact Hlt.
      destruct (inv_probe ix Hinv i nm' Hi) as (d & Hd & Hcell & Hbefore).
      exists d. split; [lia|]. split.
      * rewrite lookup_insert_ne; [exact Hcell|]. intros Heq. congruence.
      * intros d' Hd'. destruct (Hbefore d' Hd') as [v Hv].
        rewrite lookup_insert_ne; [eauto|]. intros Heq. congruence.
    + rewrite lookup_app_r in Hi by lia.
      rewrite length_fmap in Hi, Hge.
      destruct (i - length (vertex ix))%nat as [|k] eqn:Hk; simpl in Hi; [|discriminate].
      injection Hi as <-.
      assert (i = length (vertex ix)) as -> by lia.
      exists e. split; [lia|]. split.
      * rewrite lookup_insert_eq. reflexivity.
      * intros d' Hd'. destruct (Hocc d' Hd') as [v Hv].
        rewrite lookup_insert_ne; [eauto|]. intros Heq. congruence.
Qed.

(** [visit] follows the first-occurrence numbering: a name already present
    gets the id of its first occurrence and the vertex count stays; a fresh
    name gets the current count. *)
Lemma visit_spec (fuel : nat) (ix : VertexIndex D) (nm : string) (w : D) :
  ix_inv ix -> strlen nm < MAX_STRING ->
  Z.of_nat (length (spec_insert (name <$> vertex ix) nm).2) <= hash_table_size ->
  (length (spec_insert (name <$> vertex ix) nm).2 <= fuel)%nat ->
  exists ix', visit fuel ix nm w = Some ((spec_insert (name <$> vertex ix) nm).1, ix') /\
    ix_inv ix' /\ name <$> vertex ix' = (spec_insert (name <$> vertex ix) nm).2.
Proof.
  intros Hinv Hshort Hcap Hfuel. unfold visit, spec_insert in *.
  destruct (index_of nm (name <$> vertex ix)) as [i|] eqn:Hidx; simpl in *.
  - apply index_of_Some in Hidx. rewrite length_fmap in Hfuel.
    rewrite (SearchHashTable_present ix i nm fuel Hinv Hidx Hfuel). simpl.
    destruct (Z.eqb_spec (Z.of_nat i) (-1)) as [E|_]; [lia|]. simpl.
    eexists. split; [reflexivity|]. split; [now apply add_degree_inv|apply add_degree_names].
  - apply index_of_None in Hidx.
    rewrite length_app, length_fmap in Hcap, Hfuel. simpl in Hcap, Hfuel.
    rewrite (SearchHashTable_absent ix nm fuel Hinv Hidx) by lia. simpl.
    destruct (AddVertex_fresh fuel ix nm Hinv Hidx Hshort) as (ix' & -> & Hinv' & Hnames);
      [lia|lia|].
    simpl. eexists. split.
    + unfold zlen. rewrite length_fmap. reflexivity.
    + split; [now apply add_degree_inv|]. now rewrite add_degree_names.
Qed.

End LoaderFacts.

Lemma spec_insert_length (seen : list string) (nm : string) :
  (length seen <= length (spec_insert seen nm).2)%nat.
Proof.
  unfold spec_insert. destruct (index_of nm seen); simpl; [lia|].
  rewrite length_app. simpl. lia.
Qed.

Lemma spec_rows_length (us vs seen : list string) :
  (length seen <= length (spec_rows seen us vs).2)%nat.
Proof.
  revert vs seen. induction us as [|u us IH]; intros vs seen; simpl; [lia|].
  destruct vs as [|v vs]; simpl; [lia|].
  destruct (spec_insert seen (c_str u)) as [i1 seen1] eqn:E1.
  destruct (spec_insert seen1 (c_str v)) as [i2 seen2] eqn:E2.
  specialize (IH vs seen2).
  destruct (spec_rows seen2 us vs) as [[src tgt] seen'] eqn:E3. simpl in *.
  pose proof (spec_insert_length seen (c_str u)) as L1.
  pose proof (spec_insert_length seen1 (c_str v)) as L2.
  rewrite E1 in L1. rewrite E2 in L2. simpl in *. lia.
Qed.

Section ReadData.
Context {D : Type} `{Arith D}.

Lemma read_rows_spec (fuel : nat) (us vs : list string) (ws : list D) :
  forall g : Graph D,
    length vs = length us -> length ws = length us ->
    Forall short_name us -> Forall short_name vs ->
    ix_inv (vindex g) ->
    Z.of_nat (length (spec_rows (name <$> vertex (vindex g)) us vs).2) <= hash_table_size ->
    (length (spec_rows (name <$> vertex (vindex g)) us vs).2 <= fuel)%nat ->
    exists g', read_rows fuel us vs ws g = Some g' /\
      ix_inv (vindex g') /\
      name <$> vertex (vindex g') = (spec_rows (name <$> vertex (vindex g)) us vs).2 /\
      edge_source_id g' = edge_source_id g ++ (spec_rows (name <$> vertex (vindex g)) us vs).1.1 /\
      edge_target_id g' = edge_target_id g ++ (spec_rows (name <$> vertex (vindex g)) us vs).1.2 /\
      edge_weight g' = edge_weight g ++ ws.
Proof.
  revert vs ws. induction us as [|u us IH]; intros vs ws g Hlv Hlw Hsu Hsv Hinv Hcap Hfuel.
  - destruct ws; [|discriminate]. simpl. exists g.
    rewrite !app_nil_r. split; [reflexivity|]. split; [exact Hinv|]. auto.
  - destruct vs as [|v vs]; [discriminate|]. destruct ws as [|w ws]; [discriminate|].
    simpl in Hlv, Hlw. apply Forall_cons_1 in Hsu as [Hu Hsu]. apply Forall_cons_1 in Hsv as [Hv Hsv].
    simpl in Hcap, Hfuel |- *.
    unfold strcpy_name. unfold short_name in Hu, Hv.
    destruct (Z.ltb_spec (strlen (c_str u)) MAX_STRING) as [_|?]; [|lia].
    destruct (Z.ltb_spec (strlen (c_str v)) MAX_STRING) as [_|?]; [|lia].
    simpl.
    set (seen := name <$> vertex (vindex g)) in *.
    pose proof (spec_insert_length seen (c_str u)) as L1.
    destruct (spec_insert seen (c_str u)) as [i1 seen1] eqn:E1.
    pose proof (spec_insert_length seen1 (c_str v)) as L2.
    destruct (spec_insert seen1 (c_str v)) as [i2 seen2] eqn:E2.
    pose proof (spec_rows_length us vs seen2) as L3.
    destruct (spec_rows seen2 us vs) as [[src tgt] seen'] eqn:E3.
    simpl in Hcap, Hfuel, L1, L2, L3 |- *.
    destruct (visit_spec fuel (vindex g) (c_str u) w Hinv Hu) as (ix1 & -> & Hinv1 & Hn1).
    { fold seen. rewrite E1. simpl. lia. }
    { fold seen. rewrite E1. simpl. lia. }
    fold seen in Hn1 |- *. rewrite E1 in Hn1 |- *. simpl in Hn1 |- *.
    destruct (visit_spec fuel ix1 (c_str v) w Hinv1 Hv) as (ix2 & -> & Hinv2 & Hn2).
    { rewrite Hn1, E2. simpl. lia. }
    { rewrite Hn1, E2. simpl. lia. }
    rewrite Hn1, E2 in Hn2 |- *. simpl in Hn2 |- *.
    destruct (IH vs ws (MkGraph ix2 (edge_source_id g ++ [i1]) (edge_target_id g ++ [i2])
                (edge_weight g ++ [w]))) as (g' & -> & Hinv' & Hn' & Hs' & Ht' & Hw');
      simpl; try assumption; try lia.
    { rewrite Hn2, E3. simpl. lia. }
    { rewrite Hn2, E3. simpl. lia. }
    simpl in *. rewrite Hn2, E3 in Hn', Hs', Ht'. simpl in *.
    exists g'. split; [reflexivity|]. split; [exact Hinv'|].
    rewrite Hn', Hs', Ht', Hw', <- !app_assoc. simpl. auto.
Qed.

Lemma InitHashTable_inv (max : Z) : ix_inv (InitHashTable (D := D) max).
Proof.
  constructor; simpl.
  - reflexivity.
  - apply NoDup_nil_2.
  - apply map_size_empty.
  - intros a v Hv. rewrite lookup_empty in Hv. discriminate.
  - intros i nm Hi. discriminate.
Qed.

(** X16.  [VectorReadData] numbers the vertices 0, 1, 2, ... in the order in
    which their names first occur in the edge stream: on every input whose
    names fit the name buffers and whose distinct names fit the hash array,
    the loader ends (given fuel for one probe per vertex), the vertex table
    lists the names in first-occurrence order, [num_vertices] is their
    count, and the edge arrays hold, for every row, the ids [spec_insert]
    assigns — the id of the first occurrence for a name seen before (no
    vertex is added), the current vertex count for a fresh name. *)
Theorem VectorReadData_first_occurrence (fuel : nat) (max : Z)
    (input_u input_v : list string) (input_w : list D) :
  length input_v = length input_u -> length input_w = length input_u ->
  Forall short_name input_u -> Forall short_name input_v ->
  Z.of_nat (length (spec_rows [] input_u input_v).2) <= hash_table_size ->
  (length (spec_rows [] input_u input_v).2 <= fuel)%nat ->
  exists g, VectorReadData fuel (InitHashTable max) input_u input_v input_w = Some g /\
    name <$> vertex (vindex g) = (spec_rows [] input_u input_v).2 /\
    num_vertices (vindex g) = zlen (spec_rows [] input_u input_v).2 /\
    edge_source_id g = (spec_rows [] input_u input_v).1.1 /\
    edge_target_id g = (spec_rows [] input_u input_v).1.2 /\
    edge_weight g = input_w.
Proof.
  intros Hlv Hlw Hsu Hsv Hcap Hfuel. unfold VectorReadData. simpl.
  destruct (read_rows_spec fuel input_u input_v input_w
              (MkGraph (MkIndex [] 0 max ∅) [] [] []))
    as (g & Hrun & Hinv & Hn & Hs & Ht & Hw); simpl; try assumption.
  { apply (InitHashTable_inv max). }
  simpl in *. exists g. split; [exact Hrun|]. split; [exact Hn|].
  split; [|auto].
  rewrite (inv_num _ Hinv). unfold zlen. now rewrite <- Hn, length_fmap.
Qed.

End ReadData.

(** The order [B, A, B, C] of the specification: rows (B, A) and (B, C) give
    B = 0, A = 1, C = 2. *)
Lemma VectorReadData_first_occurrence_witness :
  exists g, VectorReadData 3 (InitHashTable 1000) ["B"; "B"]%string ["A"; "C"]%string
              [1%Q; 1%Q] = Some g /\
    name <$> vertex (vindex g) = ["B"; "A"; "C"]%string /\
    num_vertices (vindex g) = 3 /\
    edge_source_id g = [0; 0] /\ edge_target_id g = [1; 2] /\
    edge_weight g = [1%Q; 1%Q].
Proof.
  apply (VectorReadData_first_occurrence 3 1000 ["B"; "B"]%string ["A"; "C"]%string
           [1%Q; 1%Q]).
  - reflexivity.
  - reflexivity.
  - repeat constructor.
  - repeat constructor.
  - vm_compute. discriminate.
  - vm_compute. lia.
Defined.

(** ** AliasSampler: structure of the table *)

Lemma elem_of_zseq (n : nat) (k : Z) : k ∈ zseq n <-> in_table n k.
Proof.
  unfold zseq, in_table. rewrite list_elem_of_fmap. split.
  - intros (i & -> & Hi). apply elem_of_seq in Hi. lia.
  - intros Hk. exists (Z.to_nat k). split; [lia|]. apply elem_of_seq. lia.
Qed.

Lemma NoDup_zseq (n : nat) : NoDup (zseq n).
Proof.
  unfold zseq. apply NoDup_fmap_2; [|apply NoDup_seq].
  intros x y Hxy. lia.
Qed.

Section AliasStructure.
Context {D : Type} `{Arith D}.

Lemma classify_perm (norm : list D) (ks : list Z) (acc : list Z * list Z) :
  (fold_left (classify_step norm) ks acc).1 ++ (fold_left (classify_step norm) ks acc).2
    ≡ₚ ks ++ acc.1 ++ acc.2.
Proof.
  revert acc. induction ks as [|k ks IH]; intros [small large]; simpl; [reflexivity|].
  rewrite IH. unfold classify_step. simpl.
  destruct (aget (of_int 0) norm k <? of_int 1)%A; simpl.
  - symmetry. apply Permutation_middle.
  - rewrite !app_assoc. symmetry. apply Permutation_middle.
Qed.

Lemma classify_blocks (norm : list D) :
  (classify norm).1 ++ (classify norm).2 ≡ₚ zseq (length norm).
Proof.
  unfold classify. rewrite classify_perm. simpl.
  rewrite app_nil_r. now rewrite <- Permutation_rev.
Qed.

Lemma pairing_inv_init (norm : list D) :
  pairing_inv (length norm)
    (MkAlias norm (replicate (length norm) None) (replicate (length norm) None)
       (classify norm).1 (classify norm).2).
Proof.
  pose proof (classify_blocks norm) as Hperm.
  constructor; simpl.
  - reflexivity.
  - apply length_replicate.
  - apply length_replicate.
  - rewrite Hperm. apply Forall_forall. intros k. apply elem_of_zseq.
  - rewrite Hperm. apply NoDup_zseq.
  - intros k Hk. left. rewrite Hperm. now apply elem_of_zseq.
  - intros k l. now rewrite aget_replicate.
Qed.

Lemma pair_step_inv (n : nat) (st : AliasState D) (s l : Z) (small large : list Z) :
  pairing_inv n st -> small_block st = s :: small -> large_block st = l :: large ->
  pairing_inv n (pair_step st s l small large).
Proof.
  intros Hinv Hs Hl.
  destruct Hinv as [Hnorm Hprob Halias Hrange Hnodup Hslots Hwritten].
  rewrite Hs, Hl in Hrange, Hnodup, Hslots.
  assert (Hperm : forall (a b : list Z), s :: a ++ l :: b ≡ₚ s :: l :: a ++ b).
  { intros a b. now rewrite <- Permutation_middle. }
  assert (Hsr : in_table n s).
  { apply Forall_forall with (x := s) in Hrange; [exact Hrange|]. left. }
  assert (Hlr : in_table n l).
  { apply Forall_forall with (x := l) in Hrange; [exact Hrange|].
    change (l ∈ (s :: small) ++ l :: large). apply elem_of_app. right. left. }
  assert (Hrest : Forall (in_table n) (l :: small ++ large) /\ NoDup (l :: small ++ large) /\
            s ∉ l :: small ++ large).
  { simpl in Hrange, Hnodup. rewrite Hperm in Hrange, Hnodup.
    apply Forall_cons_1 in Hrange as [_ Hrange].
    apply NoDup_cons in Hnodup as [Hnot Hnodup]. auto. }
  destruct Hrest as (Hrange' & Hnodup' & Hfresh).
  assert (Hblocks : forall sm lg, sm ++ lg ≡ₚ l :: small ++ large ->
    pairing_inv n (MkAlias
      (aset (norm_prob st) l
         (aget (of_int 0) (norm_prob st) l + aget (of_int 0) (norm_prob st) s - of_int 1)%A)
      (aset (prob st) s (Some (aget (of_int 0) (norm_prob st) s)))
      (aset (alias st) s (Some l)) sm lg)).
  { intros sm lg Hsl. constructor; simpl.
    - now rewrite length_aset.
    - now rewrite length_aset.
    - now rewrite length_aset.
    - now rewrite Hsl.
    - now rewrite Hsl.
    - intros k Hk. destruct (decide (k = s)) as [->|Hne].
      + right. exists (aget (of_int 0) (norm_prob st) s), l.
        unfold in_table, zlen in *.
        rewrite !aget_aset_eq by (unfold zlen; lia). auto.
      + destruct (Hslots k Hk) as [Hpend|(p & a & Hp & Ha & Hr)].
        * left. rewrite Hsl. simpl in Hpend. rewrite Hperm in Hpend.
          apply elem_of_cons in Hpend as [?|Hpend]; [congruence|exact Hpend].
        * right. exists p, a. rewrite !aget_aset_ne by congruence. auto.
    - intros k a. destruct (decide (k = s)) as [->|Hne].
      + unfold in_table in *. rewrite aget_aset_eq by (unfold zlen; lia).
        now intros [= <-].
      + rewrite aget_aset_ne by congruence. apply Hwritten. }
  unfold pair_step. cbv zeta.
  destruct (_ <? of_int 1)%A; apply Hblocks.
  - reflexivity.
  - symmetry. apply Permutation_middle.
Qed.

(** The pairing loop ends within one round per index in the blocks, with one
    of the blocks empty. *)
Lemma pair_blocks_ends (n fuel : nat) :
  forall st : AliasState D,
    pairing_inv n st ->
    (length (small_block st) + length (large_block st) <= fuel)%nat ->
    exists st', pair_blocks fuel st = Some st' /\ pairing_inv n st' /\
      (small_block st' = [] \/ large_block st' = []).
Proof.
  induction fuel as [|fuel IH]; intros st Hinv Hfuel.
  - exists st. destruct (small_block st) as [|s small] eqn:Hs.
    + simpl. rewrite Hs. auto.
    + simpl in Hfuel. lia.
  - destruct (small_block st) as [|s small] eqn:Hs.
    { exists st. simpl. rewrite Hs. auto. }
    destruct (large_block st) as [|l large] eqn:Hl.
    { exists st. simpl. rewrite Hs, Hl. auto. }
    simpl. rewrite Hs, Hl.
    apply IH; [now apply pair_step_inv|].
    simpl in Hfuel. unfold pair_step. cbv zeta.
    destruct (_ <? of_int 1)%A; simpl; lia.
Qed.

Lemma length_finalize (block : list Z) (p : list (option D)) :
  length (finalize block p) = length p.
Proof.
  unfold finalize. revert p.
  induction block as [|k block IH]; intros p; simpl; [reflexivity|].
  now rewrite IH, length_aset.
Qed.

Lemma finalize_out (block : list Z) (k : Z) :
  forall p : list (option D),
    k ∉ block -> aget None (finalize block p) k = aget None p k.
Proof.
  unfold finalize.
  induction block as [|b block IH]; intros p Hk; simpl; [reflexivity|].
  apply not_elem_of_cons in Hk as [Hne Hk].
  rewrite IH by exact Hk. now apply aget_aset_ne.
Qed.

Lemma finalize_in (n : nat) (block : list Z) (k : Z) :
  forall p : list (option D),
    length p = n -> Forall (in_table n) block -> k ∈ block ->
    aget None (finalize block p) k = Some (of_int 1).
Proof.
  induction block as [|b block IH]; intros p Hlen Hrange Hk.
  - now apply elem_of_nil in Hk.
  - apply Forall_cons_1 in Hrange as [Hb Hrange].
    change (finalize (b :: block) p) with (finalize block (aset p b (Some (of_int 1)))).
    destruct (decide (k ∈ block)) as [Hin|Hnin].
    + apply IH; [now rewrite length_aset|exact Hrange|exact Hin].
    + apply elem_of_cons in Hk as [->|?]; [|contradiction].
      rewrite finalize_out by exact Hnin.
      apply aget_aset_eq. unfold in_table, zlen in *. lia.
Qed.

End AliasStructure.

Section AliasTable.
Context {D : Type} `{Arith D}.

Lemma length_normalize (edge_weight : list D) :
  length (normalize edge_weight) = length edge_weight.
Proof. unfold normalize. apply length_fmap. Qed.

(** What [InitAliasTable] leaves in the tables, for every arithmetic: the
    build ends, [prob] is written everywhere, and a cell either has
    [prob = 1] or an [alias] that names a cell of the table. *)
Lemma InitAliasTable_table (fuel : nat) (edge_weight : list D) :
  (length edge_weight <= fuel)%nat ->
  exists prob alias, InitAliasTable fuel edge_weight = Some (prob, alias) /\
    length prob = length edge_weight /\ length alias = length edge_weight /\
    (forall k, in_table (length edge_weight) k ->
       aget None prob k = Some (of_int 1) \/ settled (length edge_weight) prob alias k) /\
    (forall k l, aget None alias k = Some l -> in_table (length edge_weight) l).
Proof.
  intros Hfuel. unfold InitAliasTable.
  set (n := length edge_weight).
  pose proof (pairing_inv_init (normalize edge_weight)) as Hinit.
  pose proof (classify_blocks (normalize edge_weight)) as Hperm.
  rewrite length_normalize in Hinit, Hperm. fold n in Hinit, Hperm.
  destruct (pair_blocks_ends n fuel _ Hinit) as (st & -> & Hinv & _).
  { simpl. apply Permutation_length in Hperm.
    rewrite length_app in Hperm. unfold zseq in Hperm.
    rewrite length_fmap, length_seq in Hperm. lia. }
  simpl. eexists _, _. split; [reflexivity|].
  destruct Hinv as [Hnorm Hprob Halias Hrange Hnodup Hslots Hwritten].
  apply Forall_app in Hrange as [Hsmall Hlarge].
  split; [now rewrite !length_finalize|]. split; [exact Halias|]. split; [|exact Hwritten].
  intros k Hk.
  destruct (decide (k ∈ small_block st)) as [Hs|Hns].
  { left. apply (finalize_in n); [now rewrite length_finalize|exact Hsmall|exact Hs]. }
  rewrite finalize_out by exact Hns.
  destruct (decide (k ∈ large_block st)) as [Hl|Hnl].
  { left. apply (finalize_in n); [exact Hprob|exact Hlarge|exact Hl]. }
  rewrite finalize_out by exact Hnl.
  destruct (Hslots k Hk) as [Hpend|(p & l & Hp & Ha & Hl)].
  - apply elem_of_app in Hpend as [?|?]; contradiction.
  - right. exists p, l. rewrite !finalize_out by assumption. auto.
Qed.

(** C10.  On the table [InitAliasTable] builds, a draw whose slot
    [k = (long long)(num_edges * r1)] lies in the table and whose [r2] is
    below 1 returns an edge index of the table.  A slot with [prob[k] = 1]
    (among them the slots finalized once a block is empty, whose [alias]
    is never written) returns [k] itself, so no cell that was never written
    is read; and every [alias] cell that was written holds an index of the
    table.  This holds for every arithmetic, the [double] of the source
    included. *)
Theorem SampleAnEdge_valid (fuel : nat) (edge_weight : list D) (r1 r2 : D) :
  (length edge_weight <= fuel)%nat ->
  in_table (length edge_weight) (to_int (of_int (zlen edge_weight) * r1)%A) ->
  (r2 <? of_int 1)%A = true ->
  exists prob alias, InitAliasTable fuel edge_weight = Some (prob, alias) /\
    (exists j, SampleAnEdge (zlen edge_weight) prob alias r1 r2 = Some j /\
               in_table (length edge_weight) j) /\
    (aget None prob (to_int (of_int (zlen edge_weight) * r1)%A) = Some (of_int 1) ->
       SampleAnEdge (zlen edge_weight) prob alias r1 r2
       = Some (to_int (of_int (zlen edge_weight) * r1)%A)) /\
    (forall k l, aget None alias k = Some l -> in_table (length edge_weight) l).
Proof.
  intros Hfuel Hslot Hr2.
  destruct (InitAliasTable_table fuel edge_weight Hfuel)
    as (prob & alias & Hrun & _ & _ & Hcells & Hwritten).
  exists prob, alias. split; [exact Hrun|].
  unfold SampleAnEdge. set (k := to_int _) in *.
  split; [|split; [|exact Hwritten]].
  - destruct (Hcells k Hslot) as [Hone|(p & l & Hp & Ha & Hl)].
    + rewrite Hone. simpl. rewrite Hr2. eauto.
    + rewrite Hp. simpl. destruct (r2 <? p)%A; [eauto|]. rewrite Ha. eauto.
  - intros ->. simpl. now rewrite Hr2.
Qed.

End AliasTable.

(** In exact arithmetic every [r1] of [[0, 1)] selects a slot of the table. *)
Lemma slot_in_table_exact (n : nat) (r1 : Q) :
  (0 < n)%nat -> (0 <= r1)%Q -> (r1 < 1)%Q ->
  in_table n (to_int (of_int (Z.of_nat n) * r1)%A).
Proof.
  intros Hn H0 H1. unfold in_table. simpl. unfold Q_to_int.
  destruct r1 as [a b]. unfold Qle, Qlt in *. simpl in *.
  rewrite Z.mul_1_r in H0, H1.
  assert (Hb : 0 < Z.pos b) by lia.
  rewrite Z.quot_div_nonneg by nia.
  split.
  - apply Z.div_pos; nia.
  - apply Z.div_lt_upper_bound; nia.
Qed.

(** The [double] table for the weights 1, 2, 3, 4 and the draw (0.7, 0.5). *)
Lemma SampleAnEdge_valid_witness :
  exists prob alias,
    InitAliasTable 4 [1%float; 2%float; 3%float; 4%float] = Some (prob, alias) /\
    (exists j, SampleAnEdge 4 prob alias (7 / 10)%float (1 / 2)%float = Some j /\ in_table 4 j) /\
    (aget None prob (to_int (of_int 4 * (7 / 10)%float)%A) = Some (of_int 1) ->
       SampleAnEdge 4 prob alias (7 / 10)%float (1 / 2)%float
       = Some (to_int (of_int 4 * (7 / 10)%float)%A)) /\
    (forall k l, aget None alias k = Some l -> in_table 4 l).
Proof.
  apply (SampleAnEdge_valid 4 [1%float; 2%float; 3%float; 4%float] (7 / 10)%float (1 / 2)%float).
  - simpl. lia.
  - replace (to_int _) with 2 by (vm_compute; reflexivity). unfold in_table. simpl. lia.
  - vm_compute. reflexivity.
Defined.

(** ** AliasSampler: the distribution in exact arithmetic *)

Lemma Q_ltb_lt (x y : Q) : Q_ltb x y = true <-> (x < y)%Q.
Proof.
  unfold Q_ltb. rewrite Qlt_alt. destruct (x ?= y)%Q; split; congruence.
Qed.

Lemma Q_ltb_ge (x y : Q) : Q_ltb x y = false <-> (y <= x)%Q.
Proof.
  rewrite <- not_true_iff_false, Q_ltb_lt. split.
  - apply Qnot_lt_le.
  - intros Hle Hlt. apply (Qlt_not_le _ _ Hlt Hle).
Qed.

Lemma qsum_app (f : Z -> Q) (ks ks' : list Z) :
  (qsum f (ks ++ ks') == qsum f ks + qsum f ks')%Q.
Proof.
  induction ks as [|k ks IH]; simpl; [lra|]. rewrite IH. lra.
Qed.

Lemma qsum_ext (f g : Z -> Q) (ks : list Z) :
  (forall k, k ∈ ks -> (f k == g k)%Q) -> (qsum f ks == qsum g ks)%Q.
Proof.
  induction ks as [|k ks IH]; intros Hfg; simpl; [reflexivity|].
  rewrite (Hfg k) by left. rewrite IH; [reflexivity|].
  intros k' Hk'. apply Hfg. now right.
Qed.

Lemma qsum_perm (f : Z -> Q) (ks ks' : list Z) :
  ks ≡ₚ ks' -> (qsum f ks == qsum f ks')%Q.
Proof.
  induction 1 as [|k ks ks' _ IH|k k' ks|ks ks' ks'' _ IH1 _ IH2]; simpl.
  - reflexivity.
  - rewrite IH. reflexivity.
  - lra.
  - now rewrite IH1.
Qed.

(** A sum that changes at two indices only changes by the two differences. *)
Lemma qsum_change2 (f g : Z -> Q) (a b : Z) (ks : list Z) :
  NoDup ks -> a ∈ ks -> b ∈ ks -> a <> b ->
  (forall k, k ∈ ks -> k <> a -> k <> b -> (f k == g k)%Q) ->
  (qsum g ks == qsum f ks + (g a - f a) + (g b - f b))%Q.
Proof.
  intros Hnd Ha Hb Hab Hsame.
  assert (Hone : forall (c : Z) (ks : list Z), NoDup ks ->
    (qsum (fun k => if decide (k = c) then g k - f k else 0) ks
     == if decide (c ∈ ks) then g c - f c else 0)%Q).
  { intros c. induction ks0 as [|k ks0 IH]; intros Hnd0; cbn [qsum].
    - case_decide as Hc; [now apply elem_of_nil in Hc|reflexivity].
    - apply NoDup_cons in Hnd0 as [Hk Hnd0]. rewrite (IH Hnd0).
      destruct (decide (k = c)) as [->|Hne]; destruct (decide (c ∈ ks0)) as [Hin|Hnin];
        try contradiction.
      + rewrite (decide_True (P := c ∈ c :: ks0)) by left. lra.
      + rewrite (decide_True (P := c ∈ k :: ks0)) by now right. lra.
      + rewrite (decide_False (P := c ∈ k :: ks0)); [lra|].
        apply not_elem_of_cons. split; [congruence|exact Hnin]. }
  assert (Hsplit : forall ks0, (forall k, k ∈ ks0 -> k ∈ ks) ->
    (qsum g ks0 == qsum f ks0
       + qsum (fun k => if decide (k = a) then g k - f k else 0) ks0
       + qsum (fun k => if decide (k = b) then g k - f k else 0) ks0)%Q).
  { induction ks0 as [|k ks0 IH]; intros Hsub; simpl; [lra|].
    rewrite IH by (intros k' Hk'; apply Hsub; now right).
    destruct (decide (k = a)) as [Ha'|Hna]; destruct (decide (k = b)) as [Hb'|Hnb].
    - congruence.
    - lra.
    - lra.
    - rewrite (Hsame k); [lra| |exact Hna|exact Hnb]. apply Hsub. left. }
  rewrite (Hsplit ks) by auto. rewrite !Hone by exact Hnd.
  rewrite !decide_True by assumption. lra.
Qed.

Lemma qsum_ind (f : Z -> Q) (j : Z) (ks : list Z) :
  NoDup ks -> j ∈ ks -> (qsum (fun k => ind (k = j) * f k) ks == f j)%Q.
Proof.
  intros Hnd Hj.
  induction ks as [|k ks IH]; [now apply elem_of_nil in Hj|].
  apply NoDup_cons in Hnd as [Hk Hnd]. simpl. unfold ind at 1.
  destruct (decide (k = j)) as [->|Hne].
  - assert (Hzero : (qsum (fun k => ind (k = j) * f k) ks == 0)%Q).
    { clear IH Hj Hnd. induction ks as [|k' ks IH]; simpl; [reflexivity|].
      apply not_elem_of_cons in Hk as [Hne Hk]. rewrite (IH Hk).
      unfold ind. rewrite decide_False by congruence. lra. }
    rewrite Hzero. lra.
  - apply elem_of_cons in Hj as [?|Hj]; [congruence|]. rewrite (IH Hnd Hj). lra.
Qed.

Lemma qsum_lower (f : Z -> Q) (ks : list Z) :
  (forall k, k ∈ ks -> (1 <= f k)%Q) -> (inject_Z (zlen ks) <= qsum f ks)%Q.
Proof.
  induction ks as [|k ks IH]; intros Hf; simpl.
  - change (inject_Z (zlen [])) with 0%Q. lra.
  - unfold zlen in *. simpl length. rewrite Nat2Z.inj_succ, <- Z.add_1_r, inject_Z_plus.
    specialize (Hf k ltac:(left)) as Hk.
    assert ((inject_Z (Z.of_nat (length ks)) <= qsum f ks)%Q).
    { apply IH. intros k' Hk'. apply Hf. now right. }
    change (inject_Z 1) with 1%Q. lra.
Qed.

(** Weights that are all at least 1 and sum to their number are all 1. *)
Lemma qsum_tight (f : Z -> Q) (ks : list Z) :
  (forall k, k ∈ ks -> (1 <= f k)%Q) -> (qsum f ks == inject_Z (zlen ks))%Q ->
  forall k, k ∈ ks -> (f k == 1)%Q.
Proof.
  induction ks as [|k0 ks IH]; intros Hf Hsum k Hk; [now apply elem_of_nil in Hk|].
  simpl in Hsum. unfold zlen in *. simpl length in Hsum.
  rewrite Nat2Z.inj_succ, <- Z.add_1_r, inject_Z_plus in Hsum. change (inject_Z 1) with 1%Q in Hsum.
  pose proof (Hf k0 ltac:(left)) as Hk0.
  pose proof (qsum_lower f ks ltac:(intros k' Hk'; apply Hf; now right)) as Hlow.
  unfold zlen in Hlow.
  apply elem_of_cons in Hk as [->|Hk].
  - lra.
  - apply IH; [intros k' Hk'; apply Hf; now right|lra|exact Hk].
Qed.

(** Weights that are all below 1 cannot sum to their number. *)
Lemma qsum_slack (f : Z -> Q) (ks : list Z) :
  (forall k, k ∈ ks -> (f k < 1)%Q) -> (qsum f ks == inject_Z (zlen ks))%Q -> ks = [].
Proof.
  intros Hf Hsum. destruct ks as [|k0 ks]; [reflexivity|exfalso].
  assert (Hup : forall ks', (forall k, k ∈ ks' -> (f k < 1)%Q) ->
            (qsum f ks' <= inject_Z (zlen ks'))%Q).
  { induction ks' as [|k ks' IH]; intros Hf'; simpl.
    - change (inject_Z (zlen [])) with 0%Q. lra.
    - unfold zlen in *. simpl length.
      rewrite Nat2Z.inj_succ, <- Z.add_1_r, inject_Z_plus. change (inject_Z 1) with 1%Q.
      pose proof (Hf' k ltac:(left)).
      assert ((qsum f ks' <= inject_Z (Z.of_nat (length ks')))%Q).
      { apply IH. intros k' Hk'. apply Hf'. now right. }
      lra. }
  simpl in Hsum. unfold zlen in *. simpl length in Hsum.
  rewrite Nat2Z.inj_succ, <- Z.add_1_r, inject_Z_plus in Hsum. change (inject_Z 1) with 1%Q in Hsum.
  pose proof (Hf k0 ltac:(left)).
  pose proof (Hup ks ltac:(intros k' Hk'; apply Hf; now right)). lra.
Qed.

Lemma pair_step_Q (st : AliasState Q) (s l : Z) (small large : list Z) :
  pair_step st s l small large =
  MkAlias (aset (norm_prob st) l (norm_at st l + norm_at st s - 1)%Q)
          (aset (prob st) s (Some (norm_at st s)))
          (aset (alias st) s (Some l))
          (if Q_ltb (norm_at st l + norm_at st s - 1)%Q 1 then l :: small else small)
          (if Q_ltb (norm_at st l + norm_at st s - 1)%Q 1 then large else l :: large).
Proof.
  unfold pair_step, norm_at. cbn.
  change (inject_Z 0) with 0%Q. change (inject_Z 1) with 1%Q.
  destruct (Q_ltb _ 1); reflexivity.
Qed.

Lemma prob_at_aset_eq (prob : list (option Q)) (k : Z) (p : Q) :
  0 <= k < zlen prob -> prob_at (aset prob k (Some p)) k = p.
Proof. intros Hk. unfold prob_at. now rewrite aget_aset_eq. Qed.

Lemma prob_at_aset_ne (prob : list (option Q)) (k k' : Z) (p : option Q) :
  k <> k' -> prob_at (aset prob k p) k' = prob_at prob k'.
Proof. intros Hk. unfold prob_at. now rewrite aget_aset_ne. Qed.

Lemma ind_Some (l j : Z) : ind (Some l = Some j) = ind (l = j).
Proof.
  unfold ind. destruct (decide (l = j)) as [->|Hne].
  - now rewrite decide_True.
  - rewrite decide_False; [reflexivity|]. intros [= ?]. contradiction.
Qed.

(** One round of the pairing loop keeps the numeric invariant. *)
Lemma pair_step_exact (p0 : list Q) (st : AliasState Q) (s l : Z) (small large : list Z) :
  pairing_inv (length p0) st -> exact_inv p0 st ->
  small_block st = s :: small -> large_block st = l :: large ->
  exact_inv p0 (pair_step st s l small large).
Proof.
  intros Hstruct Hexact Hs Hl.
  destruct Hstruct as [Hnorm Hprob Halias Hrange Hnodup Hslots Hwritten].
  destruct Hexact as [Hsmall Hlarge Hnonneg Hsettled Htotal Hmass].
  rewrite Hs, Hl in *.
  assert (Hperm : (s :: small) ++ l :: large ≡ₚ s :: l :: small ++ large).
  { simpl. now rewrite <- Permutation_middle. }
  rewrite Hperm in Hrange, Hnodup.
  apply Forall_cons_1 in Hrange as [Hsr Hrange].
  apply Forall_cons_1 in Hrange as [Hlr Hrange].
  apply NoDup_cons in Hnodup as [Hs_fresh Hnodup].
  apply NoDup_cons in Hnodup as [Hl_fresh Hnodup].
  assert (Hsl : s <> l). { intros ->. apply Hs_fresh. left. }
  pose proof (Hsmall s ltac:(left)) as Hps.
  pose proof (Hlarge l ltac:(left)) as Hpl.
  pose proof (Hnonneg s ltac:(left)) as Hps0.
  set (ps := norm_at st s) in *. set (pl := norm_at st l) in *.
  rewrite pair_step_Q. fold ps. fold pl.
  set (v := (pl + ps - 1)%Q).
  set (sm := if Q_ltb v 1 then l :: small else small).
  set (lg := if Q_ltb v 1 then large else l :: large).
  set (st' := MkAlias _ _ _ sm lg).
  assert (Hblocks : sm ++ lg ≡ₚ l :: small ++ large).
  { unfold sm, lg. destruct (Q_ltb v 1); [reflexivity|]. symmetry. apply Permutation_middle. }
  assert (Hnorm_l : norm_at st' l = v).
  { unfold norm_at, st'. simpl. apply aget_aset_eq. unfold in_table, zlen in *. lia. }
  assert (Hnorm_ne : forall k, k <> l -> norm_at st' k = norm_at st k).
  { intros k Hk. unfold norm_at, st'. simpl. apply aget_aset_ne. congruence. }
  assert (Hpend : forall k, k ∈ sm ++ lg <-> k <> s /\ k ∈ (s :: small) ++ l :: large).
  { intros k. rewrite Hblocks, Hperm. rewrite !elem_of_cons. split.
    - intros [->|Hk]; [split; [congruence|auto]|].
      split; [|auto]. intros ->. apply Hs_fresh. now right.
    - intros [Hne [?|[?|?]]]; [contradiction|auto|auto]. }
  assert (Hrest_ne : forall k, k ∈ small ++ large -> k <> l /\ k <> s).
  { intros k Hk. split; intros ->; [contradiction|]. apply Hs_fresh. now right. }
  constructor.
  - (* small *)
    intros k Hk. change (small_block st') with sm in Hk. unfold sm in Hk.
    destruct (Q_ltb v 1) eqn:Hv.
    + apply elem_of_cons in Hk as [->|Hk].
      * rewrite Hnorm_l. now apply Q_ltb_lt.
      * rewrite Hnorm_ne; [apply Hsmall; now right|].
        apply (Hrest_ne k). apply elem_of_app. now left.
    + rewrite Hnorm_ne; [apply Hsmall; now right|].
      apply (Hrest_ne k). apply elem_of_app. now left.
  - (* large *)
    intros k Hk. change (large_block st') with lg in Hk. unfold lg in Hk.
    destruct (Q_ltb v 1) eqn:Hv.
    + rewrite Hnorm_ne; [apply Hlarge; now right|].
      apply (Hrest_ne k). apply elem_of_app. now right.
    + apply elem_of_cons in Hk as [->|Hk].
      * rewrite Hnorm_l. now apply Q_ltb_ge.
      * rewrite Hnorm_ne; [apply Hlarge; now right|].
        apply (Hrest_ne k). apply elem_of_app. now right.
  - (* nonneg *)
    intros k Hk. change (k ∈ sm ++ lg) in Hk. rewrite Hblocks in Hk.
    apply elem_of_cons in Hk as [->|Hk].
    + rewrite Hnorm_l. unfold v. lra.
    + rewrite Hnorm_ne by apply (Hrest_ne k Hk). apply Hnonneg.
      rewrite Hperm. right. now right.
  - (* settled *)
    intros k Hk Hnot. change (k ∉ sm ++ lg) in Hnot. simpl.
    destruct (decide (k = s)) as [->|Hne].
    + rewrite prob_at_aset_eq by (unfold in_table, zlen in *; lia). lra.
    + rewrite prob_at_aset_ne by congruence. apply Hsettled; [exact Hk|].
      intros Hin. apply Hnot. apply Hpend. auto.
  - (* total *)
    change (qsum (norm_at st') (sm ++ lg) == inject_Z (zlen (sm ++ lg)))%Q.
    rewrite (qsum_perm _ _ _ Hblocks). rewrite (qsum_perm _ _ _ Hperm) in Htotal.
    unfold zlen in *. rewrite (Permutation_length Hblocks).
    rewrite (Permutation_length Hperm) in Htotal.
    simpl in Htotal |- *. rewrite Hnorm_l.
    rewrite (qsum_ext (norm_at st') (norm_at st) (small ++ large)).
    2:{ intros k Hk. rewrite Hnorm_ne by apply (Hrest_ne k Hk). reflexivity. }
    fold ps pl in Htotal.
    rewrite !Nat2Z.inj_succ, <- !Z.add_1_r, !inject_Z_plus in Htotal.
    rewrite Nat2Z.inj_succ, <- Z.add_1_r, inject_Z_plus.
    change (inject_Z 1) with 1%Q in *. unfold v. lra.
  - (* mass *)
    intros j Hj. rewrite <- (Hmass j Hj).
    rewrite (qsum_change2 (pending_share st j) (pending_share st' j) s l);
      [|apply NoDup_zseq|now apply elem_of_zseq|now apply elem_of_zseq|exact Hsl|].
    + assert (Hs' : (pending_share st' j s == ind (s = j) * ps + ind (l = j) * (1 - ps))%Q).
      { unfold pending_share. rewrite decide_False.
        2:{ change (s ∉ sm ++ lg). rewrite Hpend. tauto. }
        unfold share, st'. simpl.
        rewrite prob_at_aset_eq by (unfold in_table, zlen in *; lia).
        rewrite aget_aset_eq by (unfold in_table, zlen in *; lia).
        rewrite ind_Some. reflexivity. }
      assert (Hs0 : (pending_share st j s == ind (s = j) * ps)%Q).
      { unfold pending_share. rewrite decide_True; [reflexivity|]. rewrite Hs. left. }
      assert (Hl' : (pending_share st' j l == ind (l = j) * v)%Q).
      { unfold pending_share. rewrite decide_True.
        2:{ change (l ∈ sm ++ lg). rewrite Hblocks. left. }
        now rewrite Hnorm_l. }
      assert (Hl0 : (pending_share st j l == ind (l = j) * pl)%Q).
      { unfold pending_share. rewrite decide_True; [reflexivity|].
        rewrite Hs, Hl, Hperm. right. left. }
      rewrite Hs', Hs0, Hl', Hl0. unfold v. ring.
    + intros k Hk Hks Hkl. unfold pending_share.
      change (small_block st' ++ large_block st') with (sm ++ lg). rewrite Hs, Hl.
      destruct (decide (k ∈ (s :: small) ++ l :: large)) as [Hin|Hnin].
      * rewrite decide_True by (apply Hpend; auto).
        now rewrite Hnorm_ne.
      * rewrite decide_False by (rewrite Hpend; tauto).
        unfold share, st'. simpl.
        rewrite !prob_at_aset_ne by congruence.
        rewrite aget_aset_ne by congruence. reflexivity.
Qed.

Lemma classify_sides {D} `{Arith D} (norm : list D) (ks : list Z) (acc : list Z * list Z) :
  Forall (fun k => (aget (of_int 0) norm k <? of_int 1)%A = true) acc.1 ->
  Forall (fun k => (aget (of_int 0) norm k <? of_int 1)%A = false) acc.2 ->
  Forall (fun k => (aget (of_int 0) norm k <? of_int 1)%A = true)
         (fold_left (classify_step norm) ks acc).1 /\
  Forall (fun k => (aget (of_int 0) norm k <? of_int 1)%A = false)
         (fold_left (classify_step norm) ks acc).2.
Proof.
  revert acc. induction ks as [|k ks IH]; intros [small large] Hs Hl; simpl in *; [auto|].
  apply IH; unfold classify_step; simpl;
    destruct (aget (of_int 0) norm k <? of_int 1)%A eqn:Hk; simpl; auto.
Qed.

Lemma weight_sum_Q (w : list Q) : (weight_sum w == Qsum_list w)%Q.
Proof.
  unfold weight_sum. change (of_int 0) with 0%Q.
  assert (Hgen : forall acc, (fold_left add w acc == acc + Qsum_list w)%Q).
  { induction w as [|x w IH]; intros acc; simpl; [lra|]. rewrite IH. simpl. lra. }
  rewrite Hgen. lra.
Qed.

Lemma Qsum_list_pos (w : list Q) :
  w <> [] -> Forall (fun x => (0 < x)%Q) w -> (0 < Qsum_list w)%Q.
Proof.
  intros Hne Hpos. destruct w as [|x w]; [contradiction|].
  apply Forall_cons_1 in Hpos as [Hx Hpos]. simpl.
  assert ((0 <= Qsum_list w)%Q).
  { clear Hne. induction w as [|y w IH]; simpl; [lra|].
    apply Forall_cons_1 in Hpos as [Hy Hpos]. specialize (IH Hpos). lra. }
  lra.
Qed.

Lemma qsum_fmap (f : Z -> Q) (g : Z -> Z) (ks : list Z) :
  qsum f (g <$> ks) = qsum (fun k => f (g k)) ks.
Proof.
  induction ks as [|k ks IH]; [reflexivity|].
  rewrite fmap_cons. cbn [qsum]. now rewrite IH.
Qed.

Lemma zseq_S (n : nat) : zseq (S n) = 0 :: (Z.succ <$> zseq n).
Proof.
  unfold zseq. simpl. f_equal. rewrite <- seq_shift, <- !list_fmap_compose.
  apply list_fmap_ext. intros i x _. simpl. lia.
Qed.

Lemma qsum_aget (l : list Q) : (qsum (aget 0%Q l) (zseq (length l)) == Qsum_list l)%Q.
Proof.
  induction l as [|x l IH]; simpl length; [reflexivity|].
  rewrite zseq_S. cbn [qsum]. rewrite qsum_fmap.
  change (aget 0%Q (x :: l) 0) with x.
  rewrite (qsum_ext _ (aget 0%Q l)).
  - rewrite IH. reflexivity.
  - intros k Hk. apply elem_of_zseq in Hk. unfold in_table in Hk. unfold aget.
    rewrite !decide_True by lia. rewrite Z2Nat.inj_succ by lia. reflexivity.
Qed.

Lemma Qsum_list_normalize (w : list Q) :
  (0 < Qsum_list w)%Q -> (Qsum_list (normalize w) == inject_Z (zlen w))%Q.
Proof.
  intros Hpos. unfold normalize. cbn. change (@of_int Q Q_arith) with inject_Z.
  set (c := inject_Z (zlen w)).
  pose proof (weight_sum_Q w) as HS. set (S := weight_sum w) in *.
  assert (Hgen : forall l, (Qsum_list ((fun x => x * c / S) <$> l) == Qsum_list l * c / S)%Q).
  { induction l as [|x l IH]; simpl.
    - field. lra.
    - rewrite IH. field. lra. }
  rewrite Hgen, <- HS. field. lra.
Qed.

Lemma normalize_nonneg (w : list Q) (k : Z) :
  (0 < Qsum_list w)%Q -> Forall (fun x => (0 < x)%Q) w ->
  (0 <= aget 0%Q (normalize w) k)%Q.
Proof.
  intros Hpos Hw. unfold aget. destruct (decide (0 <= k)); [|lra].
  unfold normalize. rewrite list_lookup_fmap.
  destruct (w !! Z.to_nat k) as [x|] eqn:Hx; simpl; [|lra].
  apply (Forall_lookup_1 _ _ _ _ Hw) in Hx.
  pose proof (weight_sum_Q w) as HS. change (@of_int Q Q_arith) with inject_Z.
  assert (Hn : (0 <= inject_Z (zlen w))%Q).
  { unfold zlen. rewrite <- (Zle_Qle 0). lia. }
  apply Qle_shift_div_l; [lra|]. rewrite Qmult_0_l.
  apply Qmult_le_0_compat; lra.
Qed.

Lemma exact_inv_init (w : list Q) :
  w <> [] -> Forall (fun x => (0 < x)%Q) w ->
  exact_inv (normalize w)
    (MkAlias (normalize w) (replicate (length (normalize w)) None)
       (replicate (length (normalize w)) None)
       (classify (normalize w)).1 (classify (normalize w)).2).
Proof.
  intros Hne Hw.
  pose proof (Qsum_list_pos w Hne Hw) as Hpos.
  pose proof (classify_blocks (normalize w)) as Hperm.
  destruct (classify_sides (normalize w) (rev (zseq (length (normalize w)))) ([], []))
    as [Hsmall Hlarge]; [constructor|constructor|].
  fold (classify (normalize w)) in Hsmall, Hlarge.
  constructor; simpl.
  - intros k Hk. apply (proj1 (Forall_forall _ _) Hsmall) in Hk.
    now apply Q_ltb_lt in Hk.
  - intros k Hk. apply (proj1 (Forall_forall _ _) Hlarge) in Hk.
    now apply Q_ltb_ge in Hk.
  - intros k _. now apply normalize_nonneg.
  - intros k Hk Hnot. exfalso. apply Hnot. rewrite Hperm. now apply elem_of_zseq.
  - rewrite (qsum_perm _ _ _ Hperm). unfold zlen. rewrite (Permutation_length Hperm).
    unfold norm_at. simpl. rewrite qsum_aget.
    rewrite Qsum_list_normalize by exact Hpos.
    unfold zseq. rewrite length_fmap, length_seq, length_normalize. reflexivity.
  - intros j Hj. rewrite (qsum_ext _ (fun k => ind (k = j) * aget 0%Q (normalize w) k)%Q).
    + apply qsum_ind; [apply NoDup_zseq|now apply elem_of_zseq].
    + intros k Hk. unfold pending_share. simpl. rewrite decide_True; [reflexivity|].
      now rewrite Hperm.
Qed.

(** The pairing loop in exact arithmetic: it ends, with both invariants. *)
Lemma pair_blocks_exact (p0 : list Q) (fuel : nat) :
  forall st : AliasState Q,
    pairing_inv (length p0) st -> exact_inv p0 st ->
    (length (small_block st) + length (large_block st) <= fuel)%nat ->
    exists st', pair_blocks fuel st = Some st' /\ pairing_inv (length p0) st' /\
      exact_inv p0 st' /\ (small_block st' = [] \/ large_block st' = []).
Proof.
  induction fuel as [|fuel IH]; intros st Hinv Hex Hfuel.
  - exists st. destruct (small_block st) as [|s small] eqn:Hs.
    + simpl. rewrite Hs. auto.
    + simpl in Hfuel. lia.
  - destruct (small_block st) as [|s small] eqn:Hs.
    { exists st. simpl. rewrite Hs. auto. }
    destruct (large_block st) as [|l large] eqn:Hl.
    { exists st. simpl. rewrite Hs, Hl. auto. }
    simpl. rewrite Hs, Hl.
    apply IH; [now apply pair_step_inv|now apply pair_step_exact|].
    simpl in Hfuel. rewrite pair_step_Q. simpl.
    destruct (Q_ltb _ 1); simpl; lia.
Qed.

(** The finished table in exact arithmetic: every [prob] is a probability,
    and the shares of the slots in the answer [j] add up to the normalized
    weight of [j]. *)
Lemma InitAliasTable_exact (fuel : nat) (w : list Q) :
  w <> [] -> Forall (fun x => (0 < x)%Q) w -> (length w <= fuel)%nat ->
  exists prob alias, InitAliasTable fuel w = Some (prob, alias) /\
    (forall k, in_table (length w) k ->
       exists p, aget None prob k = Some p /\ (0 <= p /\ p <= 1)%Q) /\
    (forall j, in_table (length w) j ->
       (qsum (share prob alias j) (zseq (length w)) == aget 0%Q (normalize w) j)%Q).
Proof.
  intros Hne Hw Hfuel. unfold InitAliasTable.
  pose proof (pairing_inv_init (normalize w)) as Hinit.
  pose proof (exact_inv_init w Hne Hw) as Hexact.
  pose proof (classify_blocks (normalize w)) as Hperm.
  rewrite length_normalize in Hinit, Hexact, Hperm.
  destruct (pair_blocks_exact (normalize w) fuel _
              ltac:(rewrite length_normalize; exact Hinit) Hexact)
    as (st & -> & Hinv & Hex & Hempty).
  { simpl. apply Permutation_length in Hperm.
    rewrite length_app in Hperm. unfold zseq in Hperm.
    rewrite length_fmap, length_seq in Hperm. lia. }
  rewrite length_normalize in Hinv. simpl.
  destruct Hinv as [Hnorm Hprob Halias Hrange Hnodup Hslots Hwritten].
  destruct Hex as [Hsmall Hlarge Hnonneg Hsettled Htotal Hmass].
  rewrite length_normalize in Hsettled, Hmass.
  pose proof Hrange as Hrange'. apply Forall_app in Hrange' as [Hrs Hrl].
  (* what is left in the blocks weighs exactly 1 *)
  assert (Hone : forall k, k ∈ small_block st ++ large_block st -> (norm_at st k == 1)%Q).
  { destruct Hempty as [He|He]; rewrite He in *; simpl in *.
    - apply qsum_tight; assumption.
    - rewrite app_nil_r in *.
      rewrite (qsum_slack (norm_at st) (small_block st) Hsmall Htotal).
      intros k Hk. now apply elem_of_nil in Hk. }
  set (prob' := finalize (small_block st) (finalize (large_block st) (prob st))).
  assert (Hpend : forall k, k ∈ small_block st ++ large_block st ->
            aget None prob' k = Some (of_int 1)).
  { intros k Hk. unfold prob'. apply elem_of_app in Hk.
    destruct (decide (k ∈ small_block st)) as [Hs|Hns].
    - apply (finalize_in (length w)); [now rewrite length_finalize|exact Hrs|exact Hs].
    - rewrite finalize_out by exact Hns. destruct Hk as [?|Hl]; [contradiction|].
      apply (finalize_in (length w)); [exact Hprob|exact Hrl|exact Hl]. }
  assert (Hkeep : forall k, k ∉ small_block st ++ large_block st ->
            aget None prob' k = aget None (prob st) k).
  { intros k Hk. apply not_elem_of_app in Hk as [Hns Hnl].
    unfold prob'. now rewrite !finalize_out. }
  eexists _, _. split; [reflexivity|]. fold prob'. split.
  - intros k Hk. destruct (decide (k ∈ small_block st ++ large_block st)) as [Hin|Hnin].
    + exists 1%Q. split; [now apply Hpend|lra].
    + rewrite (Hkeep k Hnin).
      destruct (Hslots k Hk) as [?|(p & l & Hp & _)]; [contradiction|].
      exists p. split; [exact Hp|].
      pose proof (Hsettled k Hk Hnin) as Hb. unfold prob_at in Hb.
      now rewrite Hp in Hb.
  - intros j Hj. rewrite <- (Hmass j Hj). apply qsum_ext. intros k Hk.
    unfold pending_share, share, prob_at.
    destruct (decide (k ∈ small_block st ++ large_block st)) as [Hin|Hnin].
    + rewrite (Hpend k Hin), (Hone k Hin). simpl. ring.
    + rewrite (Hkeep k Hnin). reflexivity.
Qed.

(** *** Measure of the outcome regions *)

Lemma measure_app (a b : list rect) : (measure (a ++ b) == measure a + measure b)%Q.
Proof. induction a as [|r a IH]; simpl; [lra|]. rewrite IH. lra. Qed.

Lemma measure_flat_map (f : Z -> list rect) (ks : list Z) :
  (measure (flat_map f ks) == qsum (fun k => measure (f k)) ks)%Q.
Proof.
  induction ks as [|k ks IH]; simpl; [reflexivity|].
  rewrite measure_app, IH. reflexivity.
Qed.

Lemma qsum_scale (f : Z -> Q) (c : Q) (ks : list Z) :
  ~ (c == 0)%Q -> (qsum (fun k => f k / c) ks == qsum f ks / c)%Q.
Proof.
  intros Hc. induction ks as [|k ks IH]; simpl.
  - field. exact Hc.
  - rewrite IH. field. exact Hc.
Qed.

Lemma measure_slot (n : Z) (prob : list (option Q)) (alias : list (option Z)) (j k : Z) :
  0 < n ->
  (measure (slot_rects n prob alias j k) == share prob alias j k / inject_Z n)%Q.
Proof.
  intros Hn. assert (Hn' : ~ (inject_Z n == 0)%Q).
  { intros E. apply (inject_Z_injective n 0) in E. lia. }
  unfold slot_rects, share, ind. rewrite measure_app.
  rewrite inject_Z_plus. change (inject_Z 1) with 1%Q.
  destruct (decide (k = j)); destruct (decide (aget None alias k = Some j));
    simpl; unfold area; simpl; field; exact Hn'.
Qed.

Lemma aget_normalize (w : list Q) (j : Z) :
  in_table (length w) j ->
  aget 0%Q (normalize w) j = (aget 0%Q w j * inject_Z (zlen w) / weight_sum w)%Q.
Proof.
  intros Hj. unfold in_table in Hj. unfold aget, normalize.
  rewrite !decide_True by lia. rewrite list_lookup_fmap.
  destruct (lookup_lt_is_Some_2 w (Z.to_nat j)) as [x ->]; [lia|]. reflexivity.
Qed.

(** *** The draws that select a slot *)

Lemma Q_to_int_floor (q : Q) : (0 <= q)%Q -> Q_to_int q = Qfloor q.
Proof.
  intros Hq. unfold Q_to_int. destruct q as [a b]. simpl.
  unfold Qle in Hq. simpl in Hq. apply Z.quot_div_nonneg; lia.
Qed.

Lemma Qfloor_unique (q : Q) (k : Z) :
  (inject_Z k <= q)%Q -> (q < inject_Z (k + 1))%Q -> Qfloor q = k.
Proof.
  intros Hlo Hhi.
  pose proof (Qfloor_le q) as H1. pose proof (Qlt_floor q) as H2.
  assert (H3 : (inject_Z (Qfloor q) < inject_Z (k + 1))%Q) by lra.
  assert (H4 : (inject_Z k < inject_Z (Qfloor q + 1))%Q) by lra.
  rewrite <- Zlt_Qlt in H3, H4. lia.
Qed.

Lemma Qdiv_le_iff (a b c : Q) : (0 < b)%Q -> (a / b <= c <-> a <= c * b)%Q.
Proof.
  intros Hb. rewrite <- (Qmult_le_r (a / b) c b Hb).
  assert (E : (a / b * b == a)%Q) by (field; lra). now rewrite E.
Qed.

Lemma Qdiv_gt_iff (a b c : Q) : (0 < b)%Q -> (c < a / b <-> c * b < a)%Q.
Proof.
  intros Hb. rewrite <- (Qmult_lt_r c (a / b) b Hb).
  assert (E : (a / b * b == a)%Q) by (field; lra). now rewrite E.
Qed.

Lemma slot_of_draw (n k : Z) (r1 : Q) :
  0 < n -> 0 <= k ->
  (inject_Z k / inject_Z n <= r1)%Q -> (r1 < inject_Z (k + 1) / inject_Z n)%Q ->
  to_int (of_int n * r1)%A = k.
Proof.
  intros Hn Hk Hlo Hhi. cbn. change (@of_int Q Q_arith) with inject_Z.
  assert (Hn' : (0 < inject_Z n)%Q) by (rewrite <- (Zlt_Qlt 0); lia).
  assert (Hk' : (0 <= inject_Z k)%Q) by (rewrite <- (Zle_Qle 0); lia).
  assert (Hlo' : (inject_Z k <= inject_Z n * r1)%Q).
  { apply Qdiv_le_iff in Hlo; [|exact Hn']. lra. }
  assert (Hhi' : (inject_Z n * r1 < inject_Z (k + 1))%Q).
  { apply Qdiv_gt_iff in Hhi; [|exact Hn']. lra. }
  rewrite Q_to_int_floor by lra. now apply Qfloor_unique.
Qed.

Lemma draw_in_slot (n : Z) (r1 : Q) :
  0 < n -> (0 <= r1)%Q ->
  (inject_Z (to_int (of_int n * r1)%A) / inject_Z n <= r1)%Q /\
  (r1 < inject_Z (to_int (of_int n * r1)%A + 1) / inject_Z n)%Q.
Proof.
  intros Hn Hr. cbn. change (@of_int Q Q_arith) with inject_Z.
  assert (Hn' : (0 < inject_Z n)%Q) by (rewrite <- (Zlt_Qlt 0); lia).
  assert (Hq : (0 <= inject_Z n * r1)%Q) by (apply Qmult_le_0_compat; lra).
  rewrite Q_to_int_floor by exact Hq.
  pose proof (Qfloor_le (inject_Z n * r1)) as H1.
  pose proof (Qlt_floor (inject_Z n * r1)) as H2.
  split.
  - apply Qdiv_le_iff; [exact Hn'|lra].
  - apply Qdiv_gt_iff; [exact Hn'|lra].
Qed.

Lemma elem_of_slot_rects (n : Z) (prob : list (option Q)) (alias : list (option Z))
    (j k : Z) (r : rect) :
  r ∈ slot_rects n prob alias j k <->
  (k = j /\ r = MkRect (inject_Z k / inject_Z n) (inject_Z (k + 1) / inject_Z n)
                       0 (prob_at prob k)) \/
  (aget None alias k = Some j /\
   r = MkRect (inject_Z k / inject_Z n) (inject_Z (k + 1) / inject_Z n)
              (prob_at prob k) 1).
Proof.
  unfold slot_rects. rewrite elem_of_app.
  destruct (decide (k = j)) as [Hk|Hk];
    destruct (decide (aget None alias k = Some j)) as [Ha|Ha];
    rewrite ?list_elem_of_singleton, ?elem_of_nil; tauto.
Qed.

Lemma elem_of_outcome_region (n : nat) (prob : list (option Q)) (alias : list (option Z))
    (j : Z) (r : rect) :
  r ∈ outcome_region n prob alias j <->
  exists k, in_table n k /\ r ∈ slot_rects (Z.of_nat n) prob alias j k.
Proof.
  unfold outcome_region. rewrite list_elem_of_In, in_flat_map. split.
  - intros (k & Hk & Hr). exists k. rewrite <- elem_of_zseq, !list_elem_of_In. auto.
  - intros (k & Hk & Hr). exists k. rewrite <- elem_of_zseq, !list_elem_of_In in *. auto.
Qed.

(** The draws on which [SampleAnEdge] answers [j] are those of the region. *)
Lemma SampleAnEdge_region (n : nat) (prob : list (option Q)) (alias : list (option Z))
    (j : Z) (r1 r2 : Q) :
  (0 < n)%nat ->
  (forall k, in_table n k -> exists p, aget None prob k = Some p) ->
  (0 <= r1)%Q -> (r1 < 1)%Q -> (0 <= r2)%Q -> (r2 < 1)%Q ->
  SampleAnEdge (Z.of_nat n) prob alias r1 r2 = Some j <->
  exists r, r ∈ outcome_region n prob alias j /\ in_rect r r1 r2.
Proof.
  intros Hn Hprob Hr1 Hr1' Hr2 Hr2'.
  pose proof (slot_in_table_exact n r1 Hn Hr1 Hr1') as Hslot.
  destruct (draw_in_slot (Z.of_nat n) r1 ltac:(lia) Hr1) as [Hlo Hhi].
  unfold SampleAnEdge. set (k := to_int _) in *.
  destruct (Hprob k Hslot) as [p Hp]. rewrite Hp. simpl.
  assert (Hpk : prob_at prob k = p). { unfold prob_at. now rewrite Hp. }
  split.
  - intros Hsample. destruct (Q_ltb r2 p) eqn:Hlt.
    + injection Hsample as <-. apply Q_ltb_lt in Hlt.
      eexists. split.
      * apply elem_of_outcome_region. exists k. split; [exact Hslot|].
        apply elem_of_slot_rects. left. split; reflexivity.
      * unfold in_rect. simpl. rewrite Hpk. auto.
    + apply Q_ltb_ge in Hlt. eexists. split.
      * apply elem_of_outcome_region. exists k. split; [exact Hslot|].
        apply elem_of_slot_rects. right. split; [exact Hsample|reflexivity].
      * unfold in_rect. simpl. rewrite Hpk. auto.
  - intros (r & Hr & Hin). apply elem_of_outcome_region in Hr as (k' & Hk' & Hr).
    unfold in_table in Hk'.
    apply elem_of_slot_rects in Hr as [[Hj ->]|[Ha ->]];
      destruct Hin as (Hx0 & Hx1 & Hy0 & Hy1); simpl in *.
    + assert (k = k') as <- by (apply slot_of_draw; [lia|lia|assumption|assumption]).
      rewrite Hpk in Hy1. apply Q_ltb_lt in Hy1. rewrite Hy1. now subst j.
    + assert (k = k') as <- by (apply slot_of_draw; [lia|lia|assumption|assumption]).
      rewrite Hpk in Hy0. apply Q_ltb_ge in Hy0. now rewrite Hy0.
Qed.

Lemma pairwise_app (a b : list rect) :
  pairwise_disjoint a -> pairwise_disjoint b ->
  (forall r r', r ∈ a -> r' ∈ b -> disjoint r r') ->
  pairwise_disjoint (a ++ b).
Proof.
  intros Ha Hb Hab. induction Ha as [|r a Hr Ha IH]; simpl; [exact Hb|].
  constructor.
  - apply Forall_app. split; [exact Hr|].
    apply Forall_forall. intros r' Hr'. apply Hab; [left|exact Hr'].
  - apply IH. intros r0 r' Hr0 Hr'. apply Hab; [now right|exact Hr'].
Qed.

Lemma outcome_region_disjoint (n : nat) (prob : list (option Q))
    (alias : list (option Z)) (j : Z) :
  pairwise_disjoint (outcome_region n prob alias j).
Proof.
  unfold outcome_region.
  assert (Hgen : forall ks, NoDup ks -> (forall k, k ∈ ks -> in_table n k) ->
    pairwise_disjoint (flat_map (slot_rects (Z.of_nat n) prob alias j) ks)).
  { induction ks as [|k ks IH]; intros Hnd Hks; simpl; [constructor|].
    apply NoDup_cons in Hnd as [Hk Hnd].
    apply pairwise_app.
    - unfold slot_rects.
      destruct (decide (k = j)); destruct (decide (aget None alias k = Some j)); simpl;
        repeat constructor.
      intros x y (_ & _ & _ & Hy) (_ & _ & Hy' & _). simpl in *. lra.
    - apply IH; [exact Hnd|]. intros k' Hk'. apply Hks. now right.
    - intros r r' Hr Hr'.
      apply list_elem_of_In, in_flat_map in Hr' as (k' & Hk' & Hr').
      apply list_elem_of_In in Hk', Hr'.
      assert (Hne : k <> k') by (intros ->; contradiction).
      pose proof (Hks k ltac:(left)) as Hkr.
      pose proof (Hks k' ltac:(now right)) as Hkr'. unfold in_table in Hkr, Hkr'.
      intros x y Hin Hin'. apply Hne.
      assert (Hx : (inject_Z k / inject_Z (Z.of_nat n) <= x /\
                    x < inject_Z (k + 1) / inject_Z (Z.of_nat n))%Q).
      { apply elem_of_slot_rects in Hr as [[_ ->]|[_ ->]];
          destruct Hin as (? & ? & _); simpl in *; auto. }
      assert (Hx' : (inject_Z k' / inject_Z (Z.of_nat n) <= x /\
                     x < inject_Z (k' + 1) / inject_Z (Z.of_nat n))%Q).
      { apply elem_of_slot_rects in Hr' as [[_ ->]|[_ ->]];
          destruct Hin' as (? & ? & _); simpl in *; auto. }
      rewrite <- (slot_of_draw (Z.of_nat n) k x) by (try lia; tauto).
      rewrite <- (slot_of_draw (Z.of_nat n) k' x) by (try lia; tauto).
      reflexivity. }
  apply Hgen; [apply NoDup_zseq|]. intros k. apply elem_of_zseq.
Qed.

Lemma outcome_region_unit (n : nat) (prob : list (option Q)) (alias : list (option Z))
    (j : Z) :
  (forall k, in_table n k -> (0 <= prob_at prob k /\ prob_at prob k <= 1)%Q) ->
  Forall unit_rect (outcome_region n prob alias j).
Proof.
  intros Hprob. apply Forall_forall. intros r Hr.
  apply elem_of_outcome_region in Hr as (k & Hk & Hr).
  destruct (Hprob k Hk) as [Hp0 Hp1]. unfold in_table in Hk.
  assert (Hn : (0 < inject_Z (Z.of_nat n))%Q) by (rewrite <- (Zlt_Qlt 0); lia).
  assert (Hk0 : (0 <= inject_Z k)%Q) by (rewrite <- (Zle_Qle 0); lia).
  assert (Hk1 : (inject_Z (k + 1) <= inject_Z (Z.of_nat n))%Q) by (rewrite <- Zle_Qle; lia).
  assert (Hkk : (inject_Z k <= inject_Z (k + 1))%Q) by (rewrite <- Zle_Qle; lia).
  assert (Hx0 : (0 <= inject_Z k / inject_Z (Z.of_nat n))%Q).
  { apply Qle_shift_div_l; [exact Hn|lra]. }
  assert (Hx1 : (inject_Z (k + 1) / inject_Z (Z.of_nat n) <= 1)%Q).
  { apply Qle_shift_div_r; [exact Hn|lra]. }
  assert (Hxx : (inject_Z k / inject_Z (Z.of_nat n)
                 <= inject_Z (k + 1) / inject_Z (Z.of_nat n))%Q).
  { apply Qdiv_le_iff; [exact Hn|].
    assert (E : (inject_Z (k + 1) / inject_Z (Z.of_nat n) * inject_Z (Z.of_nat n)
                 == inject_Z (k + 1))%Q) by (field; lra).
    rewrite E. exact Hkk. }
  apply elem_of_slot_rects in Hr as [[_ ->]|[_ ->]]; unfold unit_rect; simpl;
    repeat split; try assumption; lra.
Qed.

(** C1 (as amended).  In exact arithmetic [InitAliasTable] followed by
    [SampleAnEdge] reproduces the categorical distribution of the weights:
    for every non-empty vector of positive weights the build ends and, for
    every edge [j], the set of draws [(r1, r2)] of [[0,1) x [0,1)] on which
    [SampleAnEdge] answers [j] has measure [w[j] / sum(w)]. *)
Theorem alias_distribution_exact (fuel : nat) (w : list Q) :
  w <> [] -> Forall (fun x => (0 < x)%Q) w -> (length w <= fuel)%nat ->
  exists prob alias, InitAliasTable fuel w = Some (prob, alias) /\
    alias_distribution w prob alias.
Proof.
  intros Hne Hw Hfuel.
  destruct (InitAliasTable_exact fuel w Hne Hw Hfuel) as (prob & alias & Hrun & Hprob & Hmass).
  exists prob, alias. split; [exact Hrun|].
  assert (Hn : (0 < length w)%nat) by (destruct w; [contradiction|simpl; lia]).
  pose proof (Qsum_list_pos w Hne Hw) as Hpos.
  assert (Hprob_at : forall k, in_table (length w) k ->
            (0 <= prob_at prob k /\ prob_at prob k <= 1)%Q).
  { intros k Hk. destruct (Hprob k Hk) as (p & Hp & Hb). unfold prob_at. now rewrite Hp. }
  intros j Hj. split; [|split; [|split]].
  - intros r1 r2 H1 H2 H3 H4. unfold zlen. apply SampleAnEdge_region; try assumption.
    intros k Hk. destruct (Hprob k Hk) as (p & Hp & _). eauto.
  - apply outcome_region_disjoint.
  - now apply outcome_region_unit.
  - unfold outcome_region. rewrite measure_flat_map.
    rewrite (qsum_ext _ (fun k => share prob alias j k / inject_Z (Z.of_nat (length w)))%Q).
    2:{ intros k _. apply measure_slot. lia. }
    assert (Hn' : (0 < inject_Z (Z.of_nat (length w)))%Q) by (rewrite <- (Zlt_Qlt 0); lia).
    rewrite qsum_scale by lra. rewrite (Hmass j Hj), (aget_normalize w j Hj).
    rewrite weight_sum_Q. unfold zlen. field. split; lra.
Qed.

(** The weights 1, 2, 3, 4 of the specification. *)
Lemma alias_distribution_exact_witness :
  exists prob alias, InitAliasTable 4 [1%Q; 2%Q; 3%Q; 4%Q] = Some (prob, alias) /\
    alias_distribution [1%Q; 2%Q; 3%Q; 4%Q] prob alias.
Proof.
  apply (alias_distribution_exact 4 [1%Q; 2%Q; 3%Q; 4%Q]).
  - discriminate.
  - repeat constructor.
  - simpl. lia.
Defined.

(** C1 as stated fails in the arithmetic of the source: [double] cannot hold
    2/3.  For the weights 1, 2 the table is [prob = [fl(2/3), 1]],
    [alias = [1, -]], so edge 0 is drawn with probability [fl(2/3) / 2],
    which is not 1/3. *)
Lemma alias_distribution_double_inexact :
  exists prob alias, InitAliasTable 2 [1%float; 2%float] = Some (prob, alias) /\
    ~ (measure (outcome_region 2 prob alias 0)
       == exact 1%float / (exact 1%float + exact 2%float))%Q.
Proof.
  eexists _, _. split; [vm_compute; reflexivity|].
  vm_compute. discriminate.
Qed.

(** ** NegativeSampler *)

Section NegTableStructure.
Context {D : Type} `{Arith D}.
Variable pow : D -> D -> D.
Variable degrees : list D.

Lemma neg_state_S (sum : D) (k : nat) :
  neg_state pow degrees sum (S k)
  = neg_step pow degrees sum (neg_state pow degrees sum k) (Z.of_nat k).
Proof. reflexivity. Qed.

Lemma length_neg_fill (sum : D) (count : nat) (k : Z) (st : NegState D) :
  length (neg_fill pow degrees sum count k st) = count.
Proof.
  revert k st. induction count as [|count IH]; intros k st; simpl; [reflexivity|].
  now rewrite IH.
Qed.

Lemma neg_fill_lookup (sum : D) (count : nat) :
  forall (k0 i : nat), (i < count)%nat ->
    neg_fill pow degrees sum count (Z.of_nat k0) (neg_state pow degrees sum k0) !! i
    = Some (vid (neg_state pow degrees sum (S (k0 + i))) - 1).
Proof.
  induction count as [|count IH]; intros k0 i Hi; [lia|].
  destruct i as [|i]; simpl.
  - now rewrite Nat.add_0_r.
  - replace (Z.of_nat k0 + 1) with (Z.of_nat (S k0)) by lia.
    rewrite <- neg_state_S. rewrite IH by lia.
    replace (S k0 + i)%nat with (k0 + S i)%nat by lia. reflexivity.
Qed.

(** Slot [k] of the table is the vertex the walk stands on after slot [k]. *)
Lemma InitNegTable_lookup (k : nat) :
  Z.of_nat k < neg_table_size ->
  InitNegTable pow degrees !! k
  = Some (vid (neg_state pow degrees (neg_sum pow degrees) (S k)) - 1).
Proof.
  intros Hk. unfold InitNegTable.
  apply (neg_fill_lookup (neg_sum pow degrees) (Z.to_nat neg_table_size) 0 k). lia.
Qed.

Lemma length_InitNegTable : zlen (InitNegTable pow degrees) = neg_table_size.
Proof.
  unfold zlen, InitNegTable. rewrite length_neg_fill.
  apply Z2Nat.id. discriminate.
Qed.

Lemma weight_prefix_S (m : nat) (d : D) :
  degrees !! m = Some d ->
  weight_prefix pow degrees (S m)
  = (weight_prefix pow degrees m + pow d (NEG_SAMPLING_POWER))%A.
Proof.
  intros Hd. unfold weight_prefix.
  rewrite (take_S_r _ _ _ Hd), fold_left_app. reflexivity.
Qed.

(** The walk has consumed the vertices below [vid]: [cur_sum] is their
    weight, summed in the order of the first loop, and [por] its share. *)
Lemma neg_state_inv (sum : D) (k : nat) :
  let st := neg_state pow degrees sum k in
  0 <= vid st <= Z.of_nat k /\
  (vid st <= zlen degrees ->
   cur_sum st = weight_prefix pow degrees (Z.to_nat (vid st)) /\
   por st = if vid st =? 0 then of_int 0 else (cur_sum st / sum)%A).
Proof.
  induction k as [|k IH]; [simpl; split; [lia|]; intros _; split; reflexivity|].
  rewrite neg_state_S. destruct IH as [Hvid Hsum].
  set (st := neg_state pow degrees sum k) in *. unfold neg_step. cbv zeta.
  destruct (por st <? _)%A; simpl.
  - split; [lia|]. intros Hn. destruct (Hsum ltac:(lia)) as [Hcur _].
    destruct (Z.eqb_spec (vid st + 1) 0) as [?|_]; [lia|]. split; [|reflexivity].
    unfold zlen in Hn.
    destruct (lookup_lt_is_Some_2 degrees (Z.to_nat (vid st))) as [d Hd]; [lia|].
    replace (Z.to_nat (vid st + 1)) with (S (Z.to_nat (vid st))) by lia.
    rewrite (weight_prefix_S _ d Hd), Hcur. unfold aget.
    rewrite decide_True by lia. now rewrite Hd.
  - split; [lia|exact Hsum].
Qed.

Lemma neg_state_mono (sum : D) (k : nat) :
  vid (neg_state pow degrees sum k) <= vid (neg_state pow degrees sum (S k)).
Proof.
  rewrite neg_state_S. unfold neg_step. cbv zeta.
  destruct (_ <? _)%A; simpl; lia.
Qed.

End NegTableStructure.

Lemma slot_end_pos (k : Z) : 0 <= k -> (0 < slot_end k)%Q.
Proof.
  intros Hk. unfold slot_end. apply Qlt_shift_div_l.
  - reflexivity.
  - rewrite Qmult_0_l. rewrite <- (Zlt_Qlt 0). lia.
Qed.

Lemma slot_end_le_1 (k : Z) : k < neg_table_size -> (slot_end k <= 1)%Q.
Proof.
  intros Hk. unfold slot_end. apply Qle_shift_div_r.
  - reflexivity.
  - rewrite Qmult_1_l. rewrite <- Zle_Qle. lia.
Qed.

Lemma slot_end_S (k : Z) :
  (slot_end (k + 1) == slot_end k + 1 / inject_Z neg_table_size)%Q.
Proof.
  unfold slot_end. rewrite (inject_Z_plus (k + 1) 1). change (inject_Z 1) with 1%Q.
  field. discriminate.
Qed.

Section NegTableExact.
Variable pow : Q -> Q -> Q.
Variable degrees : list Q.
Hypothesis positive_sum : (0 < neg_sum pow degrees)%Q.

Local Abbreviation walk k := (neg_state pow degrees (neg_sum pow degrees) k).

Lemma neg_step_Q (st : NegState Q) (k : Z) :
  neg_step pow degrees (neg_sum pow degrees) st k =
  if Q_ltb (por st) (slot_end k)
  then MkNeg (cur_sum st + pow (aget 0%Q degrees (vid st)) NEG_SAMPLING_POWER)%Q
             ((cur_sum st + pow (aget 0%Q degrees (vid st)) NEG_SAMPLING_POWER)
              / neg_sum pow degrees)%Q
             (vid st + 1)
  else st.
Proof. reflexivity. Qed.

Lemma degrees_nonempty : (0 < length degrees)%nat.
Proof.
  pose proof positive_sum as Hpos.
  destruct degrees as [|d ds]; [|simpl; lia].
  exfalso. unfold neg_sum, weight_prefix in Hpos. simpl in Hpos.
  change (inject_Z 0) with 0%Q in Hpos. lra.
Qed.

Lemma cum_share_last : (cum_share pow degrees (zlen degrees - 1) == 1)%Q.
Proof.
  unfold cum_share. unfold zlen.
  replace (Z.to_nat (Z.of_nat (length degrees) - 1 + 1)) with (length degrees) by lia.
  fold (neg_sum pow degrees). field. lra.
Qed.

Lemma cum_share_S (v : Z) :
  0 <= v < zlen degrees ->
  (cum_share pow degrees v == cum_share pow degrees (v - 1) + vertex_share pow degrees v)%Q.
Proof.
  intros Hv. unfold cum_share, vertex_share, zlen in *.
  replace (Z.to_nat (v - 1 + 1)) with (Z.to_nat v) by lia.
  replace (Z.to_nat (v + 1)) with (S (Z.to_nat v)) by lia.
  destruct (lookup_lt_is_Some_2 degrees (Z.to_nat v)) as [d Hd]; [lia|].
  rewrite (weight_prefix_S pow degrees _ d Hd).
  unfold aget. rewrite decide_True by lia. rewrite Hd. simpl.
  change (@add Q Q_arith) with Qplus. field. lra.
Qed.

Lemma cum_share_before : (cum_share pow degrees (-1) == 0)%Q.
Proof.
  unfold cum_share. simpl. unfold weight_prefix. simpl. change (of_int 0) with 0%Q.
  field. lra.
Qed.

(** The share the walk has reached is the cumulative share of the vertex it
    stands on. *)
Lemma walk_por (k : nat) :
  vid (walk k) <= zlen degrees ->
  (por (walk k) == cum_share pow degrees (vid (walk k) - 1))%Q.
Proof.
  intros Hn. destruct (neg_state_inv pow degrees (neg_sum pow degrees) k) as [Hvid Hst].
  destruct (Hst Hn) as [Hcur Hpor]. rewrite Hpor.
  destruct (Z.eqb_spec (vid (walk k)) 0) as [E|E].
  - rewrite E. change (of_int 0) with 0%Q. now rewrite cum_share_before.
  - rewrite Hcur. unfold cum_share.
    replace (Z.to_nat (vid (walk k) - 1 + 1)) with (Z.to_nat (vid (walk k))) by lia.
    reflexivity.
Qed.

(** The walk never leaves the vertices, and stands on one from slot 0 on. *)
Lemma walk_valid (k : nat) :
  Z.of_nat k <= neg_table_size ->
  vid (walk k) <= zlen degrees /\ ((1 <= k)%nat -> 1 <= vid (walk k)).
Proof.
  induction k as [|k IH]; intros Hk; [simpl; split; [|intros; lia]; unfold zlen; lia|].
  destruct (IH ltac:(lia)) as [Hn Hone].
  pose proof (walk_por k Hn) as Hpor.
  rewrite neg_state_S, neg_step_Q.
  destruct (Q_ltb (por (walk k)) (slot_end (Z.of_nat k))) eqn:Hlt; simpl.
  - apply Q_ltb_lt in Hlt. split; [|intros _].
    + destruct (decide (vid (walk k) = zlen degrees)) as [E|E]; [exfalso|lia].
      rewrite Hpor, E, cum_share_last in Hlt.
      pose proof (slot_end_le_1 (Z.of_nat k) ltac:(lia)). lra.
    + destruct (neg_state_inv pow degrees (neg_sum pow degrees) k) as [Hvid _]. lia.
  - apply Q_ltb_ge in Hlt. split; [exact Hn|]. intros _.
    destruct k as [|k]; [|apply Hone; lia].
    exfalso. change (por (walk 0)) with 0%Q in Hlt. change (Z.of_nat 0) with 0 in Hlt.
    pose proof (slot_end_pos 0 ltac:(lia)). lra.
Qed.

(** Every slot of the table holds a vertex id. *)
Lemma InitNegTable_valid (k : nat) :
  Z.of_nat k < neg_table_size ->
  exists v, InitNegTable pow degrees !! k = Some v /\ 0 <= v < zlen degrees.
Proof.
  intros Hk. rewrite InitNegTable_lookup by exact Hk.
  eexists. split; [reflexivity|].
  destruct (walk_valid (S k) ltac:(lia)) as [Hn Hone]. specialize (Hone ltac:(lia)). lia.
Qed.

(** When no vertex has a share below one slot, the walk stands, after slot
    [k], on the first vertex whose cumulative share reaches the end of the
    slot. *)
Lemma walk_first_reaches (k : nat) :
  (forall v, 0 <= v < zlen degrees ->
     (1 / inject_Z neg_table_size <= vertex_share pow degrees v)%Q) ->
  Z.of_nat k < neg_table_size ->
  first_reaches pow degrees (Z.of_nat k) (vid (walk (S k)) - 1).
Proof.
  intros Hlag. induction k as [|k IH]; intros Hk.
  - destruct (walk_valid 1 ltac:(lia)) as [Hn Hone]. specialize (Hone ltac:(lia)).
    destruct (neg_state_inv pow degrees (neg_sum pow degrees) 1) as [Hvid _].
    assert (E : vid (walk 1) = 1) by lia. rewrite E. simpl (1 - 1).
    split; [|intros u Hu; lia].
    rewrite (cum_share_S 0) by lia. simpl (0 - 1). rewrite cum_share_before.
    pose proof (Hlag 0 ltac:(lia)) as H0.
    change (Z.of_nat 0) with 0. unfold slot_end. change (inject_Z (0 + 1)) with 1%Q. lra.
  - specialize (IH ltac:(lia)). destruct IH as [Hreach Hbefore].
    destruct (walk_valid (S k) ltac:(lia)) as [Hn Hone]. specialize (Hone ltac:(lia)).
    destruct (walk_valid (S (S k)) ltac:(lia)) as [Hn' _].
    pose proof (walk_por (S k) Hn) as Hpor.
    set (t := vid (walk (S k)) - 1) in *.
    assert (Hend : (slot_end (Z.of_nat (S k))
                    == slot_end (Z.of_nat k) + 1 / inject_Z neg_table_size)%Q).
    { replace (Z.of_nat (S k)) with (Z.of_nat k + 1) by lia. apply slot_end_S. }
    assert (Hgrow : (0 < 1 / inject_Z neg_table_size)%Q) by reflexivity.
    rewrite (neg_state_S pow degrees _ (S k)), neg_step_Q in Hn' |- *.
    destruct (Q_ltb (por (walk (S k))) (slot_end (Z.of_nat (S k)))) eqn:Hlt;
      cbn [vid] in Hn' |- *.
    + apply Q_ltb_lt in Hlt. rewrite Hpor in Hlt.
      replace (vid (walk (S k)) + 1 - 1) with (t + 1) by (unfold t; lia).
      split.
      * rewrite (cum_share_S (t + 1)) by (unfold t; lia).
        replace (t + 1 - 1) with t by lia.
        pose proof (Hlag (t + 1) ltac:(unfold t; lia)). lra.
      * intros u Hu. destruct (decide (u = t)) as [->|Hne]; [exact Hlt|].
        pose proof (Hbefore u ltac:(lia)). lra.
    + apply Q_ltb_ge in Hlt. rewrite Hpor in Hlt. fold t. split; [exact Hlt|].
      intros u Hu. pose proof (Hbefore u Hu). lra.
Qed.

End NegTableExact.

(** The number of cells holding [v] in a list whose cells hold [v] exactly on
    the indices [A <= k < B]. *)
Lemma filter_interval_count (v A B : Z) (l : list Z) :
  forall off : Z,
    (forall (k : nat) x, l !! k = Some x -> (x = v <-> A <= off + Z.of_nat k < B)) ->
    zlen (filter (fun x => x = v) l)
    = Z.max 0 (Z.min B (off + zlen l) - Z.max A off).
Proof.
  induction l as [|x l IH]; intros off Hl.
  - unfold zlen. simpl. lia.
  - rewrite filter_cons. specialize (IH (off + 1)).
    assert (Hrest : forall (k : nat) y, l !! k = Some y ->
              (y = v <-> A <= off + 1 + Z.of_nat k < B)).
    { intros k y Hy. rewrite (Hl (S k) y Hy). lia. }
    specialize (IH Hrest). pose proof (Hl O x eq_refl) as Hx.
    unfold zlen in *. simpl length.
    destruct (decide (x = v)) as [E|E]; simpl length; lia.
Qed.

Section NegTableCount.
Variable pow : Q -> Q -> Q.
Variable degrees : list Q.
Hypothesis positive_sum : (0 < neg_sum pow degrees)%Q.
Hypothesis no_lag : forall v, 0 <= v < zlen degrees ->
  (1 / inject_Z neg_table_size <= vertex_share pow degrees v)%Q.

Lemma cum_share_mono (u v : Z) :
  -1 <= u <= v -> v < zlen degrees ->
  (cum_share pow degrees u <= cum_share pow degrees v)%Q.
Proof.
  intros Huv Hv.
  assert (Hgen : forall d : nat, Z.of_nat d + u < zlen degrees ->
            (cum_share pow degrees u <= cum_share pow degrees (Z.of_nat d + u))%Q).
  { induction d as [|d IH]; intros Hd.
    - replace (Z.of_nat 0 + u) with u by lia. lra.
    - specialize (IH ltac:(lia)).
      rewrite (cum_share_S pow degrees positive_sum (Z.of_nat (S d) + u)) by lia.
      replace (Z.of_nat (S d) + u - 1) with (Z.of_nat d + u) by lia.
      pose proof (no_lag (Z.of_nat (S d) + u) ltac:(lia)) as Hs.
      assert ((0 < 1 / inject_Z neg_table_size)%Q) by reflexivity. lra. }
  replace v with (Z.of_nat (Z.to_nat (v - u)) + u) by lia. apply Hgen. lia.
Qed.

(** Slot [k] holds [v] exactly when the end of the slot lies in the share
    interval of [v]. *)
Lemma slot_holds (k v : Z) :
  0 <= k < neg_table_size -> 0 <= v < zlen degrees ->
  aget (-1) (InitNegTable pow degrees) k = v <->
  (cum_share pow degrees (v - 1) < slot_end k /\ slot_end k <= cum_share pow degrees v)%Q.
Proof.
  intros Hk Hv.
  pose proof (walk_first_reaches pow degrees positive_sum (Z.to_nat k) no_lag ltac:(lia))
    as [Hreach Hbefore].
  destruct (walk_valid pow degrees positive_sum (S (Z.to_nat k)) ltac:(lia)) as [Hn Hone].
  specialize (Hone ltac:(lia)).
  unfold aget. rewrite decide_True by lia. rewrite InitNegTable_lookup by lia.
  cbn [default from_option].
  rewrite Z2Nat.id in Hreach, Hbefore by lia.
  remember (vid (neg_state pow degrees (neg_sum pow degrees) (S (Z.to_nat k))) - 1) as t
    eqn:Et.
  assert (Htr : 0 <= t < zlen degrees) by lia.
  clear Et Hn Hone.
  split.
  - intros Htv. subst v. split; [|exact Hreach].
    destruct (decide (t = 0)) as [E|Hne].
    + rewrite E. change (0 - 1) with (-1).
      rewrite (cum_share_before pow degrees positive_sum). apply slot_end_pos. lia.
    + apply (Hbefore (t - 1)). lia.
  - intros [Hlo Hhi].
    destruct (Z.lt_trichotomy t v) as [Hlt|[Heq|Hgt]]; [exfalso|exact Heq|exfalso].
    + pose proof (cum_share_mono t (v - 1) ltac:(lia) ltac:(lia)). lra.
    + pose proof (Hbefore v ltac:(lia)). lra.
Qed.

Lemma slot_end_floor_le (k : Z) (c : Q) :
  (slot_end k <= c)%Q <-> k < Qfloor (inject_Z neg_table_size * c).
Proof.
  unfold slot_end.
  assert (HN : (0 < inject_Z neg_table_size)%Q) by reflexivity.
  rewrite Qdiv_le_iff by exact HN.
  pose proof (Qfloor_le (inject_Z neg_table_size * c)) as H1.
  pose proof (Qlt_floor (inject_Z neg_table_size * c)) as H2.
  split.
  - intros Hle.
    assert (H3 : (inject_Z (k + 1) < inject_Z (Qfloor (inject_Z neg_table_size * c) + 1))%Q)
      by lra.
    rewrite <- Zlt_Qlt in H3. lia.
  - intros Hlt.
    assert (H3 : (inject_Z (k + 1) <= inject_Z (Qfloor (inject_Z neg_table_size * c)))%Q)
      by (rewrite <- Zle_Qle; lia).
    lra.
Qed.

Lemma slot_end_floor_lt (k : Z) (c : Q) :
  (c < slot_end k)%Q <-> Qfloor (inject_Z neg_table_size * c) <= k.
Proof.
  unfold slot_end.
  assert (HN : (0 < inject_Z neg_table_size)%Q) by reflexivity.
  rewrite Qdiv_gt_iff by exact HN.
  pose proof (Qfloor_le (inject_Z neg_table_size * c)) as H1.
  pose proof (Qlt_floor (inject_Z neg_table_size * c)) as H2.
  split.
  - intros Hlt.
    assert (H3 : (inject_Z (Qfloor (inject_Z neg_table_size * c)) < inject_Z (k + 1))%Q)
      by lra.
    rewrite <- Zlt_Qlt in H3. lia.
  - intros Hle.
    assert (H3 : (inject_Z (Qfloor (inject_Z neg_table_size * c) + 1) <= inject_Z (k + 1))%Q)
      by (rewrite <- Zle_Qle; lia).
    lra.
Qed.

(** The fraction of slots that hold [v] is within one slot of its share. *)
Lemma slot_count_share (v : Z) :
  0 <= v < zlen degrees ->
  (vertex_share pow degrees v - 1 / inject_Z neg_table_size
     < inject_Z (slot_count (InitNegTable pow degrees) v) / inject_Z neg_table_size /\
   inject_Z (slot_count (InitNegTable pow degrees) v) / inject_Z neg_table_size
     < vertex_share pow degrees v + 1 / inject_Z neg_table_size)%Q.
Proof.
  intros Hv.
  set (lo := cum_share pow degrees (v - 1)). set (hi := cum_share pow degrees v).
  set (A := Qfloor (inject_Z neg_table_size * lo)).
  set (B := Qfloor (inject_Z neg_table_size * hi)).
  assert (HN : (0 < inject_Z neg_table_size)%Q) by reflexivity.
  assert (Hlo0 : (0 <= lo)%Q).
  { pose proof (cum_share_before pow degrees positive_sum) as H0.
    pose proof (cum_share_mono (-1) (v - 1) ltac:(lia) ltac:(lia)) as H1.
    unfold lo. lra. }
  assert (Hlohi : (lo <= hi)%Q) by (apply cum_share_mono; lia).
  assert (Hhi1 : (hi <= 1)%Q).
  { pose proof (cum_share_last pow degrees positive_sum) as H0.
    pose proof (cum_share_mono v (zlen degrees - 1) ltac:(lia) ltac:(lia)) as H1.
    unfold hi. lra. }
  assert (HA0 : 0 <= A).
  { unfold A. change 0 with (Qfloor 0). apply Qfloor_resp_le.
    apply Qmult_le_0_compat; lra. }
  assert (HAB : A <= B).
  { unfold A, B. apply Qfloor_resp_le. apply Qmult_le_l; [exact HN|exact Hlohi]. }
  assert (HBN : B <= neg_table_size).
  { unfold B. rewrite <- (Qfloor_Z neg_table_size). apply Qfloor_resp_le.
    rewrite <- (Qmult_1_r (inject_Z neg_table_size)) at 2.
    apply Qmult_le_l; [exact HN|exact Hhi1]. }
  assert (Hcount : slot_count (InitNegTable pow degrees) v = B - A).
  { unfold slot_count. rewrite (filter_interval_count v A B _ 0).
    - rewrite length_InitNegTable. lia.
    - intros k x Hx.
      assert (Hk : 0 <= Z.of_nat k < neg_table_size).
      { apply lookup_lt_Some in Hx. pose proof (length_InitNegTable pow degrees) as HL.
        unfold zlen in HL. lia. }
      pose proof (slot_holds (Z.of_nat k) v Hk Hv) as Hiff.
      unfold aget in Hiff. rewrite decide_True in Hiff by lia.
      rewrite Nat2Z.id, Hx in Hiff. simpl in Hiff. rewrite Hiff.
      fold lo hi. rewrite (slot_end_floor_le (Z.of_nat k) hi). fold B.
      rewrite (slot_end_floor_lt (Z.of_nat k) lo). fold A. lia. }
  rewrite Hcount.
  pose proof (cum_share_S pow degrees positive_sum v Hv) as Hshare. fold lo hi in Hshare.
  pose proof (Qfloor_le (inject_Z neg_table_size * lo)) as H1.
  pose proof (Qlt_floor (inject_Z neg_table_size * lo)) as H2.
  pose proof (Qfloor_le (inject_Z neg_table_size * hi)) as H3.
  pose proof (Qlt_floor (inject_Z neg_table_size * hi)) as H4.
  fold A in H1, H2. fold B in H3, H4.
  rewrite inject_Z_plus in H2, H4. change (inject_Z 1) with 1%Q in H2, H4.
  unfold Z.sub. rewrite inject_Z_plus, inject_Z_opp.
  split.
  - apply Qdiv_gt_iff; [exact HN|]. 
    assert (E : ((vertex_share pow degrees v - 1 / inject_Z neg_table_size)
                 * inject_Z neg_table_size
                 == inject_Z neg_table_size * hi - inject_Z neg_table_size * lo - 1)%Q).
    { rewrite Hshare. field. lra. }
    rewrite E. lra.
  - apply Qlt_shift_div_r; [exact HN|].
    assert (E : ((vertex_share pow degrees v + 1 / inject_Z neg_table_size)
                 * inject_Z neg_table_size
                 == inject_Z neg_table_size * hi - inject_Z neg_table_size * lo + 1)%Q).
    { rewrite Hshare. field. lra. }
    rewrite E. lra.
Qed.

End NegTableCount.



(** After slot 0 the walk stands on vertex 0, whatever its share. *)
Lemma InitNegTable_slot_0 (pow : Q -> Q -> Q) (degrees : list Q) :
  aget (-1) (InitNegTable pow degrees) 0 = 0.
Proof.
  unfold aget. rewrite decide_True by lia.
  rewrite (InitNegTable_lookup pow degrees 0) by reflexivity. reflexivity.
Qed.


(** ** SigmoidLookup *)

Lemma aget_zseq_fmap {A} (d : A) (f : Z -> A) (n : nat) (rest : list A) (k : Z) :
  in_table n k -> aget d ((f <$> zseq n) ++ rest) k = f k.
Proof.
  intros Hk. unfold in_table in Hk. unfold aget. rewrite decide_True by lia.
  rewrite lookup_app_l by (unfold zseq; rewrite !length_fmap, length_seq; lia).
  unfold zseq. rewrite !list_lookup_fmap, lookup_seq_lt by lia. simpl.
  f_equal. lia.
Qed.

Section SigmoidTable.
Context {real double : Type} `{Platform real double}.
Variable exp : double -> double.

Lemma InitSigmoidTable_cell (k : Z) :
  0 <= k < sigmoid_table_size ->
  aget None (InitSigmoidTable exp) k = Some (sigmoid_entry exp k).
Proof.
  intros Hk. unfold InitSigmoidTable.
  apply (aget_zseq_fmap None (fun k => Some (sigmoid_entry exp k))).
  unfold in_table. lia.
Qed.

(** The cell [sigmoid_table[sigmoid_table_size]] is allocated and never
    written. *)
Lemma InitSigmoidTable_last :
  aget None (InitSigmoidTable exp) sigmoid_table_size = None.
Proof.
  unfold InitSigmoidTable, aget. rewrite decide_True by discriminate.
  rewrite lookup_app_r; unfold zseq; rewrite !length_fmap, length_seq; [|reflexivity].
  reflexivity.
Qed.

(** Cells whose abscissas agree after the integer division hold one value. *)
Lemma sigmoid_entry_step (k k' : Z) :
  Z.quot (2 * SIGMOID_BOUND * k) sigmoid_table_size
  = Z.quot (2 * SIGMOID_BOUND * k') sigmoid_table_size ->
  sigmoid_entry exp k = sigmoid_entry exp k'.
Proof. intros E. unfold sigmoid_entry. now rewrite E. Qed.

End SigmoidTable.

(** C4, the code at a failing input.  In the arithmetic of the source
    ([real] = binary32, [double] = binary64) and for every [exp]:
    [FastSigmoid(0.99f)] reads cell 582 and [FastSigmoid(0)] reads cell 500,
    and both cells hold the value computed for the abscissa 0, because
    [2 * 6 * k / 1000] is an integer division (it is 6 for every [k] from
    500 to 583).  The table has the values of twelve abscissas only, so
    [FastSigmoid(0.99f) = FastSigmoid(0)], while the sigmoid of 0.99 is
    0.729 and that of 0 is 0.5. *)
Theorem FastSigmoid_integer_steps (exp : float -> float) :
  FastSigmoid (InitSigmoidTable exp) (narrow (99 / 100)%float : binary32)
    = Some (sigmoid_entry exp 500) /\
  FastSigmoid (InitSigmoidTable exp) (of_int 0 : binary32)
    = Some (sigmoid_entry exp 500) /\
  sigmoid_entry exp 500
    = (narrow (of_int 1 / (of_int 1 + exp (widen (neg (of_int 0 : binary32)))))%A : binary32).
Proof.
  assert (E1 : sigmoid_index (narrow (99 / 100)%float : binary32) = 582)
    by (vm_compute; reflexivity).
  assert (E2 : sigmoid_index (of_int 0 : binary32) = 500) by (vm_compute; reflexivity).
  split; [|split].
  - unfold FastSigmoid.
    replace (of_int SIGMOID_BOUND <? narrow (99 / 100)%float)%A with false
      by (vm_compute; reflexivity).
    replace (narrow (99 / 100)%float <? of_int (- SIGMOID_BOUND))%A with false
      by (vm_compute; reflexivity).
    rewrite E1, InitSigmoidTable_cell by (unfold sigmoid_table_size; lia).
    now rewrite (sigmoid_entry_step exp 582 500).
  - unfold FastSigmoid.
    replace (of_int SIGMOID_BOUND <? (of_int 0 : binary32))%A with false
      by (vm_compute; reflexivity).
    replace ((of_int 0 : binary32) <? of_int (- SIGMOID_BOUND))%A with false
      by (vm_compute; reflexivity).
    rewrite E2, InitSigmoidTable_cell by (unfold sigmoid_table_size; lia).
    reflexivity.
  - reflexivity.
Qed.

(** C9, the code at a failing input.  [FastSigmoid(6)] passes both range
    tests ([6 > 6] and [6 < -6] are false), computes the index
    [(6 + 6) * 1000 / 6 / 2 = 1000] and reads [sigmoid_table[1000]], the one
    cell [InitSigmoidTable] allocates and never writes: its result is
    whatever the memory holds, for every [exp]. *)
Theorem FastSigmoid_at_bound (exp : float -> float) :
  sigmoid_index (of_int SIGMOID_BOUND : binary32) = sigmoid_table_size /\
  FastSigmoid (InitSigmoidTable exp) (of_int SIGMOID_BOUND : binary32) = None /\
  FastSigmoid (InitSigmoidTable exp) (of_int 10 : binary32) = Some (of_int 1) /\
  FastSigmoid (InitSigmoidTable exp) (of_int (-10) : binary32) = Some (of_int 0).
Proof.
  assert (E : sigmoid_index (of_int SIGMOID_BOUND : binary32) = sigmoid_table_size)
    by (vm_compute; reflexivity).
  split; [exact E|]. split; [|split].
  - unfold FastSigmoid.
    replace (of_int SIGMOID_BOUND <? (of_int SIGMOID_BOUND : binary32))%A with false
      by (vm_compute; reflexivity).
    replace ((of_int SIGMOID_BOUND : binary32) <? of_int (- SIGMOID_BOUND))%A with false
      by (vm_compute; reflexivity).
    rewrite E. apply InitSigmoidTable_last.
  - unfold FastSigmoid.
    replace (of_int SIGMOID_BOUND <? (of_int 10 : binary32))%A with true
      by (vm_compute; reflexivity).
    reflexivity.
  - unfold FastSigmoid.
    replace (of_int SIGMOID_BOUND <? (of_int (-10) : binary32))%A with false
      by (vm_compute; reflexivity).
    replace ((of_int (-10) : binary32) <? of_int (- SIGMOID_BOUND))%A with true
      by (vm_compute; reflexivity).
    reflexivity.
Qed.

(** ** The training step *)

Lemma length_zseq (n : nat) : length (zseq n) = n.
Proof. unfold zseq. now rewrite length_fmap, length_seq. Qed.

Lemma zseq_snoc (n : nat) : zseq (S n) = zseq n ++ [Z.of_nat n].
Proof. unfold zseq. rewrite seq_S, fmap_app. reflexivity. Qed.

Lemma aget_in_range {A} (d : A) (a : list A) (i : Z) :
  0 <= i < zlen a -> a !! Z.to_nat i = Some (aget d a i).
Proof.
  intros Hi. unfold aget, zlen in *. rewrite decide_True by lia.
  destruct (lookup_lt_is_Some_2 a (Z.to_nat i)) as [x Hx]; [lia|]. now rewrite Hx.
Qed.

Lemma aget_out_of_range {A} (d : A) (a : list A) (i : Z) :
  ~ (0 <= i < zlen a) -> aget d a i = d.
Proof.
  intros Hi. unfold aget, zlen in *. destruct (decide (0 <= i)); [|reflexivity].
  rewrite lookup_ge_None_2 by lia. reflexivity.
Qed.

Lemma list_eq_aget {A} (d : A) (a b : list A) :
  length a = length b ->
  (forall i, 0 <= i < zlen a -> aget d a i = aget d b i) -> a = b.
Proof.
  intros Hlen Hget. apply (list_eq_same_length a b (length a)); [congruence|reflexivity|].
  intros i x y Hi Hx Hy.
  specialize (Hget (Z.of_nat i) ltac:(unfold zlen; lia)).
  rewrite (aget_lookup d a i x Hx), (aget_lookup d b i y Hy) in Hget. exact Hget.
Qed.

Lemma aget_fmap_zseq {A} (d : A) (f : Z -> A) (n : nat) (c : Z) :
  in_table n c -> aget d (f <$> zseq n) c = f c.
Proof.
  intros Hc. rewrite <- (app_nil_r (f <$> zseq n)). now apply aget_zseq_fmap.
Qed.

Lemma aget_zip_with {A B C} (da : A) (db : B) (dc : C) (F : A -> B -> C)
    (a : list A) (b : list B) (i : Z) :
  0 <= i < zlen a -> 0 <= i < zlen b ->
  aget dc (zip_with F a b) i = F (aget da a i) (aget db b i).
Proof.
  intros Ha Hb. pose proof (aget_in_range da a i Ha) as Ea.
  pose proof (aget_in_range db b i Hb) as Eb.
  unfold aget at 1. rewrite decide_True by lia.
  rewrite lookup_zip_with, Ea. simpl. rewrite Eb. reflexivity.
Qed.

Lemma aget_replace_cells {real} (d : real) (arr vec : list real) (base i : Z) :
  0 <= base -> base + zlen vec <= zlen arr ->
  aget d (replace_cells arr base vec) i
  = if decide (base <= i < base + zlen vec) then aget d vec (i - base) else aget d arr i.
Proof.
  intros Hb Hlen. unfold replace_cells, zlen in *.
  destruct (decide (0 <= i)) as [Hi|Hi].
  2:{ rewrite decide_False by lia. unfold aget. now rewrite !decide_False by lia. }
  destruct (decide (base <= i < base + Z.of_nat (length vec))) as [Hin|Hout];
    unfold aget; rewrite !decide_True by lia.
  - rewrite lookup_app_r by (rewrite length_take; lia).
    rewrite length_take, Nat.min_l by lia.
    rewrite lookup_app_l by lia. do 2 f_equal. lia.
  - destruct (decide (i < base)) as [Hlt|Hge].
    + rewrite lookup_app_l by (rewrite length_take; lia).
      rewrite lookup_take_lt by lia. reflexivity.
    + rewrite lookup_app_r by (rewrite length_take; lia).
      rewrite length_take, Nat.min_l by lia.
      rewrite lookup_app_r by lia. rewrite lookup_drop. do 2 f_equal. lia.
Qed.

Lemma length_replace_cells {real} (arr vec : list real) (base : Z) :
  0 <= base -> base + zlen vec <= zlen arr ->
  length (replace_cells arr base vec) = length arr.
Proof.
  intros Hb Hlen. unfold replace_cells, zlen in *.
  rewrite !length_app, length_take, length_drop. lia.
Qed.

(** A loop that writes the cells [base, base + 1, ...] in turn, each value
    computed from the array as the earlier writes left it. *)
Lemma fold_aset_inv {A} (d : A) (val : list A -> Z -> A) (f : Z -> A) (base : Z)
    (a0 : list A) (n : nat) :
  0 <= base -> base + Z.of_nat n <= zlen a0 ->
  (forall a c, 0 <= c < Z.of_nat n -> length a = length a0 ->
     (forall i, ~ (base <= i < base + c) -> aget d a i = aget d a0 i) ->
     val a c = f c) ->
  length (fold_left (fun a c => aset a (base + c) (val a c)) (zseq n) a0) = length a0 /\
  forall i, aget d (fold_left (fun a c => aset a (base + c) (val a c)) (zseq n) a0) i
            = if decide (base <= i < base + Z.of_nat n) then f (i - base) else aget d a0 i.
Proof.
  intros Hb. induction n as [|n IH]; intros Hlen Hval.
  - simpl. split; [reflexivity|]. intros i. now rewrite decide_False by lia.
  - rewrite zseq_snoc, fold_left_app. simpl.
    destruct IH as [IHlen IHget]; [lia| |].
    { intros a c Hc. apply Hval. lia. }
    set (a := fold_left _ (zseq n) a0) in *.
    assert (Hv : val a (Z.of_nat n) = f (Z.of_nat n)).
    { apply Hval; [lia|exact IHlen|]. intros i Hi. rewrite IHget.
      now rewrite decide_False by lia. }
    rewrite Hv. split; [now rewrite length_aset|].
    intros i. destruct (decide (i = base + Z.of_nat n)) as [->|Hne].
    + rewrite aget_aset_eq by (unfold zlen in *; lia).
      rewrite decide_True by lia. f_equal. lia.
    + rewrite aget_aset_ne by congruence. rewrite IHget.
      destruct (decide (base <= i < base + Z.of_nat n)).
      * now rewrite decide_True by lia.
      * now rewrite decide_False by lia.
Qed.

Lemma fold_left_fun_ext {A B} (F G : A -> B -> A) (l : list B) (a : A) :
  (forall x y, F x y = G x y) -> fold_left F l a = fold_left G l a.
Proof.
  intros HFG. revert a. induction l as [|y l IH]; intros a; simpl; [reflexivity|].
  now rewrite HFG, IH.
Qed.

Section EmbeddingFacts.
Context {real double : Type} `{Platform real double}.

Lemma cells_with_cells_eq (m : Embeddings real) (a : matrix) (l : list real) :
  cells (with_cells m a l) a = l.
Proof. destruct a; reflexivity. Qed.

Lemma cells_with_cells_ne (m : Embeddings real) (a a' : matrix) (l : list real) :
  a <> a' -> cells (with_cells m a l) a' = cells m a'.
Proof. destruct a, a'; intros Hne; try reflexivity; contradiction. Qed.

Lemma with_cells_twice (m : Embeddings real) (a : matrix) (l l' : list real) :
  with_cells (with_cells m a l) a l' = with_cells m a l'.
Proof. destruct a; reflexivity. Qed.

Lemma with_cells_same (m : Embeddings real) (a : matrix) :
  with_cells m a (cells m a) = m.
Proof. destruct m, a; reflexivity. Qed.

Lemma store_with_cells (m : Embeddings real) (a : matrix) (b c : Z) (x : real) :
  store m (a, b) c x = with_cells m a (aset (cells m a) (b + c) x).
Proof. destruct a; reflexivity. Qed.

Lemma set_row_with_cells (dim : Z) (m : Embeddings real) (a : matrix) (i : Z)
    (vec : list real) :
  set_row dim m a i vec = with_cells m a (replace_cells (cells m a) (i * dim) vec).
Proof. destruct a; reflexivity. Qed.

(** A loop of stores through one pointer, as a loop over the cells of its
    matrix. *)
Lemma fold_store (V : Embeddings real -> Z -> real) (a : matrix) (b : Z) (ks : list Z) :
  forall m0 (l : list real),
    fold_left (fun m c => store m (a, b) c (V m c)) ks (with_cells m0 a l)
    = with_cells m0 a
        (fold_left (fun l c => aset l (b + c) (V (with_cells m0 a l) c)) ks l).
Proof.
  induction ks as [|k ks IH]; intros m0 l; simpl; [reflexivity|].
  rewrite store_with_cells, cells_with_cells_eq, with_cells_twice. apply IH.
Qed.

Lemma length_columns (dim : Z) : 0 <= dim -> zlen (columns dim) = dim.
Proof. intros Hd. unfold columns, zlen. rewrite length_zseq. lia. Qed.

Lemma length_row (dim : Z) (m : Embeddings real) (a : matrix) (i : Z) :
  0 <= dim -> zlen (row dim m a i) = dim.
Proof.
  intros Hd. unfold row, zlen. rewrite length_fmap.
  apply (length_columns dim Hd).
Qed.

Lemma aget_row (dim : Z) (m : Embeddings real) (a : matrix) (i c : Z) :
  0 <= c < dim -> aget (of_int 0) (row dim m a i) c = load m (a, i * dim) c.
Proof.
  intros Hc. unfold row, columns.
  apply (aget_fmap_zseq (of_int 0) (fun c => load m (a, i * dim) c)).
  unfold in_table. lia.
Qed.

Lemma length_axpy (g : real) (x y : list real) (dim : Z) :
  zlen x = dim -> zlen y = dim -> zlen (axpy g x y) = dim.
Proof.
  unfold axpy, zlen. intros Hx Hy. rewrite length_zip_with. lia.
Qed.

(** The first loop of [Update] is the dot product of the two rows. *)
Lemma dot_rows (dim : Z) (m : Embeddings real) (pu pv : matrix) (u t : Z) :
  fold_left (fun x c => (x + load m (pu, (u * dim)%Z) c * load m (pv, (t * dim)%Z) c)%A)
            (columns dim) (of_int 0)
  = dot (row dim m pu u) (row dim m pv t).
Proof.
  unfold dot, row. generalize (of_int 0 : real). generalize (columns dim).
  induction l as [|c l IH]; intros acc; simpl; [reflexivity|]. apply IH.
Qed.

End EmbeddingFacts.

Section UpdateFacts.
Context {real double : Type} `{Platform real double}.

Lemma zlen_cells (m : Embeddings real) (a : matrix) (n : Z) :
  zlen (emb_vertex m) = n -> zlen (emb_context m) = n -> zlen (cells m a) = n.
Proof. destruct a; simpl; auto. Qed.

(** The third loop of [Update], and every loop that adds to the cells of one
    row in place: row [t] of matrix [tm] becomes [new c] at column [c],
    when [new] is what the loop body computes from the memory as the loop
    found it. *)
Lemma fold_store_row (dim nv : Z) (m : Embeddings real) (tm : matrix) (t : Z)
    (V : Embeddings real -> Z -> real) (new : Z -> real) :
  0 < dim -> 0 <= t < nv ->
  zlen (cells m tm) = nv * dim ->
  (forall a c, 0 <= c < dim -> length a = length (cells m tm) ->
     (forall i, ~ (t * dim <= i < t * dim + c) ->
        aget (of_int 0) a i = aget (of_int 0) (cells m tm) i) ->
     V (with_cells m tm a) c = new c) ->
  fold_left (fun m c => store m (tm, t * dim) c (V m c)) (columns dim) m
  = set_row dim m tm t (new <$> columns dim).
Proof.
  intros Hdim Ht Hlen HV.
  pose proof (fold_store V tm (t * dim) (columns dim) m (cells m tm)) as Hfold.
  rewrite with_cells_same in Hfold. rewrite Hfold, set_row_with_cells. f_equal.
  assert (Hvec : zlen (new <$> columns dim) = dim).
  { unfold zlen. rewrite length_fmap. apply (length_columns dim). lia. }
  destruct (fold_aset_inv (of_int 0) (fun l c => V (with_cells m tm l) c) new (t * dim)
              (cells m tm) (Z.to_nat dim)) as [Hl Hget]; [nia|nia| |].
  { intros a c Hc. apply HV. lia. }
  fold (columns dim) in Hl, Hget.
  apply (list_eq_aget (of_int 0)).
  - rewrite Hl. symmetry. apply length_replace_cells; [nia|]. rewrite Hvec. nia.
  - intros i _. rewrite Hget, aget_replace_cells; [|nia|rewrite Hvec; nia].
    rewrite Hvec, Z2Nat.id by lia.
    destruct (decide (t * dim <= i < t * dim + dim)) as [Hi|Hi]; [|reflexivity].
    symmetry. apply (aget_fmap_zseq (of_int 0) new). unfold in_table. lia.
Qed.

(** [Update] on the source row [u] and the target row [t] of matrix [tm]:
    [x] is the dot product of the two rows, the error buffer gets
    [g * targetVec], the target row gets [g * sourceVec], both computed
    from the rows as [Update] found them. *)
Lemma Update_spec (dim nv : Z) (tbl : list (option real)) (rho : real)
    (m : Embeddings real) (tm : matrix) (u t : Z) (err : list real) (label : Z) :
  0 < dim -> 0 <= u < nv -> 0 <= t < nv ->
  zlen (emb_vertex m) = nv * dim -> zlen (emb_context m) = nv * dim ->
  zlen err = dim ->
  Update dim tbl rho m (InVertex, u * dim) (tm, t * dim) err label
  = (s ← FastSigmoid tbl (dot (row dim m InVertex u) (row dim m tm t));
     Some (set_row dim m tm t
             (axpy ((of_int label - s) * rho)%A (row dim m InVertex u) (row dim m tm t)),
           axpy ((of_int label - s) * rho)%A (row dim m tm t) err)).
Proof.
  intros Hdim Hu Ht Hv Hc Herr. unfold Update. rewrite dot_rows.
  destruct (FastSigmoid tbl _) as [s|]; simpl; [|reflexivity].
  set (g := ((of_int label - s) * rho)%A).
  pose proof (zlen_cells m tm _ Hv Hc) as Htm.
  f_equal. f_equal.
  - rewrite (fold_store_row dim nv m tm t _
               (fun c => (load m (tm, (t * dim)%Z) c + g * load m (InVertex, (u * dim)%Z) c)%A));
      try assumption.
    + f_equal. apply (list_eq_aget (of_int 0)).
      * unfold axpy. rewrite length_fmap, length_zip_with.
        pose proof (length_row dim m InVertex u ltac:(lia)) as L1.
        pose proof (length_row dim m tm t ltac:(lia)) as L2.
        pose proof (length_columns dim ltac:(lia)) as L3. unfold zlen in *. lia.
      * intros i Hi. unfold zlen in Hi. rewrite length_fmap in Hi.
        pose proof (length_columns dim ltac:(lia)) as L3. unfold zlen in L3.
        unfold columns. rewrite (aget_fmap_zseq (of_int 0)) by (unfold in_table; lia).
        unfold axpy.
        rewrite (aget_zip_with (of_int 0) (of_int 0)) by (rewrite length_row; lia).
        rewrite !aget_row by lia. reflexivity.
    + intros a c Hcol Hla Hagree. unfold load. simpl.
      rewrite cells_with_cells_eq.
      rewrite Hagree by lia. f_equal. f_equal.
      destruct tm; simpl; [|reflexivity].
      apply Hagree. intros [Hlo Hhi].
      assert (Hut : u < t) by nia.
      assert (Hrow : (u + 1) * dim <= t * dim) by (apply Z.mul_le_mono_nonneg_r; lia).
      lia.
  - rewrite (fold_left_fun_ext _
      (fun e c => aset e (0 + c) (aget (of_int 0) e c + g * load m (tm, (t * dim)%Z) c)%A));
      [|reflexivity].
    destruct (fold_aset_inv (of_int 0)
                (fun e c => (aget (of_int 0) e c + g * load m (tm, (t * dim)%Z) c)%A)
                (fun c => (aget (of_int 0) err c + g * load m (tm, (t * dim)%Z) c)%A)
                0 err (Z.to_nat dim)) as [Hl Hget]; [lia|lia| |].
    { intros a c Hcol Hla Hagree. rewrite Hagree by lia. reflexivity. }
    fold (columns dim) in Hl, Hget.
    apply (list_eq_aget (of_int 0)).
    + rewrite Hl. unfold axpy. rewrite length_zip_with.
      pose proof (length_row dim m tm t ltac:(lia)) as L2. unfold zlen in *. lia.
    + intros i Hi. unfold zlen in Hi, Herr. rewrite Hl in Hi.
      rewrite Hget. rewrite decide_True by lia.
      unfold axpy.
      rewrite (aget_zip_with (of_int 0) (of_int 0))
        by (rewrite ?length_row; unfold zlen; lia).
      rewrite aget_row by lia. replace (i - 0) with i by lia. reflexivity.
Qed.

End UpdateFacts.

Lemma negative_targets_S (tbl : list Z) (seed : Z) (n : nat) :
  negative_targets tbl seed (S n)
  = (aget 0 tbl (Rand seed).2 :: (negative_targets tbl (Rand seed).1 n).1,
     (negative_targets tbl (Rand seed).1 n).2).
Proof.
  cbn [negative_targets]. destruct (Rand seed) as [seed' r]. cbn [fst snd].
  destruct (negative_targets tbl seed' n). reflexivity.
Qed.

Section StepFacts.
Context {real double : Type} `{Platform real double}.
Variable md : Model real double.
Variable rho : real.
Variable nv : Z.
Hypothesis dim_pos : 0 < dim md.
Hypothesis order_ok : order md = 1 \/ order md = 2.
Hypothesis vertices_pos : 0 < nv.
Hypothesis table_ok : Forall (fun t => 0 <= t < nv) (neg_table md).

Lemma table_target (r : Z) : 0 <= aget 0 (neg_table md) r < nv.
Proof.
  unfold aget. destruct (decide (0 <= r)); [|lia].
  destruct (neg_table md !! Z.to_nat r) as [t|] eqn:Ht; simpl; [|lia].
  apply (Forall_lookup_1 _ _ _ _ table_ok Ht).
Qed.

Lemma spec_pair_shaped (u : Z) (m m' : Embeddings real) (e e' : list real) (t label : Z) :
  shaped (dim md) nv m e -> 0 <= t < nv ->
  spec_pair md rho u (m, e) (t, label) = Some (m', e') -> shaped (dim md) nv m' e'.
Proof.
  intros (Hv & Hc & He) Ht. unfold spec_pair. simpl.
  destruct (FastSigmoid _ _) as [s|]; simpl; [|discriminate].
  intros [= <- <-].
  pose proof (length_row (dim md) m InVertex u ltac:(lia)) as L1.
  pose proof (length_row (dim md) m (target_matrix md) t ltac:(lia)) as L2.
  assert (La : forall g, zlen (axpy g (row (dim md) m InVertex u)
                                  (row (dim md) m (target_matrix md) t)) = dim md).
  { intros g. now apply length_axpy. }
  assert (Hcells : zlen (cells m (target_matrix md)) = nv * dim md)
    by now apply zlen_cells.
  assert (Hrep : forall g, zlen (replace_cells (cells m (target_matrix md)) (t * dim md)
                    (axpy g (row (dim md) m InVertex u)
                       (row (dim md) m (target_matrix md) t))) = nv * dim md).
  { intros g. unfold zlen. rewrite length_replace_cells; [exact Hcells|nia|].
    rewrite La. nia. }
  split; [|split].
  - destruct (target_matrix md); simpl; [apply Hrep|exact Hv].
  - destruct (target_matrix md); simpl; [exact Hc|apply Hrep].
  - now apply length_axpy.
Qed.

(** One round of the negative-sampling loop is one pair of the
    specification. *)
Lemma pair_round_spec (u v d : Z) (st : PairState real) :
  shaped (dim md) nv (ps_emb st) (ps_error st) -> 0 <= u < nv -> 0 <= v < nv ->
  pair_round md rho (u * dim md) v st d
  = (let '(seed, target, label) :=
       if d =? 0 then (ps_seed st, v, 1)
       else ((Rand (ps_seed st)).1, aget 0 (neg_table md) (Rand (ps_seed st)).2, 0) in
     '(m, e) ← spec_pair md rho u (ps_emb st, ps_error st) (target, label);
     Some (MkPair m e seed)).
Proof.
  intros (Hv & Hc & He) Hu Hvr. unfold pair_round.
  destruct (Rand (ps_seed st)) as [seed' r] eqn:HR. simpl.
  assert (Hpair : forall seed target label, 0 <= target < nv ->
    ('(m1, e1) ← (if order md =? 1
                  then Update (dim md) (sigmoid_table md) rho (ps_emb st)
                         (InVertex, u * dim md) (InVertex, target * dim md)
                         (ps_error st) label
                  else Some (ps_emb st, ps_error st));
     '(m2, e2) ← (if order md =? 2
                  then Update (dim md) (sigmoid_table md) rho m1
                         (InVertex, u * dim md) (InContext, target * dim md) e1 label
                  else Some (m1, e1));
     Some (MkPair m2 e2 seed))
    = ('(m, e) ← spec_pair md rho u (ps_emb st, ps_error st) (target, label);
       Some (MkPair m e seed))).
  { intros seed target label Ht. unfold spec_pair, target_matrix. simpl.
    destruct order_ok as [E|E]; rewrite E; simpl.
    - rewrite (Update_spec (dim md) nv) by assumption.
      destruct (FastSigmoid _ _); reflexivity.
    - rewrite (Update_spec (dim md) nv) by assumption.
      destruct (FastSigmoid _ _); reflexivity. }
  destruct (d =? 0).
  - apply Hpair. exact Hvr.
  - apply Hpair. apply table_target.
Qed.

Lemma fold_bind_None {A B} (F : A -> B -> option A) (l : list B) :
  fold_left (fun acc x => a ← acc; F a x) l None = None.
Proof. induction l as [|x l IH]; simpl; [reflexivity|exact IH]. Qed.

Lemma spec_pairs_cons (u : Z) (st : Embeddings real * list real) (p : Z * Z)
    (ps : list (Z * Z)) :
  spec_pairs md rho u st (p :: ps)
  = (st' ← spec_pair md rho u st p; spec_pairs md rho u st' ps).
Proof.
  unfold spec_pairs. simpl. destruct (spec_pair md rho u st p) as [st'|]; simpl.
  - reflexivity.
  - apply fold_bind_None.
Qed.

(** The rounds [d >= 1] are the negative pairs, in order. *)
Lemma negative_rounds_spec (u v : Z) (ds : list Z) :
  forall st : PairState real,
    Forall (fun d => d <> 0) ds ->
    shaped (dim md) nv (ps_emb st) (ps_error st) -> 0 <= u < nv -> 0 <= v < nv ->
    fold_left (fun acc d => st' ← acc; pair_round md rho (u * dim md) v st' d) ds (Some st)
    = ('(m, e) ← spec_pairs md rho u (ps_emb st, ps_error st)
                   ((fun t => (t, 0)) <$>
                      (negative_targets (neg_table md) (ps_seed st) (length ds)).1);
       Some (MkPair m e (negative_targets (neg_table md) (ps_seed st) (length ds)).2)).
Proof.
  induction ds as [|d ds IH]; intros st Hds Hshape Hu Hv.
  - simpl. destruct st. reflexivity.
  - apply Forall_cons_1 in Hds as [Hd Hds]. simpl fold_left.
    rewrite pair_round_spec by assumption.
    destruct (Z.eqb_spec d 0) as [?|_]; [contradiction|].
    simpl length. rewrite negative_targets_S. cbn [fst snd].
    rewrite fmap_cons, spec_pairs_cons.
    destruct (spec_pair md rho u (ps_emb st, ps_error st)
                (aget 0 (neg_table md) (Rand (ps_seed st)).2, 0))
      as [[m' e']|] eqn:Hsp; cbn [mbind option_bind].
    + rewrite IH; try assumption.
      * reflexivity.
      * simpl. eapply spec_pair_shaped; [exact Hshape|apply table_target|exact Hsp].
    + apply fold_bind_None.
Qed.

(** All the rounds of one sampled edge are the pairs of the step. *)
Lemma pair_rounds_spec (u v : Z) (st : PairState real) :
  0 <= num_negative md ->
  shaped (dim md) nv (ps_emb st) (ps_error st) -> 0 <= u < nv -> 0 <= v < nv ->
  pair_rounds md rho (u * dim md) v st
  = ('(m, e) ← spec_pairs md rho u (ps_emb st, ps_error st)
                 (step_pairs md (ps_seed st) v);
     Some (MkPair m e (negative_targets (neg_table md) (ps_seed st)
                         (Z.to_nat (num_negative md))).2)).
Proof.
  intros Hnn Hshape Hu Hv. unfold pair_rounds, step_pairs.
  replace (Z.to_nat (num_negative md + 1)) with (S (Z.to_nat (num_negative md))) by lia.
  rewrite zseq_S. simpl fold_left. rewrite pair_round_spec by assumption.
  simpl. rewrite spec_pairs_cons.
  destruct (spec_pair md rho u (ps_emb st, ps_error st) (v, 1)) as [[m' e']|] eqn:Hsp; simpl.
  - rewrite negative_rounds_spec; try assumption.
    + simpl. rewrite length_fmap, length_zseq. reflexivity.
    + apply Forall_forall. intros d Hd. apply list_elem_of_fmap in Hd as (k & -> & Hk).
      apply elem_of_zseq in Hk. unfold in_table in Hk. lia.
    + simpl. eapply spec_pair_shaped; [exact Hshape|exact Hv|exact Hsp].
  - apply fold_bind_None.
Qed.

End StepFacts.

Section StepTheorem.
Context {real double : Type} `{Platform real double}.

Lemma zero_loop (dim : Z) (err : list real) :
  0 <= dim -> zlen err = dim ->
  fold_left (fun e c => aset e c (of_int 0)) (columns dim) err
  = replicate (Z.to_nat dim) (of_int 0).
Proof.
  intros Hd Herr.
  rewrite (fold_left_fun_ext _ (fun e c => aset e (0 + c) (of_int 0))) by reflexivity.
  destruct (fold_aset_inv (of_int 0) (fun _ _ => of_int 0 : real) (fun _ => of_int 0) 0 err
              (Z.to_nat dim)) as [Hl Hget]; [lia|lia|reflexivity|].
  fold (columns dim) in Hl, Hget. unfold zlen in Herr.
  apply (list_eq_aget (of_int 0)).
  - rewrite Hl, length_replicate. lia.
  - intros i Hi. unfold zlen in Hi. rewrite Hl in Hi. rewrite Hget, decide_True by lia.
    unfold aget. rewrite decide_True by lia.
    rewrite lookup_replicate_2 by lia. reflexivity.
Qed.

(** The last loop of an iteration adds the error buffer to the source row. *)
Lemma source_update (dim nv : Z) (m : Embeddings real) (u : Z) (err : list real) :
  0 < dim -> 0 <= u < nv -> shaped dim nv m err ->
  fold_left (fun m c => store m (InVertex, u * dim) c
                          (load m (InVertex, (u * dim)%Z) c + aget (of_int 0) err c)%A)
            (columns dim) m
  = set_row dim m InVertex u (zip_with add (row dim m InVertex u) err).
Proof.
  intros Hd Hu (Hv & Hc & He).
  rewrite (fold_store_row dim nv m InVertex u _
             (fun c => (load m (InVertex, (u * dim)%Z) c + aget (of_int 0) err c)%A));
    try assumption.
  - f_equal. pose proof (length_row dim m InVertex u ltac:(lia)) as L1.
    pose proof (length_columns dim ltac:(lia)) as L3.
    apply (list_eq_aget (of_int 0)).
    + rewrite length_fmap, length_zip_with. unfold zlen in *. lia.
    + intros i Hi. unfold zlen in Hi. rewrite length_fmap in Hi. unfold zlen in L3.
      unfold columns. rewrite (aget_fmap_zseq (of_int 0)) by (unfold in_table; lia).
      rewrite (aget_zip_with (of_int 0) (of_int 0)) by lia.
      rewrite aget_row by lia. reflexivity.
  - intros a c Hcol Hla Hagree. unfold load. simpl. rewrite Hagree by lia. reflexivity.
Qed.

(** A pair whose target row is not the source row of the vertex matrix
    leaves the source row as it was. *)
Lemma spec_pair_frame (md : Model real double) (rho : real) (nv u : Z)
    (m m' : Embeddings real) (e e' : list real) (pair : Z * Z) :
  0 < dim md -> shaped (dim md) nv m e -> 0 <= u < nv -> 0 <= pair.1 < nv ->
  order md = 2 \/ pair.1 <> u ->
  spec_pair md rho u (m, e) pair = Some (m', e') ->
  row (dim md) m' InVertex u = row (dim md) m InVertex u.
Proof.
  intros Hd (Hv & Hc & He) Hu Ht Hframe. unfold spec_pair. simpl.
  destruct (FastSigmoid _ _) as [s|]; simpl; [|discriminate].
  intros [= <- _]. unfold row. apply list_fmap_ext. intros k c Hk.
  apply list_elem_of_lookup_2, elem_of_zseq in Hk. unfold in_table in Hk.
  unfold load, target_matrix. simpl.
  destruct (Z.eqb_spec (order md) 1) as [E|E]; simpl; [|reflexivity].
  destruct Hframe as [?|Hne]; [lia|].
  pose proof (length_row (dim md) m InVertex u ltac:(lia)) as L1.
  pose proof (length_row (dim md) m InVertex pair.1 ltac:(lia)) as L2.
  assert (La : zlen (axpy ((of_int pair.2 - s) * rho)%A (row (dim md) m InVertex u)
                       (row (dim md) m InVertex pair.1))
               = dim md).
  { apply length_axpy; [exact L1|exact L2]. }
  unfold row, load in La. simpl in La.
  rewrite aget_replace_cells; [|nia|].
  - rewrite La. rewrite decide_False; [reflexivity|].
    intros [Hlo Hhi].
    destruct (Z.lt_trichotomy pair.1 u) as [Hlt|[?|Hgt]]; [|contradiction|].
    + assert ((pair.1 + 1) * dim md <= u * dim md)
        by (apply Z.mul_le_mono_nonneg_r; lia). lia.
    + assert ((u + 1) * dim md <= pair.1 * dim md)
        by (apply Z.mul_le_mono_nonneg_r; lia). lia.
  - rewrite La, Hv.
    assert ((pair.1 + 1) * dim md <= nv * dim md)
      by (apply Z.mul_le_mono_nonneg_r; lia). lia.
Qed.

Lemma spec_pairs_frame (md : Model real double) (rho : real) (nv u : Z)
    (pairs : list (Z * Z)) :
  forall (m m' : Embeddings real) (e e' : list real),
    0 < dim md -> shaped (dim md) nv m e -> 0 <= u < nv ->
    Forall (fun p => 0 <= p.1 < nv) pairs ->
    order md = 2 \/ Forall (fun p => p.1 <> u) pairs ->
    spec_pairs md rho u (m, e) pairs = Some (m', e') ->
    row (dim md) m' InVertex u = row (dim md) m InVertex u.
Proof.
  induction pairs as [|p pairs IH]; intros m m' e e' Hd Hshape Hu Hrange Hframe.
  - unfold spec_pairs. simpl. now intros [= <- _].
  - rewrite spec_pairs_cons. apply Forall_cons_1 in Hrange as [Hp Hrange].
    destruct (spec_pair md rho u (m, e) p) as [[m1 e1]|] eqn:Hsp; simpl; [|discriminate].
    intros Hrest.
    assert (Hp' : order md = 2 \/ p.1 <> u).
    { destruct Hframe as [?|Hall]; [now left|right].
      now apply Forall_cons_1 in Hall as [? _]. }
    assert (Hrest' : order md = 2 \/ Forall (fun p => p.1 <> u) pairs).
    { destruct Hframe as [?|Hall]; [now left|right].
      now apply Forall_cons_1 in Hall as [_ ?]. }
    rewrite (IH m1 m' e1 e' Hd) ; try assumption.
    + eapply spec_pair_frame; eauto.
    + destruct p as [t label].
      eapply (spec_pair_shaped md rho nv Hd u m m1 e e1 t label); eauto.
Qed.

End StepTheorem.

Lemma negative_targets_range (tbl : list Z) (nv : Z) (count : nat) :
  forall seed, 0 < nv -> Forall (fun t => 0 <= t < nv) tbl ->
    Forall (fun t => 0 <= t < nv) (negative_targets tbl seed count).1
    /\ length (negative_targets tbl seed count).1 = count.
Proof.
  induction count as [|count IH]; intros seed Hnv Htbl.
  - simpl. split; [constructor|reflexivity].
  - rewrite negative_targets_S. cbn [fst snd].
    destruct (IH (Rand seed).1 Hnv Htbl) as [IH1 IH2]. split.
    + constructor; [|exact IH1].
      unfold aget. destruct (decide (0 <= (Rand seed).2)); [|lia].
      destruct (tbl !! Z.to_nat (Rand seed).2) as [t|] eqn:Ht; simpl; [|lia].
      apply (Forall_lookup_1 _ _ _ _ Htbl Ht).
    + cbn [length]. now rewrite IH2.
Qed.

Section StepClaim.
Context {real double : Type} `{Platform real double}.

Lemma step_pairs_range (md : Model real double) (nv seed v : Z) :
  0 < nv -> 0 <= num_negative md -> Forall (fun t => 0 <= t < nv) (neg_table md) ->
  0 <= v < nv ->
  Forall (fun p : Z * Z => 0 <= p.1 < nv) (step_pairs md seed v)
  /\ length (step_pairs md seed v) = Z.to_nat (num_negative md + 1).
Proof.
  intros Hnv Hnn Htbl Hv. unfold step_pairs.
  destruct (negative_targets_range (neg_table md) nv (Z.to_nat (num_negative md)) seed
              Hnv Htbl) as [Hr Hl].
  split.
  - constructor; [exact Hv|]. apply Forall_fmap. exact Hr.
  - simpl. rewrite length_fmap, Hl. lia.
Qed.

(** C2: one training step of [TrainLINEThread] on a sampled edge [(u, v)],
    for order 1 or 2 and [num_negative >= 0].  The step handles
    [num_negative + 1] (target, label) pairs.  It computes what the step of
    the specification computes ([spec_train_edge]): for each pair, [x] is the
    dot product of the source row and the target row, [g = (label -
    FastSigmoid x) * rho], the error buffer receives [g * targetVec] with the
    target row as it was before the pair's write, and the target row receives
    [g * sourceVec] at once; the source row gets the error buffer added once,
    after the last pair.  During the pair loop the source row of the vertex
    matrix is not modified when the order is 2, or when no target is [u]. *)
Theorem train_edge_refines_spec (md : Model real double) (rho : real) (nv u v : Z)
    (st : PairState real) :
  step_ready md nv st -> 0 <= u < nv -> 0 <= v < nv ->
  length (step_pairs md (ps_seed st) v) = Z.to_nat (num_negative md + 1)
  /\ train_edge md rho u v st = spec_train_edge md rho u v st
  /\ (forall st' : PairState real,
        pair_rounds md rho (u * dim md) v
          (MkPair (ps_emb st) (replicate (Z.to_nat (dim md)) (of_int 0)) (ps_seed st))
        = Some st' ->
        order md = 2 \/ Forall (fun p : Z * Z => p.1 <> u) (step_pairs md (ps_seed st) v) ->
        row (dim md) (ps_emb st') InVertex u = row (dim md) (ps_emb st) InVertex u).
Proof.
  intros [Hd Ho Hnn Hnv Hv Hc He Htbl] Hu Hvr.
  destruct (step_pairs_range md nv (ps_seed st) v Hnv Hnn Htbl Hvr) as [Hrange Hlen].
  assert (Hzero : shaped (dim md) nv (ps_emb st) (replicate (Z.to_nat (dim md)) (of_int 0))).
  { split; [exact Hv|split; [exact Hc|]]. unfold zlen. rewrite length_replicate. lia. }
  split; [exact Hlen|split].
  - unfold train_edge, spec_train_edge. cbv zeta.
    rewrite zero_loop by (assumption || lia).
    rewrite (pair_rounds_spec md rho nv Hd Ho Hnv Htbl u v) by assumption.
    cbn [ps_emb ps_error ps_seed].
    destruct (spec_pairs md rho u (ps_emb st, replicate (Z.to_nat (dim md)) (of_int 0))
                (step_pairs md (ps_seed st) v)) as [[m e]|] eqn:Hsp; simpl; [|reflexivity].
    assert (Hshape : shaped (dim md) nv m e).
    { clear Hlen. revert Hsp Hzero Hrange.
      generalize (replicate (Z.to_nat (dim md)) (of_int 0 : real)) (ps_emb st).
      induction (step_pairs md (ps_seed st) v) as [|[t label] ps IH]; intros e0 m0 Hsp Hsh Hr.
      - unfold spec_pairs in Hsp. simpl in Hsp. now injection Hsp as <- <-.
      - rewrite spec_pairs_cons in Hsp. apply Forall_cons_1 in Hr as [Ht Hr].
        destruct (spec_pair md rho u (m0, e0) (t, label)) as [[m1 e1]|] eqn:H1;
          simpl in Hsp; [|discriminate].
        apply (IH e1 m1 Hsp); [|exact Hr].
        eapply (spec_pair_shaped md rho nv Hd u m0 m1 e0 e1 t label); eauto. }
    rewrite (source_update (dim md) nv m u e Hd Hu Hshape). reflexivity.
  - intros st' Hrounds Hframe.
    rewrite (pair_rounds_spec md rho nv Hd Ho Hnv Htbl u v) in Hrounds by assumption.
    cbn [ps_emb ps_error ps_seed] in Hrounds.
    destruct (spec_pairs md rho u (ps_emb st, replicate (Z.to_nat (dim md)) (of_int 0))
                (step_pairs md (ps_seed st) v)) as [[m e]|] eqn:Hsp; simpl in Hrounds;
      [|discriminate].
    injection Hrounds as <-. simpl.
    eapply (spec_pairs_frame md rho nv u); eauto.
Qed.

End StepClaim.

Lemma train_edge_refines_spec_witness :
  (length (step_pairs example_model (ps_seed example_state) 1)
   = Z.to_nat (num_negative example_model + 1)
   /\ train_edge example_model (1 # 40) 0 1 example_state
      = spec_train_edge example_model (1 # 40) 0 1 example_state
   /\ (forall st' : PairState Q,
         pair_rounds example_model (1 # 40) (0 * dim example_model) 1
           (MkPair (ps_emb example_state)
                   (replicate (Z.to_nat (dim example_model)) (of_int 0))
                   (ps_seed example_state)) = Some st' ->
         order example_model = 2
         \/ Forall (fun p : Z * Z => p.1 <> 0)
              (step_pairs example_model (ps_seed example_state) 1) ->
         row (dim example_model) (ps_emb st') InVertex 0
         = row (dim example_model) (ps_emb example_state) InVertex 0))
  /\ is_Some (train_edge example_model (1 # 40) 0 1 example_state).
Proof.
  assert (R : step_ready example_model 2 example_state).
  { constructor; simpl; try lia; try reflexivity. repeat constructor; lia. }
  pose proof (train_edge_refines_spec example_model (1 # 40) 2 0 1 example_state R) as T.
  split.
  - apply T; lia.
  - vm_compute. eauto.
Defined.

(** ** The worker loop *)

Section WorkerLoop.
Context {real double : Type} `{Platform real double}.
Variable md : Model real double.
Variable draws : Z -> double * double.

Lemma report_count (sh : Shared real) (w : Worker real) :
  w_count (report md sh w).2 = w_count w.
Proof. unfold report. destruct (_ <? _); reflexivity. Qed.

(** A full iteration is one more sample on the local counter. *)
Lemma iteration_count (draw : double * double) (sh sh' : Shared real) (w w' : Worker real) :
  iteration md draw sh w = Some (sh', w') -> w_count w' = w_count w + 1.
Proof.
  unfold iteration. pose proof (report_count sh w) as Hc.
  destruct (report md sh w) as [sh1 w1]. simpl in Hc.
  destruct (SampleAnEdge _ _ _ _ _) as [curedge|]; simpl; [|discriminate].
  destruct (aget None (Some <$> source_id md) curedge) as [u|]; simpl; [|discriminate].
  destruct (aget None (Some <$> target_id md) curedge) as [v|]; simpl; [|discriminate].
  destruct (train_edge _ _ _ _ _) as [st|]; simpl; [|discriminate].
  intros [= <- <-]. simpl. lia.
Qed.

(** The loop counts its iterations: it can only leave with the counter at
    the bound, and while it runs the counter is the number of rounds made. *)
Lemma TrainLINEThread_loop_count (bound : Z) (fuel : nat) :
  bound = Z.quot (total_samples md) (num_threads md) + 3 ->
  forall (sh : Shared real) (w : Worker real),
    w_count w <= bound ->
    match TrainLINEThread_loop fuel md draws sh w with
    | Exited sh' w' => w_count w' = bound
    | Running sh' w' =>
        w_count w' = w_count w + Z.of_nat fuel /\ w_count w' <= bound
    | Undefined => True
    end.
Proof.
  intros Hb. induction fuel as [|fuel IH]; intros sh w Hw.
  - simpl. lia.
  - cbn [TrainLINEThread_loop].
    destruct (Z.ltb_spec (Z.quot (total_samples md) (num_threads md) + 2) (w_count w))
      as [Hexit|Hstay].
    + lia.
    + destruct (iteration md (draws (w_count w)) sh w) as [[sh' w']|] eqn:Hit; [|exact I].
      apply iteration_count in Hit.
      specialize (IH sh' w' ltac:(lia)).
      destruct (TrainLINEThread_loop fuel md draws sh' w'); [exact IH| |exact I].
      lia.
Qed.

End WorkerLoop.

Section WorkerClaim.
Context {real double : Type} `{Platform real double}.

(** C8: the loop of a worker ends.  With [num_threads = N >= 1] and
    [total_samples = T >= 0], the loop leaves through its exit test as soon
    as the local counter exceeds [T / N + 2]: a run of more than [T / N + 3]
    rounds is never still in the loop, it has left with the counter at
    exactly [T / N + 3], one per full iteration (or an iteration has made an
    undefined read); and at any earlier point the number of full iterations
    made is the number of rounds, at most [T / N + 3]. *)
Theorem TrainLINEThread_terminates (md : Model real double)
    (draws : Z -> double * double) (id : Z) (sh : Shared real) (fuel : nat) :
  1 <= num_threads md -> 0 <= total_samples md ->
  match TrainLINEThread fuel md draws id sh with
  | Exited sh' w' => w_count w' = Z.quot (total_samples md) (num_threads md) + 3
  | Running sh' w' =>
      w_count w' = Z.of_nat fuel
      /\ Z.of_nat fuel <= Z.quot (total_samples md) (num_threads md) + 3
  | Undefined => True
  end.
Proof.
  intros HN HT. unfold TrainLINEThread.
  assert (Hq : 0 <= Z.quot (total_samples md) (num_threads md))
    by (apply Z.quot_pos; lia).
  pose proof (TrainLINEThread_loop_count md draws _ fuel eq_refl sh
                (MkWorker 0 0 (id mod 2 ^ 64) (replicate (Z.to_nat (dim md)) (of_int 0)))
                ltac:(simpl; lia)) as Hl.
  destruct (TrainLINEThread_loop _ _ _ _ _); [exact Hl| |exact I].
  simpl in Hl. lia.
Qed.

End WorkerClaim.

Lemma TrainLINEThread_terminates_witness :
  exists sh' w',
    TrainLINEThread 8 example_worker_model example_draws 0 example_shared = Exited sh' w'
    /\ w_count w' = 7.
Proof.
  pose proof (TrainLINEThread_terminates example_worker_model example_draws 0
                example_shared 8 ltac:(simpl; lia) ltac:(simpl; lia)) as T.
  assert (E : match TrainLINEThread 8 example_worker_model example_draws 0 example_shared
              with Exited _ _ => true | _ => false end = true)
    by (vm_compute; reflexivity).
  destruct (TrainLINEThread 8 example_worker_model example_draws 0 example_shared)
    as [sh' w'|sh' w'|].
  - exists sh', w'. split; [reflexivity|exact T].
  - discriminate E.
  - discriminate E.
Defined.

(** ** The learning rate *)

Section LearningRate.
Context {real double : Type} `{Platform real double}.
Variable md : Model real double.

Lemma report_rho (sh : Shared real) (w : Worker real) :
  sh_rho (report md sh w).1
  = if 10000 <? w_count w - w_last_count w
    then rho_clamp md (rho_decay md (sh_count sh + (w_count w - w_last_count w)))
    else sh_rho sh.
Proof. unfold report. destruct (_ <? _); reflexivity. Qed.

(** The step on an edge reads the learning rate and never writes it. *)
Lemma iteration_rho (draw : double * double) (sh sh' : Shared real) (w w' : Worker real) :
  iteration md draw sh w = Some (sh', w') -> sh_rho sh' = sh_rho (report md sh w).1.
Proof.
  unfold iteration. destruct (report md sh w) as [sh1 w1].
  destruct (SampleAnEdge _ _ _ _ _) as [curedge|]; simpl; [|discriminate].
  destruct (aget None (Some <$> source_id md) curedge) as [u|]; simpl; [|discriminate].
  destruct (aget None (Some <$> target_id md) curedge) as [v|]; simpl; [|discriminate].
  destruct (train_edge _ _ _ _ _) as [st|]; simpl; [|discriminate].
  now intros [= <- _].
Qed.

(** What a report stores, in any arithmetic: the floor rounded to [real],
    or a rate the test did not find below the floor. *)
Lemma rho_clamp_cases (r : real) :
  rho_clamp md r = narrow (rho_floor md)
  \/ (rho_clamp md r = r /\ (widen r <? rho_floor md)%A = false).
Proof.
  unfold rho_clamp. destruct (widen r <? rho_floor md)%A; [left|right]; auto.
Qed.

(** A property of the learning rate that the floor has and that every rate
    the test lets through has is kept by the loop. *)
Lemma TrainLINEThread_loop_rho (P : real -> Prop) (draws : Z -> double * double) :
  (forall r, P (rho_clamp md r)) ->
  forall (fuel : nat) (sh : Shared real) (w : Worker real),
    P (sh_rho sh) ->
    match TrainLINEThread_loop fuel md draws sh w with
    | Exited sh' _ | Running sh' _ => P (sh_rho sh')
    | Undefined => True
    end.
Proof.
  intros Hclamp. induction fuel as [|fuel IH]; intros sh w HP.
  - exact HP.
  - cbn [TrainLINEThread_loop]. destruct (_ <? w_count w); [exact HP|].
    destruct (iteration md (draws (w_count w)) sh w) as [[sh' w']|] eqn:Hit; [|exact I].
    apply IH. rewrite (iteration_rho _ _ _ _ _ Hit), report_rho.
    destruct (_ <? _); [apply Hclamp|exact HP].
Qed.

End LearningRate.

Lemma rho_floor_Q (md : Model Q Q) : rho_floor md = (init_rho md * (1 / inject_Z 10000))%Q.
Proof. reflexivity. Qed.

Lemma rho_clamp_Q (md : Model Q Q) (r : Q) :
  (rho_clamp md r == Qmax (rho_floor md) r)%Q /\ (rho_floor md <= rho_clamp md r)%Q.
Proof.
  unfold rho_clamp. change (widen r) with r. cbn [ltb real_ops double_ops exact_platform Q_arith].
  destruct (Q_ltb r (rho_floor md)) eqn:E.
  - apply Q_ltb_lt in E. change (narrow (rho_floor md)) with (rho_floor md). split.
    + symmetry. apply Q.max_l. now apply Qlt_le_weak.
    + apply Qle_refl.
  - apply Q_ltb_ge in E. split.
    + symmetry. now apply Q.max_r.
    + exact E.
Qed.

(** C5 (as amended).  In exact arithmetic, for [init_rho > 0] (and
    [total_samples >= 0], which keeps the divisor [total_samples + 1]
    positive).  The rate [TrainLINEMain] starts with is not below
    [init_rho / 10000].  Each time the local counter is more than 10000 past
    the last report, the block makes two stores into the shared [rho]: first
    the decayed rate [init_rho * (1 - progress / (total_samples + 1))], as it
    is, where [progress] is the global counter after the worker's samples
    are added; then the clamp, which leaves the larger of [init_rho / 10000]
    and the decayed rate, so the rate the block leaves is not below
    [init_rho / 10000].  And for a worker that runs alone, whatever the state
    it starts from: if the rate is not below [init_rho / 10000] there, it is
    not below it at the end of any later round of its loop. *)
Theorem rho_floor_after_report (md : Model Q Q) :
  (0 < init_rho md)%Q -> 0 <= total_samples md ->
  (init_rho md * (1 # 10000) <= init_rho md)%Q
  /\ (forall (sh : Shared Q) (w : Worker Q),
        10000 < w_count w - w_last_count w ->
        (sh_rho (report_decay md sh w).1
         == init_rho md * (1 - inject_Z (sh_count sh + (w_count w - w_last_count w))
                                / inject_Z (total_samples md + 1)))%Q
        /\ (sh_rho (report md sh w).1
            == Qmax (init_rho md * (1 # 10000)) (sh_rho (report_decay md sh w).1))%Q
        /\ (init_rho md * (1 # 10000) <= sh_rho (report md sh w).1)%Q)
  /\ (forall (draws : Z -> Q * Q) (fuel : nat) (sh : Shared Q) (w : Worker Q),
        (init_rho md * (1 # 10000) <= sh_rho sh)%Q ->
        match TrainLINEThread_loop fuel md draws sh w with
        | Exited sh' _ | Running sh' _ => (init_rho md * (1 # 10000) <= sh_rho sh')%Q
        | Undefined => True
        end).
Proof.
  intros Hpos HT.
  assert (Hfloor : (rho_floor md == init_rho md * (1 # 10000))%Q).
  { rewrite rho_floor_Q. apply Qmult_comp; [reflexivity|]. reflexivity. }
  split; [|split].
  - rewrite <- (Qmult_1_r (init_rho md)) at 2.
    apply Qmult_le_l; [exact Hpos|]. discriminate.
  - intros sh w Hrep. rewrite report_rho.
    destruct (Z.ltb_spec 10000 (w_count w - w_last_count w)) as [_|?]; [|lia].
    destruct (rho_clamp_Q md (rho_decay md (sh_count sh + (w_count w - w_last_count w))))
      as [Hmax Hge].
    split; [reflexivity|]. split.
    + rewrite Hmax. apply Q.max_compat; [exact Hfloor|]. reflexivity.
    + rewrite <- Hfloor. exact Hge.
  - intros draws fuel sh w Hsh.
    apply (TrainLINEThread_loop_rho md
             (fun r => (init_rho md * (1 # 10000) <= r)%Q) draws); [|exact Hsh].
    intros r. rewrite <- Hfloor. apply rho_clamp_Q.
Qed.

Lemma rho_floor_after_report_witness :
  ((1 # 40) * (1 # 10000) <= (1 # 40))%Q
  /\ (forall (sh : Shared Q) (w : Worker Q),
        10000 < w_count w - w_last_count w ->
        (sh_rho (report_decay default_model_exact sh w).1
         == (1 # 40) * (1 - inject_Z (sh_count sh + (w_count w - w_last_count w))
                            / inject_Z (1000000000 + 1)))%Q
        /\ (sh_rho (report default_model_exact sh w).1
            == Qmax ((1 # 40) * (1 # 10000))
                    (sh_rho (report_decay default_model_exact sh w).1))%Q
        /\ ((1 # 40) * (1 # 10000) <= sh_rho (report default_model_exact sh w).1)%Q)
  /\ (forall (draws : Z -> Q * Q) (fuel : nat) (sh : Shared Q) (w : Worker Q),
        ((1 # 40) * (1 # 10000) <= sh_rho sh)%Q ->
        match TrainLINEThread_loop fuel default_model_exact draws sh w with
        | Exited sh' _ | Running sh' _ => ((1 # 40) * (1 # 10000) <= sh_rho sh')%Q
        | Undefined => True
        end).
Proof.
  apply (rho_floor_after_report default_model_exact).
  - reflexivity.
  - simpl. lia.
Defined.

(** C5 as stated fails, on two counts, at the last report of a run of a
    thousand million samples by two workers.  In exact arithmetic, the first
    store of the block leaves in the shared [rho] the decayed rate
    [init_rho * 11 / 1000000001], far below [init_rho / 10000], until the
    clamp replaces it: a point of the training at which [rho] is below the
    floor, and at which the other worker's [Update] can read it.  And in the
    arithmetic of the source, with the default [init_rho = 0.025f], the rate
    the clamp stores is the [double] product [init_rho * 0.0001] rounded to
    [float], 10995116 * 2^-42, which is below [init_rho / 10000] (so it is
    not the larger of the two rates either); the test
    [rho < init_rho * 0.0001] of the source still holds after the
    assignment. *)
Lemma rho_below_floor :
  ((sh_rho (report_decay default_model_exact late_shared_exact late_worker_exact).1
    < init_rho default_model_exact * (1 # 10000))%Q
   /\ (sh_rho (report_decay default_model_exact late_shared_exact late_worker_exact).1
       == init_rho default_model_exact * (11 # 1000000001))%Q)
  /\ (exact (sh_rho (report default_model late_shared late_worker).1)
      < exact (init_rho default_model) * (1 # 10000))%Q
  /\ (widen (sh_rho (report default_model late_shared late_worker).1)
      <? rho_floor default_model)%A = true.
Proof. repeat split; vm_compute; reflexivity. Qed.

(** ** The set-up sequence *)

(** When one of the allocations that the source tests fails, the run
    returns before the workers are created. *)
Lemma TrainLINEMain_setup_tested (s : site) (order num_edges : Z) :
  tested s = true -> TrainLINEMain_setup (fails_at s) false order num_edges = Returned.
Proof.
  intros Hs. unfold TrainLINEMain_setup, VectorReadData_alloc.
  destruct (negb (order =? 1) && negb (order =? 2)); [reflexivity|].
  destruct s; try discriminate Hs; destruct (0 <? num_edges); reflexivity.
Qed.

(** When every allocation succeeds the workers are created. *)
Lemma TrainLINEMain_setup_ok (order num_edges : Z) :
  order = 1 \/ order = 2 ->
  TrainLINEMain_setup (fun _ => true) false order num_edges = Spawned.
Proof.
  intros [-> | ->]; unfold TrainLINEMain_setup, VectorReadData_alloc; simpl;
    destruct (0 <? num_edges); reflexivity.
Qed.

(** C6, the code at a failing input.  When the allocation of the negative
    table fails and every other one succeeds, [TrainLINEMain] does not
    return: [InitNegTable] stores into [neg_table[0]] through the null
    pointer.  The same holds for the sigmoid table.  The allocations made
    before them are tested: a failure of the context matrix makes the run
    return. *)
Theorem TrainLINEMain_setup_untested (num_edges : Z) :
  TrainLINEMain_setup (fails_at at_neg_table) false 2 num_edges = Crashed at_neg_table
  /\ TrainLINEMain_setup (fails_at at_sigmoid_table) false 2 num_edges
     = Crashed at_sigmoid_table
  /\ TrainLINEMain_setup (fails_at at_emb_context) false 2 num_edges = Returned.
Proof.
  unfold TrainLINEMain_setup, VectorReadData_alloc. simpl.
  destruct (0 <? num_edges); simpl; repeat split.
Qed.

(** * Further properties of the code *)

(** ** The vertex table after loading *)

Section LoadedIndex.
Context {D : Type} `{Arith D}.

(** X1.  Looking a name up in the table [VectorReadData] has built: a name
    of the input is found with the id of its first occurrence, any other
    name gives -1.  (The names fit the name buffers, the table has an empty
    cell left, and there is fuel for one probe per vertex and one more.) *)
Theorem SearchHashTable_after_load (fuel : nat) (max : Z)
    (input_u input_v : list string) (input_w : list D) (nm : string) :
  length input_v = length input_u -> length input_w = length input_u ->
  Forall short_name input_u -> Forall short_name input_v ->
  Z.of_nat (length (spec_rows [] input_u input_v).2) < hash_table_size ->
  (length (spec_rows [] input_u input_v).2 < fuel)%nat ->
  exists g, VectorReadData fuel (InitHashTable max) input_u input_v input_w = Some g /\
    SearchHashTable fuel (vindex g) nm
    = Some (match index_of nm (spec_rows [] input_u input_v).2 with
            | Some i => Z.of_nat i
            | None => -1
            end).
Proof.
  intros Hlv Hlw Hsu Hsv Hcap Hfuel. unfold VectorReadData. simpl.
  destruct (read_rows_spec fuel input_u input_v input_w
              (MkGraph (MkIndex [] 0 max ∅) [] [] []))
    as (g & Hrun & Hinv & Hn & _); simpl; try assumption; try lia.
  { apply (InitHashTable_inv max). }
  simpl in Hn. exists g. split; [exact Hrun|].
  assert (Hlen : length (vertex (vindex g)) = length (spec_rows [] input_u input_v).2).
  { rewrite <- Hn. now rewrite length_fmap. }
  destruct (index_of nm (spec_rows [] input_u input_v).2) as [i|] eqn:Hidx.
  - apply index_of_Some in Hidx. rewrite <- Hn in Hidx.
    apply (SearchHashTable_present _ _ _ _ Hinv Hidx). lia.
  - apply index_of_None in Hidx. rewrite <- Hn in Hidx.
    apply (SearchHashTable_absent _ _ _ Hinv Hidx); lia.
Qed.

Lemma visit_has_room (fuel : nat) (ix ix' : VertexIndex D) (nm : string) (w : D) (vid : Z) :
  visit fuel ix nm w = Some (vid, ix') -> has_room ix ->
  has_room ix' /\ num_vertices ix <= num_vertices ix'
  /\ max_num_vertices ix <= max_num_vertices ix'.
Proof.
  unfold visit, has_room.
  destruct (SearchHashTable fuel ix nm) as [found|]; simpl; [|discriminate].
  destruct (found =? -1).
  - unfold AddVertex. cbv zeta.
    destruct (InsertHashTable fuel _ nm _) as [t|]; simpl; [|discriminate].
    intros [= <- <-] Hroom. simpl.
    destruct (Z.geb_spec (num_vertices ix + 1 + 2) (max_num_vertices ix)); lia.
  - simpl. intros [= <- <-] Hroom. simpl. lia.
Qed.

Lemma read_rows_has_room (fuel : nat) (us vs : list string) (ws : list D) :
  forall g g' : Graph D,
    read_rows fuel us vs ws g = Some g' -> has_room (vindex g) ->
    has_room (vindex g') /\ max_num_vertices (vindex g) <= max_num_vertices (vindex g').
Proof.
  revert vs ws. induction us as [|u us IH]; intros vs ws g g'.
  - simpl. intros [= <-] Hroom. split; [exact Hroom|lia].
  - destruct vs as [|v vs]; [discriminate|]. destruct ws as [|w ws]; [discriminate|].
    simpl.
    destruct (strcpy_name u) as [n1|]; simpl; [|discriminate].
    destruct (strcpy_name v) as [n2|]; simpl; [|discriminate].
    destruct (visit fuel (vindex g) n1 w) as [[vid1 ix1]|] eqn:V1; simpl; [|discriminate].
    destruct (visit fuel ix1 n2 w) as [[vid2 ix2]|] eqn:V2; simpl; [|discriminate].
    intros Hrun Hroom.
    destruct (visit_has_room _ _ _ _ _ _ V1 Hroom) as (R1 & _ & M1).
    destruct (visit_has_room _ _ _ _ _ _ V2 R1) as (R2 & _ & M2).
    destruct (IH _ _ _ _ Hrun R2) as [R3 M3]. simpl in M3. split; [exact R3|lia].
Qed.

(** X2.  The vertex array never overflows: when [VectorReadData] starts with
    an array of more than two entries (it has 1000 at the first call), the
    capacity [max_num_vertices] stays more than two entries ahead of
    [num_vertices], so every [vertex[num_vertices]] that [AddVertex] writes
    lies inside the array; the capacity never shrinks. *)
Theorem VectorReadData_has_room (fuel : nat) (max : Z)
    (input_u input_v : list string) (input_w : list D) (g : Graph D) :
  VectorReadData fuel (InitHashTable max) input_u input_v input_w = Some g ->
  2 < max ->
  num_vertices (vindex g) + 2 < max_num_vertices (vindex g)
  /\ max <= max_num_vertices (vindex g).
Proof.
  unfold VectorReadData. intros Hrun Hmax.
  apply (read_rows_has_room _ _ _ _ _ _ Hrun). unfold has_room. simpl. lia.
Qed.

End LoadedIndex.

Lemma SearchHashTable_after_load_witness :
  exists g, VectorReadData 4 (InitHashTable 1000) ["B"; "B"]%string ["A"; "C"]%string
              [1%Q; 1%Q] = Some g /\
    SearchHashTable 4 (vindex g) "C"%string
    = Some (match index_of "C"%string
                    (spec_rows [] ["B"; "B"]%string ["A"; "C"]%string).2 with
            | Some i => Z.of_nat i
            | None => -1
            end).
Proof.
  apply (SearchHashTable_after_load 4 1000 ["B"; "B"]%string ["A"; "C"]%string
           [1%Q; 1%Q] "C"%string).
  - reflexivity.
  - reflexivity.
  - repeat constructor.
  - repeat constructor.
  - vm_compute. reflexivity.
  - vm_compute. lia.
Defined.

Lemma VectorReadData_has_room_witness :
  exists g, VectorReadData 4 (InitHashTable 1000) ["B"; "B"]%string ["A"; "C"]%string
              [1%Q; 1%Q] = Some g /\
    num_vertices (vindex g) + 2 < max_num_vertices (vindex g)
    /\ 1000 <= max_num_vertices (vindex g).
Proof.
  eexists. split; [vm_compute; reflexivity|].
  apply (VectorReadData_has_room 4 1000 ["B"; "B"]%string ["A"; "C"]%string [1%Q; 1%Q]).
  - vm_compute. reflexivity.
  - lia.
Defined.

(** ** The alias table *)

Lemma aget_nil {A} (d : A) (i : Z) : aget d [] i = d.
Proof. unfold aget. destruct (decide (0 <= i)); reflexivity. Qed.

(** X3.  A graph without edges cannot be trained on: [SampleAnEdge] reads
    [prob[k]] in a table of no cell, whatever the draws and the arithmetic,
    so the first iteration of a worker is undefined. *)
Theorem TrainLINEThread_no_edge {real double : Type} `{Platform real double}
    (md : Model real double) (draws : Z -> double * double) (id : Z)
    (sh : Shared real) (fuel : nat) :
  edge_prob md = [] -> 0 <= Z.quot (total_samples md) (num_threads md) + 2 ->
  InitAliasTable (D := double) fuel [] = Some ([], [])
  /\ (forall (w : Worker real) (draw : double * double), iteration md draw sh w = None)
  /\ TrainLINEThread (S fuel) md draws id sh = Undefined.
Proof.
  intros Hprob HT.
  assert (Hit : forall (sh0 : Shared real) (w : Worker real) (draw : double * double),
             iteration md draw sh0 w = None).
  { intros sh0 w draw. unfold iteration. destruct (report md sh0 w) as [sh1 w1].
    unfold SampleAnEdge. rewrite Hprob. cbv zeta.
    rewrite aget_nil. reflexivity. }
  split; [|split].
  - destruct fuel; reflexivity.
  - intros w draw. apply Hit.
  - unfold TrainLINEThread. cbn [TrainLINEThread_loop w_count].
    destruct (Z.ltb_spec (Z.quot (total_samples md) (num_threads md) + 2) 0) as [?|_];
      [lia|].
    now rewrite Hit.
Qed.

Lemma TrainLINEThread_no_edge_witness :
  InitAliasTable (D := Q) 0 [] = Some ([], [])
  /\ (forall (w : Worker Q) (draw : Q * Q),
        iteration (MkModel 2 2 0 1 0 (1 # 40) [] [] [] [] [] []) draw example_shared w = None)
  /\ TrainLINEThread 1 (MkModel 2 2 0 1 0 (1 # 40) [] [] [] [] [] []) example_draws 0
       example_shared = Undefined.
Proof.
  apply (TrainLINEThread_no_edge (MkModel 2 2 0 1 0 (1 # 40) [] [] [] [] [] [])
           example_draws 0 example_shared 0).
  - reflexivity.
  - vm_compute. discriminate.
Defined.

(** X4.  In exact arithmetic the entries of [prob] are probabilities: on a
    non-empty vector of positive weights, every cell of [prob] is written
    and holds a value of [[0, 1]]. *)
Theorem InitAliasTable_prob_range (fuel : nat) (w : list Q) (k : Z) :
  w <> [] -> Forall (fun x => (0 < x)%Q) w -> (length w <= fuel)%nat ->
  in_table (length w) k ->
  exists prob alias p, InitAliasTable fuel w = Some (prob, alias)
    /\ aget None prob k = Some p /\ (0 <= p)%Q /\ (p <= 1)%Q.
Proof.
  intros Hne Hw Hfuel Hk.
  destruct (InitAliasTable_exact fuel w Hne Hw Hfuel) as (prob & alias & Hrun & Hp & _).
  destruct (Hp k Hk) as (p & Hget & H0 & H1).
  exists prob, alias, p. auto.
Qed.

Lemma InitAliasTable_prob_range_witness :
  exists prob alias p, InitAliasTable 3 [1%Q; 2%Q; 5%Q] = Some (prob, alias)
    /\ aget None prob 1 = Some p /\ (0 <= p)%Q /\ (p <= 1)%Q.
Proof.
  apply (InitAliasTable_prob_range 3 [1%Q; 2%Q; 5%Q] 1).
  - discriminate.
  - repeat constructor.
  - simpl. lia.
  - unfold in_table. simpl. lia.
Defined.

(** ** The negative table *)

(** X5.  The walk of [InitNegTable] never skips a vertex and never steps
    back: in every arithmetic and for every [pow], consecutive slots of the
    table hold the same id or ids that differ by one, and slot [k] holds an
    id of at most [k].  (So a vertex whose share is far below one slot
    still takes a slot, and vertex [v] cannot appear before slot [v].) *)
Theorem InitNegTable_steps {D : Type} `{Arith D} (pow : D -> D -> D)
    (degrees : list D) (k : Z) :
  0 <= k -> k + 1 < neg_table_size ->
  aget (-1) (InitNegTable pow degrees) k <= aget (-1) (InitNegTable pow degrees) (k + 1)
  /\ aget (-1) (InitNegTable pow degrees) (k + 1)
     <= aget (-1) (InitNegTable pow degrees) k + 1
  /\ -1 <= aget (-1) (InitNegTable pow degrees) k <= k.
Proof.
  intros Hk0 Hk1.
  assert (Hget : forall j : nat, Z.of_nat j < neg_table_size ->
            aget (-1) (InitNegTable pow degrees) (Z.of_nat j)
            = vid (neg_state pow degrees (neg_sum pow degrees) (S j)) - 1).
  { intros j Hj. unfold aget. rewrite decide_True by lia.
    rewrite Nat2Z.id, (InitNegTable_lookup pow degrees j Hj). reflexivity. }
  rewrite <- (Z2Nat.id k) by lia.
  replace (Z.of_nat (Z.to_nat k) + 1) with (Z.of_nat (S (Z.to_nat k))) by lia.
  rewrite !Hget by lia.
  pose proof (neg_state_mono pow degrees (neg_sum pow degrees) (S (Z.to_nat k))) as Hmono.
  destruct (neg_state_inv pow degrees (neg_sum pow degrees) (S (Z.to_nat k))) as [Hvid _].
  assert (Hstep : vid (neg_state pow degrees (neg_sum pow degrees) (S (S (Z.to_nat k))))
                  <= vid (neg_state pow degrees (neg_sum pow degrees) (S (Z.to_nat k))) + 1).
  { rewrite (neg_state_S pow degrees _ (S (Z.to_nat k))). unfold neg_step. cbv zeta.
    destruct (_ <? _)%A; simpl; lia. }
  lia.
Qed.

Lemma InitNegTable_steps_witness :
  aget (-1) (InitNegTable pow_three_quarters [1%Q; 1%Q; 16%Q]) 7
  <= aget (-1) (InitNegTable pow_three_quarters [1%Q; 1%Q; 16%Q]) (7 + 1)
  /\ aget (-1) (InitNegTable pow_three_quarters [1%Q; 1%Q; 16%Q]) (7 + 1)
     <= aget (-1) (InitNegTable pow_three_quarters [1%Q; 1%Q; 16%Q]) 7 + 1
  /\ -1 <= aget (-1) (InitNegTable pow_three_quarters [1%Q; 1%Q; 16%Q]) 7 <= 7.
Proof.
  apply (InitNegTable_steps pow_three_quarters [1%Q; 1%Q; 16%Q] 7).
  - lia.
  - unfold neg_table_size. lia.
Defined.

(** X6.  Every negative sample is a vertex: in exact arithmetic, when the
    weights [degree^0.75] have a positive sum, the index [Rand] returns lies
    inside the table for every seed, the entry it selects is a vertex id,
    and the new seed is an [unsigned long long]. *)
Theorem Rand_draws_vertex (pow : Q -> Q -> Q) (degrees : list Q) (seed : Z) :
  (0 < neg_sum pow degrees)%Q ->
  0 <= (Rand seed).2 < zlen (InitNegTable pow degrees)
  /\ 0 <= aget (-1) (InitNegTable pow degrees) (Rand seed).2 < zlen degrees
  /\ 0 <= (Rand seed).1 < 2 ^ 64.
Proof.
  intros Hpos. rewrite length_InitNegTable.
  assert (Hr : 0 <= (Rand seed).2 < neg_table_size).
  { unfold Rand. cbn [snd]. apply Z.mod_pos_bound. reflexivity. }
  split; [exact Hr|]. split.
  - destruct (InitNegTable_valid pow degrees Hpos (Z.to_nat (Rand seed).2))
      as (v & Hv & Hrange); [lia|].
    unfold aget. rewrite decide_True by lia. rewrite Hv. exact Hrange.
  - unfold Rand. cbn [fst]. apply Z.mod_pos_bound. reflexivity.
Qed.

Lemma Rand_draws_vertex_witness :
  0 <= (Rand 42).2 < zlen (InitNegTable pow_three_quarters [1%Q; 1%Q; 16%Q])
  /\ 0 <= aget (-1) (InitNegTable pow_three_quarters [1%Q; 1%Q; 16%Q]) (Rand 42).2
     < zlen [1%Q; 1%Q; 16%Q]
  /\ 0 <= (Rand 42).1 < 2 ^ 64.
Proof.
  apply (Rand_draws_vertex pow_three_quarters [1%Q; 1%Q; 16%Q] 42).
  reflexivity.
Defined.

(** ** The sigmoid table *)

(** X7.  What a lookup returns, in exact arithmetic: for [-6 <= x < 6] the
    cell read is written, and it holds the sigmoid of an integer [m] of
    [-6 .. 5] with [m <= x < m + 1 + 12/1000] — the abscissa of the value
    can be more than a unit below [x], not a bucket width. *)
Theorem FastSigmoid_exact_abscissa (exp : Q -> Q) (x : Q) :
  (- (6) <= x)%Q -> (x < 6)%Q ->
  exists m : Z,
    FastSigmoid (InitSigmoidTable exp) x = Some (1 / (1 + exp (- inject_Z m)))%Q
    /\ -6 <= m <= 5
    /\ (inject_Z m <= x)%Q /\ (x < inject_Z m + 1 + (12 # 1000))%Q.
Proof.
  intros Hlo Hhi.
  set (y := ((x + 6) * 1000 / 6 / 2)%Q).
  assert (Hy : (y == (x + 6) * (1000 # 12))%Q) by (unfold y; field).
  assert (Hy0 : (0 <= y)%Q) by (rewrite Hy; nra).
  assert (Hy1 : (y < 1000)%Q) by (rewrite Hy; nra).
  assert (Hidx : sigmoid_index x = Qfloor y).
  { unfold sigmoid_index. apply (Q_to_int_floor y Hy0). }
  pose proof (Qfloor_le y) as Hf1. pose proof (Qlt_floor y) as Hf2.
  set (k := Qfloor y) in *.
  assert (Hk0 : 0 <= k).
  { change 0 with (Qfloor 0). now apply Qfloor_resp_le. }
  assert (Hk1 : k < 1000).
  { rewrite Zlt_Qlt. rewrite inject_Z_plus in Hf2. change (inject_Z 1000) with 1000%Q. lra. }
  set (q := Z.quot (2 * SIGMOID_BOUND * k) sigmoid_table_size).
  assert (Hq : 1000 * q <= 12 * k < 1000 * q + 1000).
  { unfold q, SIGMOID_BOUND, sigmoid_table_size.
    rewrite Z.quot_div_nonneg by lia. change (2 * 6) with 12.
    pose proof (Z.div_mod (12 * k) 1000 ltac:(lia)) as Hdm.
    pose proof (Z.mod_pos_bound (12 * k) 1000 ltac:(lia)) as Hmb. lia. }
  exists (q - SIGMOID_BOUND). split; [|split; [|split]].
  - unfold FastSigmoid.
    replace (of_int SIGMOID_BOUND <? x)%A with false
      by (symmetry; apply Q_ltb_ge; exact (Qlt_le_weak _ _ Hhi)).
    replace (x <? of_int (- SIGMOID_BOUND))%A with false
      by (symmetry; apply Q_ltb_ge; exact Hlo).
    rewrite Hidx. fold k.
    rewrite InitSigmoidTable_cell by (unfold sigmoid_table_size; lia).
    reflexivity.
  - unfold SIGMOID_BOUND. lia.
  - assert (H12 : (inject_Z (1000 * q) <= inject_Z (12 * k))%Q)
      by (rewrite <- Zle_Qle; lia).
    rewrite !inject_Z_mult in H12.
    change (inject_Z 1000) with 1000%Q in H12. change (inject_Z 12) with 12%Q in H12.
    unfold SIGMOID_BOUND. unfold Z.sub. rewrite inject_Z_plus.
    change (inject_Z (- (6))) with (- (6))%Q.
    assert (Hxy : (12 * y == (x + 6) * 1000)%Q) by (rewrite Hy; field).
    lra.
  - assert (H12 : (inject_Z (12 * k) < inject_Z (1000 * q + 1000))%Q)
      by (rewrite <- Zlt_Qlt; lia).
    rewrite inject_Z_plus, !inject_Z_mult in H12.
    rewrite inject_Z_plus in Hf2. change (inject_Z 1) with 1%Q in Hf2.
    change (inject_Z 1000) with 1000%Q in H12. change (inject_Z 12) with 12%Q in H12.
    unfold SIGMOID_BOUND. unfold Z.sub. rewrite inject_Z_plus.
    change (inject_Z (- (6))) with (- (6))%Q.
    assert (Hxy : (12 * y == (x + 6) * 1000)%Q) by (rewrite Hy; field).
    lra.
Qed.

Lemma FastSigmoid_exact_abscissa_witness :
  exists m : Z,
    FastSigmoid (InitSigmoidTable example_exp) (99 # 100)
    = Some (1 / (1 + example_exp (- inject_Z m)))%Q
    /\ -6 <= m <= 5
    /\ (inject_Z m <= 99 # 100)%Q /\ (99 # 100 < inject_Z m + 1 + (12 # 1000))%Q.
Proof.
  apply (FastSigmoid_exact_abscissa example_exp (99 # 100)).
  - discriminate.
  - reflexivity.
Defined.

(** ** The training step *)

Section StepFrame.
Context {real double : Type} `{Platform real double}.

(** The pairs of a step keep the shapes, and write one matrix only: the
    vertex matrix under order 1, the context matrix otherwise. *)
Lemma spec_pairs_written (md : Model real double) (rho : real) (nv u : Z)
    (pairs : list (Z * Z)) :
  forall (m m' : Embeddings real) (e e' : list real),
    0 < dim md -> shaped (dim md) nv m e ->
    Forall (fun p : Z * Z => 0 <= p.1 < nv) pairs ->
    spec_pairs md rho u (m, e) pairs = Some (m', e') ->
    shaped (dim md) nv m' e'
    /\ (order md = 1 -> emb_context m' = emb_context m)
    /\ (order md <> 1 -> emb_vertex m' = emb_vertex m).
Proof.
  induction pairs as [|[t label] pairs IH]; intros m m' e e' Hd Hshape Hrange.
  - unfold spec_pairs. simpl. intros [= <- <-]. auto.
  - rewrite spec_pairs_cons. apply Forall_cons_1 in Hrange as [Ht Hrange].
    destruct (spec_pair md rho u (m, e) (t, label)) as [[m1 e1]|] eqn:Hsp; simpl;
      [|discriminate].
    intros Hrest.
    pose proof (spec_pair_shaped md rho nv Hd u m m1 e e1 t label Hshape Ht Hsp) as Hs1.
    destruct (IH m1 m' e1 e' Hd Hs1 Hrange Hrest) as (Hs' & Hc' & Hv').
    split; [exact Hs'|].
    unfold spec_pair in Hsp. simpl in Hsp.
    destruct (FastSigmoid _ _) as [s|]; simpl in Hsp; [|discriminate].
    injection Hsp as <- _. unfold target_matrix in Hc', Hv'. split.
    + intros Ho. rewrite (Hc' Ho). rewrite Ho. reflexivity.
    + intros Ho. rewrite (Hv' Ho).
      destruct (Z.eqb_spec (order md) 1) as [?|_]; [contradiction|]. reflexivity.
Qed.

Lemma train_edge_as_spec (md : Model real double) (rho : real) (nv u v : Z)
    (st : PairState real) :
  step_ready md nv st -> 0 <= u < nv -> 0 <= v < nv ->
  train_edge md rho u v st = spec_train_edge md rho u v st.
Proof.
  intros [Hd Ho Hnn Hnv Hv Hc He Htbl] Hu Hvr.
  destruct (step_pairs_range md nv (ps_seed st) v Hnv Hnn Htbl Hvr) as [Hrange _].
  assert (Hzero : shaped (dim md) nv (ps_emb st) (replicate (Z.to_nat (dim md)) (of_int 0))).
  { split; [exact Hv|split; [exact Hc|]]. unfold zlen. rewrite length_replicate. lia. }
  unfold train_edge, spec_train_edge. cbv zeta.
  rewrite zero_loop by (assumption || lia).
  rewrite (pair_rounds_spec md rho nv Hd Ho Hnv Htbl u v) by assumption.
  cbn [ps_emb ps_error ps_seed].
  destruct (spec_pairs md rho u (ps_emb st, replicate (Z.to_nat (dim md)) (of_int 0))
              (step_pairs md (ps_seed st) v)) as [[m e]|] eqn:Hsp; simpl; [|reflexivity].
  destruct (spec_pairs_written md rho nv u _ _ _ _ _ Hd Hzero Hrange Hsp) as [Hshape _].
  rewrite (source_update (dim md) nv m u e Hd Hu Hshape). reflexivity.
Qed.

(** X8.  What a training step leaves alone.  Under order 1 the context
    matrix is never written.  Under order 2 the only cells of the vertex
    matrix that change are those of the source row [u]: the targets are
    updated in the context matrix. *)
Theorem train_edge_frame (md : Model real double) (rho : real) (nv u v : Z)
    (st st' : PairState real) :
  step_ready md nv st -> 0 <= u < nv -> 0 <= v < nv ->
  train_edge md rho u v st = Some st' ->
  (order md = 1 -> emb_context (ps_emb st') = emb_context (ps_emb st))
  /\ (order md = 2 ->
      forall i, ~ (u * dim md <= i < u * dim md + dim md) ->
        aget (of_int 0) (emb_vertex (ps_emb st')) i
        = aget (of_int 0) (emb_vertex (ps_emb st)) i).
Proof.
  intros Hready Hu Hvr. rewrite (train_edge_as_spec md rho nv u v st Hready Hu Hvr).
  destruct Hready as [Hd Ho Hnn Hnv Hv Hc He Htbl].
  destruct (step_pairs_range md nv (ps_seed st) v Hnv Hnn Htbl Hvr) as [Hrange _].
  assert (Hzero : shaped (dim md) nv (ps_emb st) (replicate (Z.to_nat (dim md)) (of_int 0))).
  { split; [exact Hv|split; [exact Hc|]]. unfold zlen. rewrite length_replicate. lia. }
  unfold spec_train_edge. cbv zeta.
  destruct (spec_pairs md rho u (ps_emb st, replicate (Z.to_nat (dim md)) (of_int 0))
              (step_pairs md (ps_seed st) v)) as [[m e]|] eqn:Hsp; simpl; [|discriminate].
  destruct (spec_pairs_written md rho nv u _ _ _ _ _ Hd Hzero Hrange Hsp)
    as ((Hv' & Hc' & He') & Hctx & Hvtx).
  intros [= <-]. simpl. split.
  - exact Hctx.
  - intros Ho2 i Hi. rewrite <- (Hvtx ltac:(lia)).
    pose proof (length_row (dim md) m InVertex u ltac:(lia)) as L1.
    assert (Lz : zlen (zip_with add (row (dim md) m InVertex u) e) = dim md).
    { unfold zlen in *. rewrite length_zip_with. lia. }
    rewrite aget_replace_cells.
    + rewrite Lz. now rewrite decide_False by exact Hi.
    + nia.
    + rewrite Lz, Hv'.
      assert ((u + 1) * dim md <= nv * dim md) by (apply Z.mul_le_mono_nonneg_r; lia).
      lia.
Qed.

End StepFrame.

Lemma train_edge_frame_witness :
  exists st', train_edge example_model (1 # 40) 0 1 example_state = Some st'
    /\ (order example_model = 1 -> emb_context (ps_emb st') = emb_context (ps_emb example_state))
    /\ (order example_model = 2 ->
        forall i, ~ (0 * dim example_model <= i < 0 * dim example_model + dim example_model) ->
          aget (of_int 0) (emb_vertex (ps_emb st')) i
          = aget (of_int 0) (emb_vertex (ps_emb example_state)) i).
Proof.
  assert (R : step_ready example_model 2 example_state).
  { constructor; simpl; try lia; try reflexivity. repeat constructor; lia. }
  eexists. split; [vm_compute; reflexivity|].
  apply (train_edge_frame (H := exact_platform) example_model (1 # 40) 2 0 1
           example_state _ R); [lia|lia|].
  vm_compute. reflexivity.
Defined.

(** ** The progress counter *)

Section Progress.
Context {real double : Type} `{Platform real double}.
Variable md : Model real double.

(** What an iteration does to the counters. *)
Lemma iteration_counters (draw : double * double) (sh sh' : Shared real)
    (w w' : Worker real) :
  iteration md draw sh w = Some (sh', w') ->
  w_count w' = w_count w + 1
  /\ (if 10000 <? w_count w - w_last_count w
      then w_last_count w' = w_count w
           /\ sh_count sh' = sh_count sh + (w_count w - w_last_count w)
      else w_last_count w' = w_last_count w /\ sh_count sh' = sh_count sh).
Proof.
  unfold iteration, report.
  destruct (10000 <? w_count w - w_last_count w);
    (destruct (SampleAnEdge _ _ _ _ _) as [curedge|]; simpl; [|discriminate];
     destruct (aget None (Some <$> source_id md) curedge) as [u|]; simpl; [|discriminate];
     destruct (aget None (Some <$> target_id md) curedge) as [v|]; simpl; [|discriminate];
     destruct (train_edge _ _ _ _ _) as [st|]; simpl; [|discriminate];
     intros [= <- <-]; simpl; auto).
Qed.

Lemma TrainLINEThread_loop_counters (draws : Z -> double * double) (start : Z) (fuel : nat) :
  forall (sh : Shared real) (w : Worker real),
    sh_count sh = start + w_last_count w ->
    w_last_count w mod 10001 = 0 ->
    0 <= w_count w - w_last_count w <= 10001 ->
    match TrainLINEThread_loop fuel md draws sh w with
    | Exited sh' w' | Running sh' w' =>
        sh_count sh' = start + w_last_count w'
        /\ w_last_count w' mod 10001 = 0
        /\ 0 <= w_count w' - w_last_count w' <= 10001
    | Undefined => True
    end.
Proof.
  induction fuel as [|fuel IH]; intros sh w Hsum Hmod Hlag.
  - simpl. auto.
  - cbn [TrainLINEThread_loop]. destruct (_ <? w_count w); [auto|].
    destruct (iteration md (draws (w_count w)) sh w) as [[sh' w']|] eqn:Hit; [|exact I].
    apply iteration_counters in Hit. destruct Hit as [Hc Hrep].
    destruct (Z.ltb_spec 10000 (w_count w - w_last_count w)) as [Hgt|Hle];
      destruct Hrep as [Hl Hs].
    + apply IH; [lia| |lia].
      rewrite Hl. replace (w_count w) with (w_last_count w + 1 * 10001) by lia.
      rewrite Z.mod_add by lia. exact Hmod.
    + apply IH; [lia|congruence|lia].
Qed.

(** X9.  The accounting of the progress counter by one worker, in every
    arithmetic.  A report happens when the local counter is exactly 10001
    past the last one, so [last_count] is always a multiple of 10001; the
    global counter has grown by [last_count], the samples reported; and the
    samples made but not yet reported are at most 10001 — those of the end
    of the run are never added. *)
Theorem TrainLINEThread_progress (draws : Z -> double * double) (id : Z)
    (sh : Shared real) (fuel : nat) :
  match TrainLINEThread fuel md draws id sh with
  | Exited sh' w' | Running sh' w' =>
      sh_count sh' = sh_count sh + w_last_count w'
      /\ w_last_count w' mod 10001 = 0
      /\ 0 <= w_count w' - w_last_count w' <= 10001
  | Undefined => True
  end.
Proof.
  unfold TrainLINEThread.
  apply TrainLINEThread_loop_counters; simpl; [lia|reflexivity|lia].
Qed.

End Progress.

(** ** The set-up sequence, again *)

(** X10.  Two ways for [TrainLINEMain] to return without training, whatever
    the allocator does.  An order other than 1 and 2 makes it return before
    any table is built.  And [malloc_exit] is never reset: once an earlier
    call has set it, a call returns after [VectorReadData] at the latest
    (or stops on a null pointer before that) and never creates the
    workers, even when every allocation succeeds. *)
Theorem TrainLINEMain_setup_never_spawns (ok : site -> bool) (order num_edges : Z) :
  (forall malloc_exit : bool, order <> 1 -> order <> 2 ->
     TrainLINEMain_setup ok malloc_exit order num_edges = Returned)
  /\ TrainLINEMain_setup ok true order num_edges <> Spawned
  /\ TrainLINEMain_setup (fun _ => true) true order num_edges = Returned.
Proof.
  unfold TrainLINEMain_setup, InitHashTable_alloc, VectorReadData_alloc.
  split; [|split].
  - intros malloc_exit H1 H2.
    destruct (Z.eqb_spec order 1) as [?|_]; [contradiction|].
    destruct (Z.eqb_spec order 2) as [?|_]; [contradiction|]. reflexivity.
  - destruct (negb (order =? 1) && negb (order =? 2)); [discriminate|].
    destruct (ok at_vertex_hash_table); simpl; [|discriminate].
    destruct (negb (ok at_edge_source_id) || negb (ok at_edge_target_id)
              || negb (ok at_edge_weight)); simpl; [discriminate|].
    destruct ((0 <? num_edges) && negb (ok at_vertex)); simpl; discriminate.
  - destruct (negb (order =? 1) && negb (order =? 2)); [reflexivity|]. simpl.
    rewrite andb_false_r. reflexivity.
Qed.

(** ** The initial matrices *)

Lemma cell_index_inj (dim a b a' b' : Z) :
  0 <= b < dim -> 0 <= b' < dim -> a * dim + b = a' * dim + b' -> a = a' /\ b = b'.
Proof.
  intros Hb Hb' E.
  assert (H1 : a = (a * dim + b) / dim)
    by (apply (Z.div_unique_pos _ dim a b); lia).
  assert (H2 : a' = (a' * dim + b') / dim)
    by (apply (Z.div_unique_pos _ dim a' b'); lia).
  assert (Ha : a = a') by congruence.
  subst. split; [reflexivity|lia].
Qed.

Lemma cell_index_range (nv dim a b : Z) :
  0 <= a < nv -> 0 <= b < dim -> 0 <= a * dim + b < nv * dim.
Proof.
  intros Ha Hb.
  assert ((a + 1) * dim <= nv * dim) by (apply Z.mul_le_mono_nonneg_r; lia).
  assert (0 <= a * dim) by (apply Z.mul_nonneg_nonneg; lia). lia.
Qed.

(** A loop over the rows of one column. *)
Lemma fill_column {A} (d : A) (f : Z -> A) (nv dim b : Z) (arr : list A) (i : nat) :
  0 <= b < dim -> Z.of_nat i <= nv -> zlen arr = nv * dim ->
  let r := fold_left (fun emb a => aset emb (a * dim + b) (f a)) (zseq i) arr in
  length r = length arr
  /\ forall a' b', 0 <= a' < nv -> 0 <= b' < dim ->
       aget d r (a' * dim + b')
       = if decide (b' = b /\ a' < Z.of_nat i) then f a' else aget d arr (a' * dim + b').
Proof.
  intros Hb Hi Hlen. induction i as [|i IH].
  - simpl. split; [reflexivity|]. intros a' b' Ha' Hb'. now rewrite decide_False by lia.
  - cbv zeta. rewrite zseq_snoc, fold_left_app. simpl.
    destruct (IH ltac:(lia)) as [IHl IHg]. clear IH.
    set (r := fold_left _ (zseq i) arr) in *.
    split; [now rewrite length_aset|].
    intros a' b' Ha' Hb'.
    destruct (decide (a' * dim + b' = Z.of_nat i * dim + b)) as [E|Hne].
    + apply cell_index_inj in E as [-> ->]; [|lia|lia].
      rewrite aget_aset_eq.
      * now rewrite decide_True by lia.
      * unfold zlen. rewrite IHl. fold (zlen arr). rewrite Hlen.
        apply cell_index_range; lia.
    + rewrite aget_aset_ne by congruence. rewrite IHg by assumption.
      destruct (decide (b' = b /\ a' < Z.of_nat i)) as [[-> Hlt]|Hn].
      * now rewrite decide_True by lia.
      * rewrite decide_False; [reflexivity|].
        intros [-> Hlt]. assert (a' = Z.of_nat i) by lia. subst a'. congruence.
Qed.

(** The two nested loops: every cell of the matrix is written once. *)
Lemma fill_columns {A} (d : A) (f : Z -> Z -> A) (nv dim : Z) (arr : list A) (j : nat) :
  0 <= nv -> Z.of_nat j <= dim -> zlen arr = nv * dim ->
  let r := fold_left (fun emb b =>
                        fold_left (fun emb a => aset emb (a * dim + b) (f a b))
                                  (zseq (Z.to_nat nv)) emb) (zseq j) arr in
  length r = length arr
  /\ forall a' b', 0 <= a' < nv -> 0 <= b' < dim ->
       aget d r (a' * dim + b')
       = if decide (b' < Z.of_nat j) then f a' b' else aget d arr (a' * dim + b').
Proof.
  intros Hnv Hj Hlen. induction j as [|j IH].
  - simpl. split; [reflexivity|]. intros a' b' Ha' Hb'. now rewrite decide_False by lia.
  - cbv zeta. rewrite zseq_snoc, fold_left_app. simpl.
    destruct (IH ltac:(lia)) as [IHl IHg]. clear IH.
    set (r := fold_left _ (zseq j) arr) in *.
    destruct (fill_column d (fun a => f a (Z.of_nat j)) nv dim (Z.of_nat j) r (Z.to_nat nv))
      as [Hl Hg]; [lia|lia|unfold zlen in *; lia|].
    split; [congruence|].
    intros a' b' Ha' Hb'. rewrite Hg by assumption.
    destruct (decide (b' = Z.of_nat j /\ a' < Z.of_nat (Z.to_nat nv))) as [[-> _]|Hn].
    + now rewrite decide_True by lia.
    + rewrite IHg by assumption.
      destruct (decide (b' < Z.of_nat j)).
      * now rewrite decide_True by lia.
      * now rewrite decide_False by lia.
Qed.

Section InitVectorFacts.
Context {real double : Type} `{Platform real double}.
Variable unif_rand : Z -> double.

(** The draws of a column are consecutive. *)
Lemma InitVector_column_draws (dim b : Z) (i : nat) (emb : list real) (c : Z) :
  fold_left (InitVector_vertex_cell unif_rand dim b) (zseq i) (emb, c)
  = (fold_left (fun emb a => aset emb (a * dim + b) (init_cell dim (unif_rand (c + a))))
               (zseq i) emb,
     c + Z.of_nat i).
Proof.
  induction i as [|i IH].
  - simpl. f_equal. lia.
  - rewrite zseq_snoc, !fold_left_app, IH. simpl.
    unfold InitVector_vertex_cell. simpl. f_equal. lia.
Qed.

Lemma InitVector_vertex_draws (nv dim : Z) (j : nat) (emb : list real) (c : Z) :
  0 <= nv ->
  fold_left (fun st b =>
               fold_left (InitVector_vertex_cell unif_rand dim b) (zseq (Z.to_nat nv)) st)
            (zseq j) (emb, c)
  = (fold_left (fun emb b =>
                  fold_left (fun emb a =>
                               aset emb (a * dim + b)
                                    (init_cell dim (unif_rand (c + b * nv + a))))
                            (zseq (Z.to_nat nv)) emb)
               (zseq j) emb,
     c + Z.of_nat j * nv).
Proof.
  intros Hnv. induction j as [|j IH].
  - simpl. f_equal. lia.
  - rewrite zseq_snoc, !fold_left_app, IH. simpl.
    rewrite InitVector_column_draws. f_equal. lia.
Qed.

(** X11.  What [InitVector] leaves: both matrices keep their
    [num_vertices * dim] cells, whatever the allocated blocks held; cell
    [(a, b)] of the vertex matrix is [(u - 0.5) / dim] for the draw [u]
    number [b * num_vertices + a] of the call (the loops run column by
    column); every cell of the context matrix is 0; and the call makes
    [num_vertices * dim] draws. *)
Theorem InitVector_cells (nv dim : Z) (memory : Embeddings real) (drawn : Z) :
  0 <= nv -> 0 <= dim ->
  zlen (emb_vertex memory) = nv * dim -> zlen (emb_context memory) = nv * dim ->
  (InitVector unif_rand nv dim memory drawn).2 = drawn + nv * dim
  /\ zlen (emb_vertex (InitVector unif_rand nv dim memory drawn).1) = nv * dim
  /\ (forall a b, 0 <= a < nv -> 0 <= b < dim ->
        aget (of_int 0) (emb_vertex (InitVector unif_rand nv dim memory drawn).1)
             (a * dim + b)
        = init_cell dim (unif_rand (drawn + b * nv + a)))
  /\ emb_context (InitVector unif_rand nv dim memory drawn).1
     = replicate (Z.to_nat (nv * dim)) (of_int 0).
Proof.
  intros Hnv Hdim Hv Hc. unfold InitVector, InitVector_vertex.
  rewrite (InitVector_vertex_draws nv dim (Z.to_nat dim) _ drawn Hnv). simpl.
  destruct (fill_columns (of_int 0 : real)
              (fun a b => init_cell dim (unif_rand (drawn + b * nv + a)))
              nv dim (emb_vertex memory) (Z.to_nat dim)) as [Hl Hg]; [lia|lia|exact Hv|].
  destruct (fill_columns (of_int 0 : real) (fun _ _ => of_int 0 : real)
              nv dim (emb_context memory) (Z.to_nat dim)) as [Hlc Hgc]; [lia|lia|exact Hc|].
  split; [lia|]. split; [unfold zlen in *; lia|]. split.
  - intros a b Ha Hb. rewrite Hg by assumption. now rewrite decide_True by lia.
  - unfold InitVector_context. apply (list_eq_aget (of_int 0)).
    + rewrite Hlc, length_replicate. unfold zlen in Hc. lia.
    + intros i Hi. unfold zlen in Hi. rewrite Hlc in Hi. fold (zlen (emb_context memory)) in Hi.
      rewrite Hc in Hi.
      assert (Hd : 0 < dim) by nia.
      pose proof (Z.div_mod i dim ltac:(lia)) as Hdm.
      pose proof (Z.mod_pos_bound i dim Hd) as Hmb.
      assert (Hq : 0 <= i / dim < nv).
      { split; [apply Z.div_pos; lia|]. apply Z.div_lt_upper_bound; lia. }
      replace i with (i / dim * dim + i mod dim) at 1 by lia.
      rewrite Hgc by assumption. rewrite decide_True by lia.
      unfold aget. rewrite decide_True by lia.
      rewrite lookup_replicate_2 by lia. reflexivity.
Qed.

End InitVectorFacts.

Lemma InitVector_cells_witness :
  (InitVector example_draws_one 2 3 (MkEmb [7; 7; 7; 7; 7; 7]%Q [9; 9; 9; 9; 9; 9]%Q) 0).2
  = 0 + 2 * 3
  /\ zlen (emb_vertex (InitVector example_draws_one 2 3
             (MkEmb [7; 7; 7; 7; 7; 7]%Q [9; 9; 9; 9; 9; 9]%Q) 0).1) = 2 * 3
  /\ (forall a b, 0 <= a < 2 -> 0 <= b < 3 ->
        aget (of_int 0) (emb_vertex (InitVector example_draws_one 2 3
               (MkEmb [7; 7; 7; 7; 7; 7]%Q [9; 9; 9; 9; 9; 9]%Q) 0).1) (a * 3 + b)
        = init_cell 3 (example_draws_one (0 + b * 2 + a)))
  /\ emb_context (InitVector example_draws_one 2 3
        (MkEmb [7; 7; 7; 7; 7; 7]%Q [9; 9; 9; 9; 9; 9]%Q) 0).1
     = replicate (Z.to_nat (2 * 3)) (of_int 0).
Proof.
  apply (InitVector_cells (H := exact_platform) example_draws_one 2 3
           (MkEmb [7; 7; 7; 7; 7; 7]%Q [9; 9; 9; 9; 9; 9]%Q) 0).
  - lia.
  - lia.
  - reflexivity.
  - reflexivity.
Defined.

(** ** The output *)

Lemma spec_insert_elem (seen : list string) (nm x : string) :
  x ∈ (spec_insert seen nm).2 <-> x ∈ seen \/ x = nm.
Proof.
  unfold spec_insert. destruct (index_of nm seen) as [i|] eqn:Hidx; simpl.
  - apply index_of_Some in Hidx. split; [auto|].
    intros [?| ->]; [assumption|]. eapply list_elem_of_lookup_2. exact Hidx.
  - rewrite elem_of_app, list_elem_of_singleton. reflexivity.
Qed.

Lemma spec_rows_elem (x : string) (us : list string) :
  forall (vs seen : list string), length vs = length us ->
    x ∈ (spec_rows seen us vs).2
    <-> x ∈ seen \/ x ∈ (c_str <$> us) \/ x ∈ (c_str <$> vs).
Proof.
  induction us as [|u us IH]; intros vs seen Hlen.
  - destruct vs; [|discriminate]. simpl. rewrite !elem_of_nil. tauto.
  - destruct vs as [|v vs]; [discriminate|]. simpl in Hlen. simpl.
    pose proof (spec_insert_elem seen (c_str u) x) as E1.
    destruct (spec_insert seen (c_str u)) as [i1 seen1].
    pose proof (spec_insert_elem seen1 (c_str v) x) as E2.
    destruct (spec_insert seen1 (c_str v)) as [i2 seen2].
    specialize (IH vs seen2 ltac:(lia)).
    destruct (spec_rows seen2 us vs) as [[src tgt] seen']. simpl in *.
    rewrite IH, E2, E1, !elem_of_cons. tauto.
Qed.

Lemma fold_push {A B C} (f : A -> B) (g : A -> C) (l : list A) :
  forall out : list B * list C,
    fold_left (fun out a => (out.1 ++ [f a], out.2 ++ [g a])) l out
    = (out.1 ++ (f <$> l), out.2 ++ (g <$> l)).
Proof.
  induction l as [|a l IH]; intros [o1 o2]; simpl.
  - now rewrite !app_nil_r.
  - rewrite IH. simpl. now rewrite <- !app_assoc.
Qed.

Section Output.
Context {real double : Type} `{Platform real double}.

Lemma vertex_names_in_order (vertex : list (ClassVertex double)) :
  vertex_name vertex <$> zseq (length vertex) = name <$> vertex.
Proof.
  apply (list_eq_same_length _ _ (length vertex)).
  - now rewrite length_fmap.
  - now rewrite length_fmap, length_zseq.
  - intros i x y Hi Hx Hy.
    rewrite list_lookup_fmap in Hx. unfold zseq in Hx.
    rewrite list_lookup_fmap, lookup_seq_lt in Hx by exact Hi. simpl in Hx.
    injection Hx as <-. apply (vertex_name_lookup vertex i). exact Hy.
Qed.

Lemma int_cell_in_range (nv dim a b : Z) :
  nv * dim <= INT_MAX -> 0 <= a < nv -> 0 <= b < dim ->
  int_cell a dim b = Some (a * dim + b).
Proof.
  intros Hmax Ha Hb. pose proof (cell_index_range nv dim a b Ha Hb) as Hr.
  assert (0 <= a * dim) by (apply Z.mul_nonneg_nonneg; lia).
  unfold int_cell, INT_MIN, INT_MAX in *.
  destruct (Z.leb_spec (- 2 ^ 31) (a * dim)); [|lia].
  destruct (Z.leb_spec (a * dim) (2 ^ 31 - 1)); [|lia].
  destruct (Z.leb_spec (- 2 ^ 31) (a * dim + b)); [|lia].
  destruct (Z.leb_spec (a * dim + b) (2 ^ 31 - 1)); [|lia].
  reflexivity.
Qed.

Lemma output_cells_closed (emb_vertex : list real) (a dim : Z) (bs : list Z) :
  Forall (fun b => int_cell a dim b = Some (a * dim + b)) bs ->
  output_cells emb_vertex a dim bs
  = Some ((fun b => widen (aget (of_int 0) emb_vertex (a * dim + b))) <$> bs).
Proof.
  induction bs as [|b bs IH]; intros Hbs; [reflexivity|].
  apply Forall_cons_1 in Hbs as [Hb Hbs]. simpl. rewrite Hb. simpl.
  rewrite (IH Hbs). reflexivity.
Qed.

Lemma VectorOutput_closed (vertex : list (ClassVertex double)) (dim : Z)
    (emb_vertex : list real) (l : list Z) :
  forall output : list string * list (list double),
    Forall (fun a => Forall (fun b => int_cell a dim b = Some (a * dim + b))
                            (zseq (Z.to_nat dim))) l ->
    fold_left (fun acc a =>
                 out ← acc;
                 vec ← output_cells emb_vertex a dim (zseq (Z.to_nat dim));
                 Some (out.1 ++ [vertex_name vertex a], out.2 ++ [vec]))
              l (Some output)
    = Some (output.1 ++ (vertex_name vertex <$> l),
            output.2 ++ ((fun a => (fun b => widen (aget (of_int 0) emb_vertex (a * dim + b)))
                                     <$> zseq (Z.to_nat dim)) <$> l)).
Proof.
  induction l as [|a l IH]; intros [o1 o2] Hl; simpl.
  - now rewrite !app_nil_r.
  - apply Forall_cons_1 in Hl as [Ha Hl].
    rewrite (output_cells_closed _ _ _ _ Ha). simpl.
    rewrite (IH _ Hl). simpl. now rewrite <- !app_assoc.
Qed.

(** X12.  From the input to the output.  On every input the loader accepts,
    when the matrix has its [num_vertices * dim] cells and that number fits
    an [int] (the index [a * dim + b] of [VectorOutput] is computed in
    [int]), [VectorOutput] appends to [output_vertices], after what it
    already holds, the distinct names of the input in the order of their
    first occurrence, each once; and to [output_vectors] one vector per
    name, of [dim] components, the cells of the vertex's row converted to
    [double], whatever the training has made of the cells. *)
Theorem VectorOutput_after_load (fuel : nat) (max : Z)
    (input_u input_v : list string) (input_w : list double)
    (dim : Z) (emb_vertex : list real) (output : list string * list (list double)) :
  length input_v = length input_u -> length input_w = length input_u ->
  Forall short_name input_u -> Forall short_name input_v ->
  Z.of_nat (length (spec_rows [] input_u input_v).2) <= hash_table_size ->
  (length (spec_rows [] input_u input_v).2 <= fuel)%nat ->
  Z.of_nat (length (spec_rows [] input_u input_v).2) * dim <= INT_MAX ->
  zlen emb_vertex = Z.of_nat (length (spec_rows [] input_u input_v).2) * dim ->
  exists g, VectorReadData fuel (InitHashTable max) input_u input_v input_w = Some g /\
    VectorOutput (vertex (vindex g)) (num_vertices (vindex g)) dim emb_vertex output
    = Some (output.1 ++ (spec_rows [] input_u input_v).2,
            output.2 ++ ((fun a => (fun b => widen (aget (of_int 0) emb_vertex (a * dim + b)))
                                     <$> zseq (Z.to_nat dim))
                         <$> zseq (length (spec_rows [] input_u input_v).2)))
    /\ NoDup (spec_rows [] input_u input_v).2
    /\ (forall nm, nm ∈ (spec_rows [] input_u input_v).2
          <-> nm ∈ (c_str <$> input_u) \/ nm ∈ (c_str <$> input_v)).
Proof.
  intros Hlv Hlw Hsu Hsv Hcap Hfuel Hint Hshape. unfold VectorReadData. simpl.
  destruct (read_rows_spec fuel input_u input_v input_w
              (MkGraph (MkIndex [] 0 max ∅) [] [] []))
    as (g & Hrun & Hinv & Hn & _); simpl; try assumption.
  { apply (InitHashTable_inv max). }
  simpl in Hn. exists g. split; [exact Hrun|].
  assert (Hlen : length (vertex (vindex g)) = length (spec_rows [] input_u input_v).2).
  { rewrite <- Hn. now rewrite length_fmap. }
  split; [|split].
  - unfold VectorOutput. rewrite (inv_num _ Hinv). unfold zlen. rewrite Nat2Z.id.
    rewrite VectorOutput_closed.
    + cbn [fst snd]. rewrite vertex_names_in_order, Hn, Hlen. reflexivity.
    + apply Forall_forall. intros a Ha. apply Forall_forall. intros b Hb.
      apply elem_of_zseq in Ha. apply elem_of_zseq in Hb. unfold in_table in Ha, Hb.
      apply (int_cell_in_range (Z.of_nat (length (vertex (vindex g))))); [|lia|lia].
      rewrite Hlen. exact Hint.
  - rewrite <- Hn. apply (inv_nodup _ Hinv).
  - intros nm. rewrite (spec_rows_elem nm input_u input_v [] Hlv), elem_of_nil. tauto.
Qed.

End Output.

Lemma VectorOutput_after_load_witness :
  exists g, VectorReadData 3 (InitHashTable 1000) ["B"; "B"]%string ["A"; "C"]%string
              [1%Q; 1%Q] = Some g /\
    VectorOutput (vertex (vindex g)) (num_vertices (vindex g)) 2
      [1; 2; 3; 4; 5; 6]%Q (["Z"]%string, [[0; 0]%Q])
    = Some ((["Z"]%string, [[0; 0]%Q]).1
              ++ (spec_rows [] ["B"; "B"]%string ["A"; "C"]%string).2,
            (["Z"]%string, [[0; 0]%Q]).2
              ++ ((fun a => (fun b => widen (aget (of_int 0) [1; 2; 3; 4; 5; 6]%Q (a * 2 + b)))
                              <$> zseq (Z.to_nat 2))
                  <$> zseq (length (spec_rows [] ["B"; "B"]%string ["A"; "C"]%string).2)))
    /\ NoDup (spec_rows [] ["B"; "B"]%string ["A"; "C"]%string).2
    /\ (forall nm, nm ∈ (spec_rows [] ["B"; "B"]%string ["A"; "C"]%string).2
          <-> nm ∈ (c_str <$> ["B"; "B"]%string) \/ nm ∈ (c_str <$> ["A"; "C"]%string)).
Proof.
  apply (VectorOutput_after_load (H := exact_platform) 3 1000
           ["B"; "B"]%string ["A"; "C"]%string [1%Q; 1%Q] 2 [1; 2; 3; 4; 5; 6]%Q
           (["Z"]%string, [[0; 0]%Q])).
  - reflexivity.
  - reflexivity.
  - repeat constructor.
  - repeat constructor.
  - vm_compute. discriminate.
  - vm_compute. lia.
  - vm_compute. discriminate.
  - reflexivity.
Defined.

(** ** Degrees *)

Section DegreeFacts.
Context {D : Type} `{Arith D}.

Lemma SearchHashTable_range (fuel : nat) (ix : VertexIndex D) (nm : string) (r : Z) :
  ix_inv ix -> SearchHashTable fuel ix nm = Some r ->
  r = -1 \/ 0 <= r < zlen (vertex ix).
Proof.
  intros Hinv. unfold SearchHashTable. generalize (Hash nm).
  induction fuel as [|fuel IH]; intros addr; simpl; [discriminate|].
  unfold table_at.
  destruct (vertex_hash_table ix !! addr) as [v|] eqn:Hv; simpl.
  - destruct (v =? -1) eqn:E; [intros [= <-]; left; lia|].
    destruct (String.eqb nm _); [|apply IH].
    intros [= <-]. right. apply (inv_cells ix Hinv addr v Hv).
  - intros [= <-]. now left.
Qed.

Lemma vertex_degree_app (vs : list (ClassVertex D)) (nm : string) (i : Z) :
  vertex_degree (vs ++ [MkVertex (of_int 0) nm]) i = vertex_degree vs i.
Proof.
  unfold vertex_degree, aget. destruct (decide (0 <= i)); [|reflexivity].
  destruct (decide (Z.to_nat i < length vs)%nat) as [Hlt|Hge].
  - now rewrite lookup_app_l by exact Hlt.
  - rewrite lookup_app_r by lia. rewrite (lookup_ge_None_2 vs) by lia.
    destruct (Z.to_nat i - length vs)%nat as [|n]; simpl; [reflexivity|].
    reflexivity.
Qed.

Lemma add_degree_degree (ix : VertexIndex D) (vid : Z) (w : D) (i : Z) :
  0 <= vid < zlen (vertex ix) ->
  vertex_degree (vertex (add_degree ix vid w)) i
  = if decide (i = vid) then (vertex_degree (vertex ix) i + w)%A
    else vertex_degree (vertex ix) i.
Proof.
  intros Hvid. unfold add_degree, vertex_degree. simpl.
  destruct (decide (i = vid)) as [->|Hne].
  - rewrite aget_aset_eq by exact Hvid. reflexivity.
  - rewrite aget_aset_ne by congruence. reflexivity.
Qed.

(** One endpoint adds its weight to the degree of the vertex it names. *)
Lemma visit_degree (fuel : nat) (ix ix' : VertexIndex D) (nm : string) (w : D) (id : Z) :
  ix_inv ix -> visit fuel ix nm w = Some (id, ix') ->
  forall i, vertex_degree (vertex ix') i
            = if decide (i = id) then (vertex_degree (vertex ix) i + w)%A
              else vertex_degree (vertex ix) i.
Proof.
  intros Hinv. unfold visit.
  destruct (SearchHashTable fuel ix nm) as [r|] eqn:Hr; simpl; [|discriminate].
  apply (SearchHashTable_range _ _ _ _ Hinv) in Hr.
  destruct (Z.eqb_spec r (-1)) as [->|Hne].
  - unfold AddVertex. cbv zeta.
    destruct (InsertHashTable fuel _ nm _) as [t|]; simpl; [|discriminate].
    intros [= <- <-] i.
    rewrite add_degree_degree.
    + simpl. rewrite !vertex_degree_app. reflexivity.
    + simpl. unfold zlen. rewrite length_app. simpl.
      rewrite (inv_num ix Hinv). unfold zlen. lia.
  - simpl. intros [= <- <-] i. apply add_degree_degree. lia.
Qed.

Lemma read_rows_degrees (fuel : nat) (us vs : list string) (ws : list D) :
  forall g : Graph D,
    length vs = length us -> length ws = length us ->
    Forall short_name us -> Forall short_name vs ->
    ix_inv (vindex g) ->
    Z.of_nat (length (spec_rows (name <$> vertex (vindex g)) us vs).2) <= hash_table_size ->
    (length (spec_rows (name <$> vertex (vindex g)) us vs).2 <= fuel)%nat ->
    exists g', read_rows fuel us vs ws g = Some g' /\
      forall i, vertex_degree (vertex (vindex g')) i
                = fold_left (degree_step i)
                    (zip (zip (spec_rows (name <$> vertex (vindex g)) us vs).1.1
                              (spec_rows (name <$> vertex (vindex g)) us vs).1.2) ws)
                    (vertex_degree (vertex (vindex g)) i).
Proof.
  revert vs ws. induction us as [|u us IH]; intros vs ws g Hlv Hlw Hsu Hsv Hinv Hcap Hfuel.
  - destruct ws; [|discriminate]. simpl. exists g. split; [reflexivity|]. reflexivity.
  - destruct vs as [|v vs]; [discriminate|]. destruct ws as [|w ws]; [discriminate|].
    simpl in Hlv, Hlw. apply Forall_cons_1 in Hsu as [Hu Hsu].
    apply Forall_cons_1 in Hsv as [Hv Hsv].
    simpl in Hcap, Hfuel |- *.
    unfold strcpy_name. unfold short_name in Hu, Hv.
    destruct (Z.ltb_spec (strlen (c_str u)) MAX_STRING) as [_|?]; [|lia].
    destruct (Z.ltb_spec (strlen (c_str v)) MAX_STRING) as [_|?]; [|lia].
    simpl.
    set (seen := name <$> vertex (vindex g)) in *.
    pose proof (spec_insert_length seen (c_str u)) as L1.
    destruct (spec_insert seen (c_str u)) as [i1 seen1] eqn:E1.
    pose proof (spec_insert_length seen1 (c_str v)) as L2.
    destruct (spec_insert seen1 (c_str v)) as [i2 seen2] eqn:E2.
    pose proof (spec_rows_length us vs seen2) as L3.
    destruct (spec_rows seen2 us vs) as [[src tgt] seen'] eqn:E3.
    simpl in Hcap, Hfuel, L1, L2, L3 |- *.
    destruct (visit_spec fuel (vindex g) (c_str u) w Hinv Hu) as (ix1 & V1 & Hinv1 & Hn1).
    { fold seen. rewrite E1. simpl. lia. }
    { fold seen. rewrite E1. simpl. lia. }
    fold seen in V1, Hn1. rewrite E1 in V1, Hn1. simpl in V1, Hn1.
    destruct (visit_spec fuel ix1 (c_str v) w Hinv1 Hv) as (ix2 & V2 & Hinv2 & Hn2).
    { rewrite Hn1, E2. simpl. lia. }
    { rewrite Hn1, E2. simpl. lia. }
    rewrite Hn1, E2 in V2, Hn2. simpl in V2, Hn2.
    rewrite V1. simpl. rewrite V2. simpl.
    destruct (IH vs ws (MkGraph ix2 (edge_source_id g ++ [i1]) (edge_target_id g ++ [i2])
                (edge_weight g ++ [w]))) as (g' & Hrun & Hdeg);
      simpl; try assumption; try lia.
    { rewrite Hn2, E3. simpl. lia. }
    { rewrite Hn2, E3. simpl. lia. }
    simpl in Hdeg. rewrite Hn2, E3 in Hdeg. simpl in Hdeg.
    exists g'. split; [exact Hrun|]. intros i. rewrite Hdeg. f_equal.
    rewrite (visit_degree _ _ _ _ _ _ Hinv1 V2 i), (visit_degree _ _ _ _ _ _ Hinv V1 i).
    unfold degree_step. simpl.
    destruct (Z.eqb_spec i1 i) as [Ea|Na], (Z.eqb_spec i2 i) as [Eb|Nb].
    + rewrite !decide_True by congruence. reflexivity.
    + rewrite (decide_False (P := i = i2)) by congruence.
      rewrite decide_True by congruence. reflexivity.
    + rewrite (decide_True (P := i = i2)) by congruence.
      rewrite decide_False by congruence. reflexivity.
    + rewrite !decide_False by congruence. reflexivity.
Qed.

(** X13.  The degrees the loader leaves, in every arithmetic: the degree of
    a vertex is its weighted degree in the input — the weights of the rows
    in which it is the source or the target, added in the order of the
    rows, a row from a vertex to itself counting twice. *)
Theorem VectorReadData_degrees (fuel : nat) (max : Z)
    (input_u input_v : list string) (input_w : list D) :
  length input_v = length input_u -> length input_w = length input_u ->
  Forall short_name input_u -> Forall short_name input_v ->
  Z.of_nat (length (spec_rows [] input_u input_v).2) <= hash_table_size ->
  (length (spec_rows [] input_u input_v).2 <= fuel)%nat ->
  exists g, VectorReadData fuel (InitHashTable max) input_u input_v input_w = Some g /\
    forall i, vertex_degree (vertex (vindex g)) i
              = weighted_degree (spec_rows [] input_u input_v).1.1
                                (spec_rows [] input_u input_v).1.2 input_w i.
Proof.
  intros Hlv Hlw Hsu Hsv Hcap Hfuel. unfold VectorReadData. simpl.
  destruct (read_rows_degrees fuel input_u input_v input_w
              (MkGraph (MkIndex [] 0 max ∅) [] [] []))
    as (g & Hrun & Hdeg); simpl; try assumption.
  { apply (InitHashTable_inv max). }
  exists g. split; [exact Hrun|]. intros i. rewrite Hdeg.
  unfold weighted_degree, vertex_degree. simpl. rewrite aget_nil. reflexivity.
Qed.

End DegreeFacts.

Lemma VectorReadData_degrees_witness :
  exists g, VectorReadData 3 (InitHashTable 1000) ["B"; "B"]%string ["A"; "B"]%string
              [2%Q; 5%Q] = Some g /\
    forall i, vertex_degree (vertex (vindex g)) i
              = weighted_degree (spec_rows [] ["B"; "B"]%string ["A"; "B"]%string).1.1
                                (spec_rows [] ["B"; "B"]%string ["A"; "B"]%string).1.2
                                [2%Q; 5%Q] i.
Proof.
  apply (VectorReadData_degrees 3 1000 ["B"; "B"]%string ["A"; "B"]%string [2%Q; 5%Q]).
  - reflexivity.
  - reflexivity.
  - repeat constructor.
  - repeat constructor.
  - vm_compute. discriminate.
  - vm_compute. lia.
Defined.

(** ** Names that do not fit the buffers *)

Section LongNames.
Context {D : Type} `{Arith D}.

Lemma read_rows_long_name (fuel : nat) (us : list string) :
  forall (vs : list string) (ws : list D) (g : Graph D),
    length vs = length us ->
    Exists (fun s => MAX_STRING <= strlen (c_str s)) us
    \/ Exists (fun s => MAX_STRING <= strlen (c_str s)) vs ->
    read_rows fuel us vs ws g = None.
Proof.
  induction us as [|u us IH]; intros vs ws g Hlen Hlong.
  - destruct vs; [|discriminate].
    destruct Hlong as [Hl|Hl]; apply Exists_nil in Hl; contradiction.
  - destruct vs as [|v vs]; [discriminate|]. simpl in Hlen.
    destruct ws as [|w ws]; [reflexivity|]. simpl. unfold strcpy_name.
    destruct (Z.ltb_spec (strlen (c_str u)) MAX_STRING) as [Hu|Hu]; [|reflexivity].
    destruct (Z.ltb_spec (strlen (c_str v)) MAX_STRING) as [Hv|Hv]; [|reflexivity].
    simpl.
    destruct (visit fuel (vindex g) (c_str u) w) as [[vid1 ix1]|]; simpl; [|reflexivity].
    destruct (visit fuel ix1 (c_str v) w) as [[vid2 ix2]|]; simpl; [|reflexivity].
    apply IH; [lia|].
    destruct Hlong as [Hl|Hl]; apply Exists_cons in Hl as [Hhd|Htl];
      try lia; [left|right]; exact Htl.
Qed.

(** X14.  A name of [MAX_STRING] = 100 characters or more does not fit the
    buffer [VectorReadData] copies it into with [strcpy]: whatever the other
    rows are, the load has no defined result. *)
Theorem VectorReadData_long_name (fuel : nat) (ix : VertexIndex D)
    (input_u input_v : list string) (input_w : list D) :
  length input_v = length input_u ->
  Exists (fun s => MAX_STRING <= strlen (c_str s)) input_u
  \/ Exists (fun s => MAX_STRING <= strlen (c_str s)) input_v ->
  VectorReadData fuel ix input_u input_v input_w = None.
Proof.
  intros Hlen Hlong. unfold VectorReadData. now apply read_rows_long_name.
Qed.

End LongNames.

(** C7, the code at a failing input.  The stream of the rows (B, A) and
    (n, C), where the name [n] has 100 characters: [VectorReadData] copies
    [n] with [strcpy] into [name_v1], a buffer of [MAX_STRING] = 100
    characters, without looking at its length, so the copy writes past the
    buffer and the load has no defined result, for every fuel, every vertex
    capacity and every weights: no id is assigned to [n] or to C. *)
Theorem VectorReadData_name_overflow (fuel : nat) (max : Z) (input_w : list Q) :
  strlen (c_str long_name) = MAX_STRING
  /\ VectorReadData fuel (InitHashTable max) ["B"; long_name]%string ["A"; "C"]%string
       input_w = None.
Proof.
  split; [reflexivity|].
  unfold VectorReadData. apply read_rows_long_name; [reflexivity|].
  left. apply Exists_cons_tl, Exists_cons_hd. vm_compute. discriminate.
Qed.

Lemma VectorReadData_long_name_witness :
  VectorReadData 5 (InitHashTable 1000) ["a"; long_name]%string ["b"; "a"]%string
    [1%Q; 1%Q] = None.
Proof.
  apply (VectorReadData_long_name 5 (InitHashTable 1000)).
  - reflexivity.
  - left. apply Exists_cons_tl, Exists_cons_hd. vm_compute. discriminate.
Defined.

(** ** The decay of the learning rate *)

Section Decay.
Variable md : Model Q Q.
Hypothesis rho_pos : (0 < init_rho md)%Q.
Hypothesis samples_nonneg : 0 <= total_samples md.

Lemma rho_decay_antitone (c c' : Z) :
  c <= c' -> (rho_decay md c' <= rho_decay md c)%Q.
Proof.
  intros Hc. unfold rho_decay.
  cbn [mul sub div of_int real_ops exact_platform Q_arith].
  apply Qmult_le_l; [exact rho_pos|].
  assert (HT : (0 < inject_Z (total_samples md + 1))%Q).
  { change 0%Q with (inject_Z 0). rewrite <- Zlt_Qlt. lia. }
  assert (Hdiv : (inject_Z c / inject_Z (total_samples md + 1)
                  <= inject_Z c' / inject_Z (total_samples md + 1))%Q).
  { apply Qmult_le_compat_r.
    - now rewrite <- Zle_Qle.
    - apply Qlt_le_weak, Qinv_lt_0_compat, HT. }
  lra.
Qed.

Lemma rho_clamp_mono (r r' : Q) :
  (r <= r')%Q -> (rho_clamp md r <= rho_clamp md r')%Q.
Proof.
  intros Hr. destruct (rho_clamp_Q md r) as [E _], (rho_clamp_Q md r') as [E' _].
  rewrite E, E'. now apply Q.max_le_compat_l.
Qed.

Lemma rho_clamp_le_init (c : Z) :
  0 <= c -> (rho_clamp md (rho_decay md c) <= init_rho md)%Q.
Proof.
  intros Hc. destruct (rho_clamp_Q md (rho_decay md c)) as [E _]. rewrite E.
  apply Q.max_lub.
  - rewrite rho_floor_Q. rewrite <- (Qmult_1_r (init_rho md)) at 2.
    apply Qmult_le_l; [exact rho_pos|]. discriminate.
  - apply (Qle_trans _ (rho_decay md 0)); [now apply rho_decay_antitone|].
    unfold rho_decay. cbn [mul sub div of_int real_ops exact_platform Q_arith].
    rewrite <- (Qmult_1_r (init_rho md)) at 2.
    apply Qmult_le_l; [exact rho_pos|].
    unfold Qdiv. change (inject_Z 0) with 0%Q. rewrite Qmult_0_l.
    change (inject_Z 1) with 1%Q. lra.
Qed.

Lemma TrainLINEThread_loop_decay (draws : Z -> Q * Q) (fuel : nat) :
  forall (sh : Shared Q) (w : Worker Q),
    above_decay md sh -> w_last_count w <= w_count w ->
    match TrainLINEThread_loop fuel md draws sh w with
    | Exited sh' w' | Running sh' w' =>
        (sh_rho sh' <= sh_rho sh)%Q /\ above_decay md sh' /\ w_last_count w' <= w_count w'
    | Undefined => True
    end.
Proof.
  induction fuel as [|fuel IH]; intros sh w Hinv Hlast.
  - simpl. split; [apply Qle_refl|auto].
  - cbn [TrainLINEThread_loop]. destruct (_ <? w_count w).
    { split; [apply Qle_refl|auto]. }
    destruct (iteration md (draws (w_count w)) sh w) as [[sh' w']|] eqn:Hit; [|exact I].
    pose proof (iteration_rho md _ _ _ _ _ Hit) as Hrho. rewrite report_rho in Hrho.
    apply iteration_counters in Hit. destruct Hit as [Hc Hrep].
    assert (Hstep : (sh_rho sh' <= sh_rho sh)%Q /\ above_decay md sh'
                    /\ w_last_count w' <= w_count w').
    { destruct (Z.ltb_spec 10000 (w_count w - w_last_count w)) as [Hgt|Hle];
        destruct Hrep as [Hl Hs]; rewrite Hrho.
      - split; [apply Hinv; lia|]. split; [|lia].
        intros c Hcc. rewrite Hrho. apply rho_clamp_mono, rho_decay_antitone. lia.
      - split; [apply Qle_refl|]. split; [|lia].
        intros c Hcc. rewrite Hrho. apply Hinv. lia. }
    destruct Hstep as (Hle & Hinv' & Hlast').
    specialize (IH sh' w' Hinv' Hlast').
    destruct (TrainLINEThread_loop fuel md draws sh' w') as [sh2 w2|sh2 w2|]; [| |exact I];
      destruct IH as (H1 & H2 & H3); (split; [|auto]); eapply Qle_trans; eauto.
Qed.

End Decay.

Lemma TrainLINEThread_loop_more_fuel {real double : Type} `{Platform real double}
    (md : Model real double) (draws : Z -> double * double) (n k : nat) :
  forall (sh : Shared real) (w : Worker real),
    TrainLINEThread_loop (n + k) md draws sh w
    = match TrainLINEThread_loop n md draws sh w with
      | Running sh' w' => TrainLINEThread_loop k md draws sh' w'
      | outcome => outcome
      end.
Proof.
  induction n as [|n IH]; intros sh w; [reflexivity|].
  cbn [Nat.add TrainLINEThread_loop]. destruct (_ <? w_count w); [reflexivity|].
  destruct (iteration md (draws (w_count w)) sh w) as [[sh' w']|]; [apply IH|reflexivity].
Qed.

(** X15.  In exact arithmetic the learning rate of a worker that runs
    alone never exceeds [init_rho] and never increases.  From any state of
    the loop in which the rate is [init_rho > 0] or the rate the last report
    left, with a progress counter that is not negative: the rate after
    [n + k] rounds of the loop is at most the rate after [n] rounds, which
    is at most [init_rho]. *)
Theorem rho_never_increases (md : Model Q Q) (draws : Z -> Q * Q)
    (sh : Shared Q) (w : Worker Q) (n k : nat) :
  (0 < init_rho md)%Q -> 0 <= total_samples md ->
  0 <= sh_count sh -> w_last_count w <= w_count w ->
  sh_rho sh = init_rho md \/ sh_rho sh = rho_clamp md (rho_decay md (sh_count sh)) ->
  match TrainLINEThread_loop n md draws sh w with
  | Exited sh1 _ | Running sh1 _ =>
      (sh_rho sh1 <= init_rho md)%Q
      /\ match TrainLINEThread_loop (n + k) md draws sh w with
         | Exited sh2 _ | Running sh2 _ => (sh_rho sh2 <= sh_rho sh1)%Q
         | Undefined => True
         end
  | Undefined => True
  end.
Proof.
  intros Hpos HT Hstart Hlast Hrho.
  rewrite TrainLINEThread_loop_more_fuel.
  assert (Hinit : (sh_rho sh <= init_rho md)%Q).
  { destruct Hrho as [->| ->]; [apply Qle_refl|]. now apply rho_clamp_le_init. }
  assert (Hinv0 : above_decay md sh).
  { intros c Hc. destruct Hrho as [->| ->].
    - apply rho_clamp_le_init; [assumption|assumption|lia].
    - now apply rho_clamp_mono, rho_decay_antitone. }
  pose proof (TrainLINEThread_loop_decay md Hpos HT draws n sh w Hinv0 Hlast) as Hn.
  destruct (TrainLINEThread_loop n md draws sh w) as [sh1 w1|sh1 w1|]; [| |exact I];
    destruct Hn as (Hle & Hinv1 & Hlast1);
    (split; [eapply Qle_trans; [exact Hle|exact Hinit]|]).
  - apply Qle_refl.
  - pose proof (TrainLINEThread_loop_decay md Hpos HT draws k sh1 w1 Hinv1 Hlast1) as Hk.
    destruct (TrainLINEThread_loop k md draws sh1 w1) as [sh2 w2|sh2 w2|]; [| |exact I];
      apply Hk.
Qed.

Lemma rho_never_increases_witness :
  match TrainLINEThread_loop 0 example_lone_model example_draws
          example_lone_shared example_lone_worker with
  | Exited sh1 _ | Running sh1 _ =>
      (sh_rho sh1 <= init_rho example_lone_model)%Q
      /\ match TrainLINEThread_loop (0 + 2) example_lone_model example_draws
                 example_lone_shared example_lone_worker with
         | Exited sh2 _ | Running sh2 _ => (sh_rho sh2 <= sh_rho sh1)%Q
         | Undefined => True
         end
  | Undefined => True
  end
  /\ match TrainLINEThread_loop 2 example_lone_model example_draws
             example_lone_shared example_lone_worker with
     | Running sh2 w2 =>
         (sh_rho sh2 < init_rho example_lone_model)%Q
         /\ sh_count sh2 = 10001 /\ w_count w2 = 10003
     | _ => False
     end.
Proof.
  split.
  - apply (rho_never_increases example_lone_model example_draws
             example_lone_shared example_lone_worker 0 2).
    + reflexivity.
    + simpl. lia.
    + simpl. lia.
    + simpl. lia.
    + left. reflexivity.
  - vm_compute. repeat split.
Defined.
